(** * n8n-copilot: the chat relay, its client consumer and the content parser

    A shallow embedding of the four source files of the copilot feature:

    - the backend controller ([CopilotController]: request validation,
      credential lookup, the SSE relay [chatWithCopilot]);
    - the browser client ([AiChatService]: [streamChatResponse] and the body
      of its request);
    - [ChatDiscussion.vue] ([parseMessageContent], the expansion of the JSON
      blocks);
    - [ChatSidebar.vue] ([getCurrentWorkflowData], [extractWorkflowJson],
      [importWorkflowFromAI] and [handleSendMessage] with its streaming
      callbacks).

    JavaScript strings are sequences of UTF-16 code units, modelled as
    [list N].  The platform functions the code calls ([JSON.parse],
    [JSON.stringify], [RegExp.prototype.exec], [String.prototype.trim], ...)
    are modelled after ECMA-262, [TextDecoder] after the Encoding standard.
    Numbers are exact decimals: they agree with the doubles of the language
    up to 15 significant digits, away from overflow and underflow.

    Effects are explicit: the server handler runs in a state and exception
    monad over the operations made on the response; the client consumer
    returns the trace of the callbacks it invokes; the callbacks of the panel
    are functions on the panel state that record the calls made to the canvas
    and the toasts. *)

From Stdlib Require Import List NArith ZArith Lia Bool Ascii String Sorted.
From Stdlib Require DecimalN.
Import ListNotations.

Set Implicit Arguments.
Set Warnings "-register-all".
Local Open Scope N_scope.

(* ================================================================== *)
(** ** JavaScript strings *)

Module Js.

(** A string is its sequence of UTF-16 code units. *)
Definition str := list N.

(** An ASCII literal as a JavaScript string. *)
Definition js (s : string) : str := map N_of_ascii (list_ascii_of_string s).

Fixpoint eqb (a b : str) : bool :=
  match a, b with
  | [], [] => true
  | x :: a', y :: b' => (x =? y) && eqb a' b'
  | _, _ => false
  end.

(** [s.startsWith(p)] *)
Fixpoint startsWith (s p : str) : bool :=
  match p, s with
  | [], _ => true
  | y :: p', x :: s' => (x =? y) && startsWith s' p'
  | _ :: _, [] => false
  end.

(** [s.slice(from)] and [s.slice(from, to)] for non-negative indices. *)
Definition slice_from (s : str) (from : nat) : str := skipn from s.
Definition slice (s : str) (from to : nat) : str :=
  firstn (to - from) (skipn from s).

(** [s.includes(p)] *)
Fixpoint includes (s p : str) : bool :=
  startsWith s p ||
  match s with
  | [] => false
  | _ :: s' => includes s' p
  end.

(** [s.split('\n')]: never empty, the pieces hold no separator. *)
Fixpoint split (sep : N) (s : str) : list str :=
  match s with
  | [] => [[]]
  | c :: s' =>
      if c =? sep then [] :: split sep s'
      else match split sep s' with
           | l :: ls => (c :: l) :: ls
           | [] => [[c]]
           end
  end.

(** WhiteSpace and LineTerminator code units of ECMA-262: what
    [String.prototype.trim] strips and what [\s] matches. *)
Definition is_white_space (c : N) : bool :=
  ((9 <=? c) && (c <=? 13)) || (c =? 32) || (c =? 160) || (c =? 5760)
  || ((8192 <=? c) && (c <=? 8202)) || (c =? 8232) || (c =? 8233)
  || (c =? 8239) || (c =? 8287) || (c =? 12288) || (c =? 65279).

Fixpoint trimStart (s : str) : str :=
  match s with
  | c :: s' => if is_white_space c then trimStart s' else s
  | [] => []
  end.

Definition trimEnd (s : str) : str := rev (trimStart (rev s)).

(** [s.trim()] *)
Definition trim (s : str) : str := trimEnd (trimStart s).

(** Decimal digits of a natural number, as a string. *)
Fixpoint of_uint (u : Decimal.uint) : str :=
  match u with
  | Decimal.Nil => []
  | Decimal.D0 u' => 48 :: of_uint u'
  | Decimal.D1 u' => 49 :: of_uint u'
  | Decimal.D2 u' => 50 :: of_uint u'
  | Decimal.D3 u' => 51 :: of_uint u'
  | Decimal.D4 u' => 52 :: of_uint u'
  | Decimal.D5 u' => 53 :: of_uint u'
  | Decimal.D6 u' => 54 :: of_uint u'
  | Decimal.D7 u' => 55 :: of_uint u'
  | Decimal.D8 u' => 56 :: of_uint u'
  | Decimal.D9 u' => 57 :: of_uint u'
  end.

Definition of_N (n : N) : str := of_uint (N.to_uint n).

End Js.

Import Js.

(* ================================================================== *)
(** ** JSON values, [JSON.parse] and [JSON.stringify] *)

Module Json.

(** A JSON number literal denotes [(-1)^neg * mant * 10^expo].  Numbers are
    kept as exact decimals, [mant] without trailing zero; what IEEE doubles
    do to literals with more than 15 significant digits or with exponents out
    of range is not modelled. *)
Record number := Num { neg : bool; mant : N; expo : Z }.

Inductive json :=
| JNull
| JBool (b : bool)
| JNumber (n : number)
| JString (s : str)
| JArray (l : list json)
| JObject (l : list (str * json)).

(** A JavaScript value as far as the code can see one come out of
    [JSON.parse] or a property read: [None] is [undefined]. *)
Definition jsval := option json.

(** *** Objects: own properties in property order *)

Fixpoint all_digits (s : str) : bool :=
  match s with
  | [] => true
  | c :: s' => (48 <=? c) && (c <=? 57) && all_digits s'
  end.

Fixpoint digits_value (acc : N) (s : str) : N :=
  match s with
  | [] => acc
  | c :: s' => digits_value (acc * 10 + (c - 48)) s'
  end.

(** An array index: a canonical numeric string below 2^32 - 1. Such keys
    are enumerated first, in ascending order. *)
Definition array_index (k : str) : option N :=
  match k with
  | [] => None
  | c :: k' =>
      if all_digits k && ((negb (c =? 48)) || Nat.eqb (List.length k') 0)
         && (Nat.leb (List.length k) 10)
      then let v := digits_value 0 k in
           if v <? 4294967295 then Some v else None
      else None
  end.

Fixpoint obj_get (k : str) (o : list (str * json)) : jsval :=
  match o with
  | [] => None
  | (k', v) :: o' => if Js.eqb k k' then Some v else obj_get k o'
  end.

Fixpoint obj_replace (k : str) (v : json) (o : list (str * json))
  : list (str * json) :=
  match o with
  | [] => []
  | (k', v') :: o' =>
      if Js.eqb k k' then (k', v) :: o' else (k', v') :: obj_replace k v o'
  end.

(** Where a new key goes: index keys ascending before all others, the
    others in insertion order. *)
Fixpoint obj_insert (k : str) (v : json) (o : list (str * json))
  : list (str * json) :=
  match o with
  | [] => [(k, v)]
  | (k', v') :: o' =>
      match array_index k, array_index k' with
      | Some i, Some i' =>
          if i <? i' then (k, v) :: o else (k', v') :: obj_insert k v o'
      | Some _, None => (k, v) :: o
      | None, _ => (k', v') :: obj_insert k v o'
      end
  end.

(** CreateDataProperty: a repeated key keeps its place and takes the new
    value. *)
Definition obj_set (k : str) (v : json) (o : list (str * json))
  : list (str * json) :=
  match obj_get k o with
  | Some _ => obj_replace k v o
  | None => obj_insert k v o
  end.

(** *** Tokens and the lexer *)

Inductive token :=
| TLBrace | TRBrace | TLBracket | TRBracket | TColon | TComma
| TString (s : str)
| TNumber (n : number)
| TTrue | TFalse | TNull.

Inductive num_phase :=
| PMinus | PZero | PInt | PDot | PFrac | PExp | PExpSign | PExpDigits.

Record num_acc := NumAcc
  { na_neg : bool; na_mant : N; na_frac : nat; na_eneg : bool; na_exp : N }.

Inductive lex_state :=
| LStart
| LString (acc : str)
| LEscape (acc : str)
| LUnicode (acc : str) (k : nat) (v : N)
| LLiteral (rest : str) (t : token)
| LNumber (ph : num_phase) (a : num_acc).

Definition is_json_ws (c : N) : bool :=
  (c =? 32) || (c =? 9) || (c =? 10) || (c =? 13).

Definition digit_of (c : N) : option N :=
  if (48 <=? c) && (c <=? 57) then Some (c - 48) else None.

Definition hex_of (c : N) : option N :=
  if (48 <=? c) && (c <=? 57) then Some (c - 48)
  else if (97 <=? c) && (c <=? 102) then Some (c - 87)
  else if (65 <=? c) && (c <=? 70) then Some (c - 55)
  else None.

Fixpoint strip_zeros (fuel : nat) (m : N) (e : Z) : N * Z :=
  match fuel with
  | O => (m, e)
  | S f =>
      if (m mod 10 =? 0) && negb (m =? 0)
      then strip_zeros f (m / 10) (e + 1)%Z
      else (m, e)
  end.

Definition mk_number (a : num_acc) : number :=
  let e := ((if na_eneg a then - Z.of_N (na_exp a) else Z.of_N (na_exp a))
            - Z.of_nat (na_frac a))%Z in
  if na_mant a =? 0 then Num (na_neg a) 0 0
  else let (m, e') := strip_zeros (N.to_nat (N.size (na_mant a))) (na_mant a) e in
       Num (na_neg a) m e'.

Definition number_done (ph : num_phase) : bool :=
  match ph with
  | PZero | PInt | PFrac | PExpDigits => true
  | _ => false
  end.

Definition start_step (c : N) : option (lex_state * list token) :=
  if is_json_ws c then Some (LStart, [])
  else if c =? 123 then Some (LStart, [TLBrace])
  else if c =? 125 then Some (LStart, [TRBrace])
  else if c =? 91 then Some (LStart, [TLBracket])
  else if c =? 93 then Some (LStart, [TRBracket])
  else if c =? 58 then Some (LStart, [TColon])
  else if c =? 44 then Some (LStart, [TComma])
  else if c =? 34 then Some (LString [], [])
  else if c =? 45 then Some (LNumber PMinus (NumAcc true 0 0 false 0), [])
  else if c =? 48 then Some (LNumber PZero (NumAcc false 0 0 false 0), [])
  else if c =? 116 then Some (LLiteral (js "rue") TTrue, [])
  else if c =? 102 then Some (LLiteral (js "alse") TFalse, [])
  else if c =? 110 then Some (LLiteral (js "ull") TNull, [])
  else match digit_of c with
       | Some d => Some (LNumber PInt (NumAcc false d 0 false 0), [])
       | None => None
       end.

Definition push_digit (a : num_acc) (d : N) : num_acc :=
  NumAcc (na_neg a) (na_mant a * 10 + d) (na_frac a) (na_eneg a) (na_exp a).
Definition push_frac (a : num_acc) (d : N) : num_acc :=
  NumAcc (na_neg a) (na_mant a * 10 + d) (S (na_frac a)) (na_eneg a) (na_exp a).
Definition push_exp (a : num_acc) (d : N) : num_acc :=
  NumAcc (na_neg a) (na_mant a) (na_frac a) (na_eneg a) (na_exp a * 10 + d).
Definition set_eneg (a : num_acc) : num_acc :=
  NumAcc (na_neg a) (na_mant a) (na_frac a) true (na_exp a).

(** One more character of a number, when it continues the number. *)
Definition num_step (ph : num_phase) (a : num_acc) (c : N)
  : option (num_phase * num_acc) :=
  let is_e := (c =? 101) || (c =? 69) in
  match ph with
  | PMinus =>
      match digit_of c with
      | Some d => Some (if d =? 0 then PZero else PInt, push_digit a d)
      | None => None
      end
  | PZero =>
      if c =? 46 then Some (PDot, a)
      else if is_e then Some (PExp, a) else None
  | PInt =>
      match digit_of c with
      | Some d => Some (PInt, push_digit a d)
      | None => if c =? 46 then Some (PDot, a)
                else if is_e then Some (PExp, a) else None
      end
  | PDot =>
      match digit_of c with
      | Some d => Some (PFrac, push_frac a d)
      | None => None
      end
  | PFrac =>
      match digit_of c with
      | Some d => Some (PFrac, push_frac a d)
      | None => if is_e then Some (PExp, a) else None
      end
  | PExp =>
      match digit_of c with
      | Some d => Some (PExpDigits, push_exp a d)
      | None => if c =? 43 then Some (PExpSign, a)
                else if c =? 45 then Some (PExpSign, set_eneg a) else None
      end
  | PExpSign | PExpDigits =>
      match digit_of c with
      | Some d => Some (PExpDigits, push_exp a d)
      | None => None
      end
  end.

Definition step (st : lex_state) (c : N) : option (lex_state * list token) :=
  match st with
  | LStart => start_step c
  | LString acc =>
      if c =? 34 then Some (LStart, [TString (rev acc)])
      else if c =? 92 then Some (LEscape acc, [])
      else if c <? 32 then None
      else Some (LString (c :: acc), [])
  | LEscape acc =>
      if c =? 34 then Some (LString (34 :: acc), [])
      else if c =? 92 then Some (LString (92 :: acc), [])
      else if c =? 47 then Some (LString (47 :: acc), [])
      else if c =? 98 then Some (LString (8 :: acc), [])
      else if c =? 102 then Some (LString (12 :: acc), [])
      else if c =? 110 then Some (LString (10 :: acc), [])
      else if c =? 114 then Some (LString (13 :: acc), [])
      else if c =? 116 then Some (LString (9 :: acc), [])
      else if c =? 117 then Some (LUnicode acc 0 0, [])
      else None
  | LUnicode acc k v =>
      match hex_of c with
      | Some d =>
          if Nat.eqb k 3 then Some (LString (v * 16 + d :: acc), [])
          else Some (LUnicode acc (S k) (v * 16 + d), [])
      | None => None
      end
  | LLiteral rest t =>
      match rest with
      | x :: rest' =>
          if c =? x
          then match rest' with
               | [] => Some (LStart, [t])
               | _ => Some (LLiteral rest' t, [])
               end
          else None
      | [] => None
      end
  | LNumber ph a =>
      match num_step ph a c with
      | Some (ph', a') => Some (LNumber ph' a', [])
      | None =>
          if number_done ph
          then match start_step c with
               | Some (st', ts) => Some (st', TNumber (mk_number a) :: ts)
               | None => None
               end
          else None
      end
  end.

(** What the end of input means in each state. *)
Definition finish (st : lex_state) : option (list token) :=
  match st with
  | LStart => Some []
  | LNumber ph a => if number_done ph then Some [TNumber (mk_number a)] else None
  | _ => None
  end.

Fixpoint lex_from (st : lex_state) (s : str) : option (list token) :=
  match s with
  | [] => finish st
  | c :: s' =>
      match step st c with
      | Some (st', ts) =>
          match lex_from st' s' with
          | Some ts' => Some (ts ++ ts')
          | None => None
          end
      | None => None
      end
  end.

Definition lex (s : str) : option (list token) := lex_from LStart s.

(** *** The parser, on tokens *)

Inductive presult (A : Type) :=
| POk (a : A)
| PSyntaxError
| POutOfFuel.
Arguments PSyntaxError {A}.
Arguments POutOfFuel {A}.

Fixpoint parse_value (fuel : nat) (ts : list token)
  : presult (json * list token) :=
  match fuel with
  | O => POutOfFuel
  | S f =>
      match ts with
      | TNull :: r => POk (JNull, r)
      | TTrue :: r => POk (JBool true, r)
      | TFalse :: r => POk (JBool false, r)
      | TNumber n :: r => POk (JNumber n, r)
      | TString s :: r => POk (JString s, r)
      | TLBracket :: TRBracket :: r => POk (JArray [], r)
      | TLBracket :: r => parse_elements f r []
      | TLBrace :: TRBrace :: r => POk (JObject [], r)
      | TLBrace :: r => parse_members f r []
      | _ => PSyntaxError
      end
  end
with parse_elements (fuel : nat) (ts : list token) (acc : list json)
  : presult (json * list token) :=
  match fuel with
  | O => POutOfFuel
  | S f =>
      match parse_value f ts with
      | POk (v, TComma :: r) => parse_elements f r (v :: acc)
      | POk (v, TRBracket :: r) => POk (JArray (rev (v :: acc)), r)
      | POk _ => PSyntaxError
      | PSyntaxError => PSyntaxError
      | POutOfFuel => POutOfFuel
      end
  end
with parse_members (fuel : nat) (ts : list token) (acc : list (str * json))
  : presult (json * list token) :=
  match fuel with
  | O => POutOfFuel
  | S f =>
      match ts with
      | TString k :: TColon :: r =>
          match parse_value f r with
          | POk (v, TComma :: r') => parse_members f r' (obj_set k v acc)
          | POk (v, TRBrace :: r') => POk (JObject (obj_set k v acc), r')
          | POk _ => PSyntaxError
          | PSyntaxError => PSyntaxError
          | POutOfFuel => POutOfFuel
          end
      | _ => PSyntaxError
      end
  end.

Definition parse_tokens (ts : list token) : presult json :=
  match parse_value (2 * List.length ts + 1) ts with
  | POk (v, []) => POk v
  | POk (_, _ :: _) => PSyntaxError
  | PSyntaxError => PSyntaxError
  | POutOfFuel => POutOfFuel
  end.

(** [JSON.parse(s)] without reviver: [None] is a thrown SyntaxError.
    ([parse_tokens] never runs out of fuel, see [parse_tokens_fuel].) *)
Definition JSON_parse (s : str) : option json :=
  match lex s with
  | Some ts =>
      match parse_tokens ts with
      | POk v => Some v
      | _ => None
      end
  | None => None
  end.

(** *** [JSON.stringify] *)

Definition hex_digit (d : N) : N := if d <? 10 then 48 + d else 87 + d.

Definition unicode_escape (c : N) : str :=
  [92; 117; hex_digit ((c / 4096) mod 16); hex_digit ((c / 256) mod 16);
   hex_digit ((c / 16) mod 16); hex_digit (c mod 16)].

Definition is_high_surrogate (c : N) : bool := (55296 <=? c) && (c <=? 56319).
Definition is_low_surrogate (c : N) : bool := (56320 <=? c) && (c <=? 57343).

(** The escape of one code unit that is not half of a surrogate pair. *)
Definition quote_unit (c : N) : str :=
  if c =? 8 then [92; 98]
  else if c =? 9 then [92; 116]
  else if c =? 10 then [92; 110]
  else if c =? 12 then [92; 102]
  else if c =? 13 then [92; 114]
  else if c =? 34 then [92; 34]
  else if c =? 92 then [92; 92]
  else if (c <? 32) || is_high_surrogate c || is_low_surrogate c
  then unicode_escape c
  else [c].

(** The body of QuoteJSONString: a surrogate pair passes through, a lone
    surrogate is escaped. *)
Fixpoint quote_body (s : str) : str :=
  match s with
  | [] => []
  | c :: s' =>
      match s' with
      | d :: s'' =>
          if is_high_surrogate c && is_low_surrogate d
          then c :: d :: quote_body s''
          else quote_unit c ++ quote_body s'
      | [] => quote_unit c
      end
  end.

Definition quote (s : str) : str := 34 :: quote_body s ++ [34].

(** Number::toString on the decimal digits [ds] of the mantissa, with
    [n] the position of the decimal point. *)
Definition zeros (k : nat) : str := repeat 48 k.

Definition number_to_string (x : number) : str :=
  if mant x =? 0 then [48]
  else
    let ds := Js.of_N (mant x) in
    let k := Z.of_nat (List.length ds) in
    let n := (k + expo x)%Z in
    let sign := if neg x then [45] else [] in
    sign ++
    (if ((k <=? n) && (n <=? 21))%Z
     then ds ++ zeros (Z.to_nat (n - k))
     else if ((0 <? n) && (n <=? 21))%Z
     then firstn (Z.to_nat n) ds ++ [46] ++ skipn (Z.to_nat n) ds
     else if ((-6 <? n) && (n <=? 0))%Z
     then [48; 46] ++ zeros (Z.to_nat (- n)) ++ ds
     else
       let e := (n - 1)%Z in
       let es := (if (e <? 0)%Z then [45] else [43]) ++ Js.of_N (Z.abs_N e) in
       match ds with
       | [d] => [d; 101] ++ es
       | d :: ds' => d :: 46 :: ds' ++ [101] ++ es
       | [] => []
       end).

Fixpoint join (sep : str) (l : list str) : str :=
  match l with
  | [] => []
  | [x] => x
  | x :: l' => x ++ sep ++ join sep l'
  end.

(** SerializeJSONProperty with [gap] spaces per level ([gap = 0] is the
    compact form) at nesting depth [depth]. *)
Fixpoint serialize (gap : nat) (depth : nat) (v : json) : str :=
  let indent := repeat 32 (gap * S depth) in
  let stepback := repeat 32 (gap * depth) in
  let wrap (open close : N) (items : list str) : str :=
    match items with
    | [] => [open; close]
    | _ =>
        if Nat.eqb gap 0
        then [open] ++ join [44] items ++ [close]
        else [open; 10] ++ indent ++ join ([44; 10] ++ indent) items
             ++ [10] ++ stepback ++ [close]
    end in
  match v with
  | JNull => js "null"
  | JBool true => js "true"
  | JBool false => js "false"
  | JNumber n => number_to_string n
  | JString s => quote s
  | JArray l => wrap 91 93 (map (serialize gap (S depth)) l)
  | JObject o =>
      wrap 123 125
        (map (fun kv : str * json =>
                quote (fst kv) ++ [58] ++ (if Nat.eqb gap 0 then [] else [32])
                ++ serialize gap (S depth) (snd kv)) o)
  end.

(** [JSON.stringify(v)] and [JSON.stringify(v, null, gap)]. *)
Definition JSON_stringify (v : json) : str := serialize 0 0 v.
Definition JSON_stringify_indent (gap : nat) (v : json) : str :=
  serialize gap 0 v.

(** *** What JavaScript operators see of a JSON value *)

(** ToBoolean *)
Definition truthy (v : jsval) : bool :=
  match v with
  | None => false
  | Some JNull => false
  | Some (JBool b) => b
  | Some (JNumber n) => negb (mant n =? 0)
  | Some (JString s) => negb (Js.eqb s [])
  | Some (JArray _) | Some (JObject _) => true
  end.

(** [typeof v === 'object'] *)
Definition typeof_object (v : json) : bool :=
  match v with
  | JNull | JArray _ | JObject _ => true
  | _ => false
  end.

(** [Array.isArray(v)] *)
Definition isArray (v : jsval) : bool :=
  match v with
  | Some (JArray _) => true
  | _ => false
  end.

(** [v === 'lit'] *)
Definition is_string (v : jsval) (lit : str) : bool :=
  match v with
  | Some (JString s) => Js.eqb s lit
  | _ => false
  end.

(** ToString on a value that came out of [JSON.parse] throws a TypeError
    exactly when the conversion meets an object with an own property named
    toString: that property is no function, and neither an own valueOf nor
    the inherited one gives a primitive. An object without it converts
    through Object.prototype.toString; an array joins the conversions of its
    elements (null converts to the empty string). *)
Fixpoint to_string_throws (v : json) : bool :=
  match v with
  | JObject o =>
      match obj_get (js "toString") o with
      | Some _ => true
      | None => false
      end
  | JArray l => existsb to_string_throws l
  | _ => false
  end.

(** A property read [v.k] on a value that came out of [JSON.parse].
    Reading from [null] throws a TypeError ([None]); primitives and arrays
    have none of the names the code reads ([type], [content], [nodes],
    [name]), neither do the prototypes. *)
Definition get_prop (v : json) (k : str) : option jsval :=
  match v with
  | JNull => None
  | JObject o => Some (obj_get k o)
  | _ => Some None
  end.

(** A value that is thrown, or that a promise is rejected with: an
    [Error] with its message, or anything else. *)
Inductive thrown :=
| ThrownError (message : str)
| ThrownOther (v : jsval).

End Json.

Import Json.

(* ================================================================== *)
(** ** Regular expressions: the fragment the three literals use *)

Module Regex.

Inductive class :=
| CSpace                      (* \s *)
| CAny.                       (* [\s\S] *)

Definition in_class (k : class) (c : N) : bool :=
  match k with
  | CSpace => is_white_space c
  | CAny => true
  end.

Inductive atom :=
| AChar (c : N)               (* a literal character *)
| AStar (k : class)           (* k*  : greedy *)
| ALazy (k : class)           (* k*? : lazy *)
| AOpen                       (* (   : group 1 opens *)
| AClose.                     (* )   : group 1 closes *)

Definition pattern := list atom.

(** Where group 1 stands while matching. *)
Record groups := Groups { g_open : nat; g_span : option (nat * nat) }.

(** The backtracking matcher: [s] is the text from position [pos] on. The
    result is the end of the match and the span of group 1. *)
Fixpoint match_here (p : pattern) (s : str) (pos : nat) (g : groups)
  : option (nat * option (nat * nat)) :=
  match p with
  | [] => Some (pos, g_span g)
  | AChar c :: p' =>
      match s with
      | x :: s' => if x =? c then match_here p' s' (S pos) g else None
      | [] => None
      end
  | AStar k :: p' =>
      (fix star (s : str) (pos : nat) {struct s} :=
         match s with
         | x :: s' =>
             if in_class k x
             then match star s' (S pos) with
                  | Some r => Some r
                  | None => match_here p' s pos g
                  end
             else match_here p' s pos g
         | [] => match_here p' [] pos g
         end) s pos
  | ALazy k :: p' =>
      (fix lazy (s : str) (pos : nat) {struct s} :=
         match match_here p' s pos g with
         | Some r => Some r
         | None =>
             match s with
             | x :: s' => if in_class k x then lazy s' (S pos) else None
             | [] => None
             end
         end) s pos
  | AOpen :: p' => match_here p' s pos (Groups pos (g_span g))
  | AClose :: p' => match_here p' s pos (Groups (g_open g) (Some (g_open g, pos)))
  end.

(** A match: [m.index], the end of [m[0]], and [m[1]]. *)
Record rmatch := RMatch { m_index : nat; m_end : nat; m_group1 : option str }.

(** The first position from [pos] on where the pattern matches. *)
Fixpoint search (p : pattern) (text : str) (s : str) (pos : nat)
  : option rmatch :=
  match match_here p s pos (Groups 0 None) with
  | Some (e, sp) =>
      Some (RMatch pos e
              (option_map (fun ab => slice text (fst ab) (snd ab)) sp))
  | None =>
      match s with
      | [] => None
      | _ :: s' => search p text s' (S pos)
      end
  end.

(** [re.exec(text)] for a global regular expression whose [lastIndex] is
    [lastIndex]: the match, and the new [lastIndex]. *)
Definition exec (p : pattern) (text : str) (lastIndex : nat)
  : option rmatch * nat :=
  if Nat.ltb (List.length text) lastIndex then (None, O)
  else match search p text (skipn lastIndex text) lastIndex with
       | Some m => (Some m, m_end m)
       | None => (None, O)
       end.

(** [while ((m = re.exec(text)) !== null) { push m }] from a given
    [lastIndex].  [None]: the loop is still running when the fuel is out
    (an empty match leaves [lastIndex] where it is). *)
Fixpoint exec_loop (fuel : nat) (p : pattern) (text : str) (lastIndex : nat)
  : option (list rmatch) :=
  match fuel with
  | O => None
  | S f =>
      match exec p text lastIndex with
      | (Some m, li) =>
          match exec_loop f p text li with
          | Some ms => Some (m :: ms)
          | None => None
          end
      | (None, _) => Some []
      end
  end.

(** [[...text.matchAll(re)]]: the successive matches of a fresh copy of
    the regular expression; an empty match advances [lastIndex] by one.
    The text is walked once: [s] is the text from [pos] on, and no match
    is tried before [lastIndex]. *)
Fixpoint scan (p : pattern) (text : str) (s : str) (pos lastIndex : nat)
  : list rmatch :=
  let here :=
    if Nat.ltb pos lastIndex then None
    else match_here p s pos (Groups 0 None) in
  match here with
  | Some (e, sp) =>
      RMatch pos e (option_map (fun ab => slice text (fst ab) (snd ab)) sp)
      :: match s with
         | [] => []
         | _ :: s' => scan p text s' (S pos) (if Nat.eqb e pos then S e else e)
         end
  | None =>
      match s with
      | [] => []
      | _ :: s' => scan p text s' (S pos) lastIndex
      end
  end.

Definition matchAll (p : pattern) (text : str) : list rmatch :=
  scan p text text 0 0.

Definition lits (s : str) : pattern := map AChar s.

(** [/```json\s*\n([\s\S]*?)\n```/g] *)
Definition fenced_block : pattern :=
  lits (js "```json") ++ [AStar CSpace; AChar 10; AOpen; ALazy CAny; AClose;
                          AChar 10] ++ lits (js "```").

(** [/```json\s*\n/g] *)
Definition fence_start : pattern :=
  lits (js "```json") ++ [AStar CSpace; AChar 10].

End Regex.

Import Regex.

(* ================================================================== *)
(** ** ChatDiscussion.vue *)

Module ChatDiscussion.

Inductive part_type := PText | PJson.

(** [ParsedMessagePart] *)
Record ParsedMessagePart := Part { p_type : part_type; p_content : str }.

Definition completedJsonRegex : pattern := fenced_block.
Definition incompleteJsonRegex : pattern := fence_start.

(** The entries of [allBlocks]: a completed block carries its content, an
    incomplete one the position its content starts at. *)
Inductive block_kind :=
| Completed (content : str)
| Incomplete (startPos : nat).

Record block := Block { b_start : nat; b_end : nat; b_kind : block_kind }.

Definition completed_of (m : rmatch) : block :=
  Block (m_index m) (m_end m)
        (Completed (match m_group1 m with Some c => c | None => [] end)).

(** [completedBlocks.some(b => startPos >= b.start && startPos < b.end)] *)
Definition isCompleted (completedBlocks : list block) (startPos : nat) : bool :=
  existsb (fun b => Nat.leb (b_start b) startPos && Nat.ltb startPos (b_end b))
          completedBlocks.

Definition incomplete_of (text : str) (completedBlocks : list block)
           (ms : list rmatch) : list block :=
  map (fun m => Block (m_index m) (List.length text) (Incomplete (m_end m)))
      (filter (fun m => negb (isCompleted completedBlocks (m_index m))) ms).

(** [.sort((a, b) => a.start - b.start)]; the sort is stable. *)
Fixpoint insert_block (b : block) (l : list block) : list block :=
  match l with
  | [] => [b]
  | b' :: l' =>
      if Nat.leb (b_start b) (b_start b') then b :: l
      else b' :: insert_block b l'
  end.

Definition sort_blocks (l : list block) : list block :=
  fold_right insert_block [] l.

(** The part a block contributes: its content, pretty-printed when it
    parses. *)
Definition json_part (text : str) (b : block) : ParsedMessagePart :=
  let jsonContent :=
    match b_kind b with
    | Completed content => content
    | Incomplete startPos => slice_from text startPos
    end in
  match JSON_parse jsonContent with
  | Some parsed => Part PJson (JSON_stringify_indent 2 parsed)
  | None => Part PJson jsonContent
  end.

(** [for (const block of allBlocks) { ... }]: the parts pushed, and the
    final [lastIndex]. *)
Fixpoint blocks_loop (text : str) (allBlocks : list block) (lastIndex : nat)
  : list ParsedMessagePart * nat :=
  match allBlocks with
  | [] => ([], lastIndex)
  | b :: rest =>
      let before :=
        if Nat.ltb lastIndex (b_start b)
        then let textBefore := trim (slice text lastIndex (b_start b)) in
             match textBefore with
             | [] => []
             | _ => [Part PText textBefore]
             end
        else [] in
      let (parts, li) := blocks_loop text rest (b_end b) in
      (before ++ json_part text b :: parts, li)
  end.

Definition parseMessageContent (text : str) : option (list ParsedMessagePart) :=
  let fuel := S (List.length text) in
  match exec_loop fuel completedJsonRegex text 0 with
  | None => None
  | Some cms =>
      let completedBlocks := map completed_of cms in
      match exec_loop fuel incompleteJsonRegex text 0 with
      | None => None
      | Some ims =>
          let incompleteBlocks := incomplete_of text completedBlocks ims in
          let allBlocks := sort_blocks (completedBlocks ++ incompleteBlocks) in
          let (parts, lastIndex) := blocks_loop text allBlocks 0 in
          let parts :=
            if Nat.ltb lastIndex (List.length text)
            then let remainingText := trim (slice_from text lastIndex) in
                 match remainingText with
                 | [] => parts
                 | _ => parts ++ [Part PText remainingText]
                 end
            else parts in
          match parts with
          | [] => Some [Part PText text]
          | _ => Some parts
          end
      end
  end.

(** *** The state of the component and the rendering of a message *)

(** [expandedJsonBlocks] and the [responding] prop. *)
Record component := Component
  { expandedJsonBlocks : list (str * bool); responding : bool }.

(** [`${messageId}-${partIndex}`] *)
Definition block_key (messageId : str) (partIndex : nat) : str :=
  messageId ++ [45] ++ Js.of_N (N.of_nat partIndex).

Fixpoint lookup_key (key : str) (m : list (str * bool)) : option bool :=
  match m with
  | [] => None
  | (k, b) :: m' => if Js.eqb key k then Some b else lookup_key key m'
  end.

Definition isJsonExpanded (c : component) (messageId : str) (partIndex : nat)
  : bool :=
  if responding c then true
  else match lookup_key (block_key messageId partIndex) (expandedJsonBlocks c) with
       | Some b => b
       | None => false
       end.

Definition toggleJsonExpansion (messageId : str) (partIndex : nat)
           (c : component) : component :=
  let key := block_key messageId partIndex in
  let old := match lookup_key key (expandedJsonBlocks c) with
             | Some b => b
             | None => false
             end in
  Component ((key, negb old) :: expandedJsonBlocks c) (responding c).

(** What the template's [v-for] over [parseMessageContent(message.text)]
    renders for one message: each part with whether it shows expanded. *)
Definition render_message (c : component) (messageId : str) (text : str)
  : option (list (ParsedMessagePart * bool)) :=
  match parseMessageContent text with
  | Some parts =>
      Some (combine parts
              (map (isJsonExpanded c messageId) (seq 0 (List.length parts))))
  | None => None
  end.

End ChatDiscussion.

Import ChatDiscussion.

(* ================================================================== *)
(** ** ChatSidebar.vue *)

Module ChatSidebar.

Inductive sender := FromUser | FromCopilot.

Record Message := Msg
  { msg_id : N; msg_text : str; msg_sender : sender; msg_timestamp : N }.

(** Calls to the collaborators of the panel, in the order they are made. *)
Inductive call :=
| ResetWorkspace
| InitializeWorkspace (workflowData : json)
| SetDocumentTitle (name : json)
| ToastMessage (title : str)
| ToastError (title : str)
| ConsoleLog (message : str)
| ConsoleError (message : str).

(** The canvas operations are external; either may throw. What they do to
    the document is not in these files: a reset that returns is taken to
    empty it, an initialization that returns to load its argument, and a call
    that throws to leave it as it was. *)
Record canvas_ops := CanvasOps
  { reset_throws : bool; initialize_throws : json -> bool }.

(** What the callbacks of [handleSendMessage] read and write: the message
    list, the two flags, the [fullResponse] accumulator of the turn, the
    active workflow document ([None]: an empty canvas), and the calls made. *)
Record panel := Panel
  { messages : list Message;
    isResponding : bool;
    isGeneratingWorkflow : bool;
    fullResponse : str;
    workflow : option json;
    calls : list call }.

Definition emit (c : call) (p : panel) : panel :=
  Panel (messages p) (isResponding p) (isGeneratingWorkflow p)
        (fullResponse p) (workflow p) (calls p ++ [c]).
Definition set_workflow (w : option json) (p : panel) : panel :=
  Panel (messages p) (isResponding p) (isGeneratingWorkflow p)
        (fullResponse p) w (calls p).
Definition set_responding (b : bool) (p : panel) : panel :=
  Panel (messages p) b (isGeneratingWorkflow p)
        (fullResponse p) (workflow p) (calls p).
Definition set_generating (b : bool) (p : panel) : panel :=
  Panel (messages p) (isResponding p) b
        (fullResponse p) (workflow p) (calls p).
Definition set_fullResponse (s : str) (p : panel) : panel :=
  Panel (messages p) (isResponding p) (isGeneratingWorkflow p)
        s (workflow p) (calls p).
Definition set_messages (ms : list Message) (p : panel) : panel :=
  Panel ms (isResponding p) (isGeneratingWorkflow p)
        (fullResponse p) (workflow p) (calls p).

Definition jsonBlockRegex : pattern := fenced_block.

(** [matches[matches.length - 1]] *)
Definition lastMatch (matches : list rmatch) : option rmatch :=
  nth_error matches (List.length matches - 1).

(** [lastMatch[1]]: the string handed to [JSON.parse]; [None] when there is
    no match. *)
Definition jsonString (responseText : str) : option str :=
  match lastMatch (matchAll jsonBlockRegex responseText) with
  | Some m => Some (match m_group1 m with Some c => c | None => [] end)
  | None => None
  end.

(** [parsed && typeof parsed === 'object' && parsed.nodes
     && Array.isArray(parsed.nodes)] *)
Definition is_workflow (parsed : json) : bool :=
  truthy (Some parsed) && typeof_object parsed
  && match get_prop parsed (js "nodes") with
     | Some nodes => truthy nodes && isArray nodes
     | None => false
     end.

(** The result is the workflow, or [None] for [null]. *)
Definition extractWorkflowJson (responseText : str) : option json :=
  match jsonString responseText with
  | None => None
  | Some jsonString =>
      match JSON_parse jsonString with
      | Some parsed => if is_workflow parsed then Some parsed else None
      | None => None
      end
  end.

(** The function as a callback runs it: the result and, when the selected
    block does not parse, the [console.error] of the catch. *)
Definition extractWorkflowJson_call (responseText : str) (p : panel)
  : option json * panel :=
  match jsonString responseText with
  | None => (None, p)
  | Some jsonString =>
      match JSON_parse jsonString with
      | Some parsed => (if is_workflow parsed then Some parsed else None, p)
      | None =>
          (None,
           emit (ConsoleError (js "Failed to parse JSON from AI response:")) p)
      end
  end.

Definition importWorkflowFromAI (ops : canvas_ops) (workflowData : json)
           (p : panel) : panel :=
  let failed (p : panel) :=
    emit (ToastError (js "Failed to replace workflow from AI response"))
         (emit (ConsoleError (js "Failed to replace workflow:")) p) in
  let p := emit ResetWorkspace p in
  if reset_throws ops then failed p
  else
    let p := set_workflow None p in
    let p := emit (InitializeWorkspace workflowData) p in
    if initialize_throws ops workflowData then failed p
    else
      let p := set_workflow (Some workflowData) p in
      let p :=
        match get_prop workflowData (js "name") with
        | Some (Some name) =>
            if truthy (Some name) then emit (SetDocumentTitle name) p else p
        | _ => p
        end in
      let p := emit (ToastMessage (js "Workflow Replaced")) p in
      emit (ConsoleLog (js "Workflow replaced successfully from AI response")) p.

(** [messages.value[responseIndex].text = f(text)] for the first message
    whose id is [aiResponseId], when there is one. *)
Fixpoint update_message (aiResponseId : N) (f : str -> str)
         (ms : list Message) : list Message :=
  match ms with
  | [] => []
  | m :: ms' =>
      if msg_id m =? aiResponseId
      then Msg (msg_id m) (f (msg_text m)) (msg_sender m) (msg_timestamp m) :: ms'
      else m :: update_message aiResponseId f ms'
  end.

Definition onText (aiResponseId : N) (text : str) (p : panel) : panel :=
  let p := set_fullResponse (fullResponse p ++ text) p in
  let p :=
    if includes (fullResponse p) (js "```json") && negb (isGeneratingWorkflow p)
    then emit (ToastMessage (js "Editing Workflow")) (set_generating true p)
    else p in
  set_messages (update_message aiResponseId (fun t => t ++ text) (messages p)) p.

Definition error_text : str :=
  js "Sorry, I encountered an error while processing your request. Please try again.".

Definition onError (aiResponseId : N) (p : panel) : panel :=
  let p := emit (ConsoleError (js "Claude API error:")) p in
  let p := set_responding false p in
  let p := if isGeneratingWorkflow p then set_generating false p else p in
  set_messages (update_message aiResponseId (fun _ => error_text) (messages p)) p.

Definition onComplete (ops : canvas_ops) (p : panel) : panel :=
  let p := emit (ConsoleLog (js "Claude response completed")) p in
  let p := set_responding false p in
  let (workflowJson, p) := extractWorkflowJson_call (fullResponse p) p in
  let p :=
    match workflowJson with
    | Some workflowJson =>
        importWorkflowFromAI ops workflowJson
          (emit (ConsoleLog (js "Found workflow JSON in AI response, importing...")) p)
    | None => p
    end in
  if isGeneratingWorkflow p
  then emit (ToastMessage (js "Workflow Generated")) (set_generating false p)
  else p.

End ChatSidebar.

(* ================================================================== *)
(** ** The client: [AiChatService.streamChatResponse] *)

Module AiChatService.

(** The [Error] handed to [onError]. *)
Inductive error :=
| ErrorOf (content : jsval)            (* new Error(data.content) *)
| HttpError (status : N)               (* `HTTP error! status: ${status}` *)
| NoResponseBody                       (* 'No response body' *)
| Rethrown (message : str)             (* the Error that was caught *)
| UnknownError.                        (* 'Unknown error occurred' *)

(** What the caller observes: the callbacks invoked, the warnings logged
    and the release of the reader, in order. The callbacks are taken to
    return normally, as those the panel passes do. *)
Inductive event :=
| OnText (content : jsval)
| OnError (e : error)
| OnComplete
| ConsoleWarn (line : str)
| ReleaseLock.

(** The body stream: what the successive [reader.read()] deliver, each
    chunk as [decoder.decode(value)] decodes it, and how the stream ends. *)
Inductive ending := Done | ReadFails (t : thrown).
Record body := Body { chunks : list str; ending_of : ending }.

Record response := Response { ok : bool; status : N; body_of : option body }.

Inductive fetch_result :=
| FetchRejects (t : thrown)
| FetchResolves (r : response).

(** How a statement of the loop body ends. *)
Inductive flow := Continue | Return.

(** [new Error(content)] converts a [content] that is not undefined to a
    string; the conversion can throw. *)
Definition new_Error_throws (content : jsval) : bool :=
  match content with
  | Some v => to_string_throws v
  | None => false
  end.

(** One line: the body of [for (const line of lines)]. [has_onComplete]:
    the optional callback was supplied. Whatever is thrown inside the [try]
    (by [JSON.parse], by reading [type] of null, by [new Error]) is caught
    and reported with [console.warn]. *)
Definition process_line (has_onComplete : bool) (line : str)
  : list event * flow :=
  if startsWith line (js "data: ") then
    match JSON_parse (slice_from line 6) with
    | None => ([ConsoleWarn line], Continue)
    | Some data =>
        match get_prop data (js "type") with
        | None => ([ConsoleWarn line], Continue)
        | Some ty =>
            let content :=
              match get_prop data (js "content") with
              | Some c => c
              | None => None
              end in
            if is_string ty (js "text") then ([OnText content], Continue)
            else if is_string ty (js "error")
            then if new_Error_throws content
                 then ([ConsoleWarn line], Continue)
                 else ([OnError (ErrorOf content)], Return)
            else if is_string ty (js "complete")
            then (if has_onComplete then [OnComplete] else [], Return)
            else ([], Continue)
        end
    end
  else ([], Continue).

Fixpoint process_lines (has_onComplete : bool) (lines : list str)
  : list event * flow :=
  match lines with
  | [] => ([], Continue)
  | line :: rest =>
      match process_line has_onComplete line with
      | (evs, Return) => (evs, Return)
      | (evs, Continue) =>
          let (evs', fl) := process_lines has_onComplete rest in
          (evs ++ evs', fl)
      end
  end.

(** The [while (true)] loop over the reads. The result says how the loop
    was left: by [return], by [break] on [done], or by an exception. *)
Inductive loop_exit := ByReturn | ByBreak | ByThrow (t : thrown).

Fixpoint read_loop (has_onComplete : bool) (cs : list str) (e : ending)
  : list event * loop_exit :=
  match cs with
  | [] =>
      match e with
      | Done => ([], ByBreak)
      | ReadFails t => ([], ByThrow t)
      end
  | chunk :: cs' =>
      match process_lines has_onComplete (split 10 chunk) with
      | (evs, Return) => (evs, ByReturn)
      | (evs, Continue) =>
          let (evs', ex) := read_loop has_onComplete cs' e in
          (evs ++ evs', ex)
      end
  end.

(** [error instanceof Error ? error : new Error('Unknown error occurred')] *)
Definition caught (t : thrown) : error :=
  match t with
  | ThrownError m => Rethrown m
  | ThrownOther _ => UnknownError
  end.

Definition streamChatResponse (has_onComplete : bool) (f : fetch_result)
  : list event :=
  match f with
  | FetchRejects t => [OnError (caught t)]
  | FetchResolves r =>
      if negb (ok r) then [OnError (HttpError (status r))]
      else match body_of r with
           | None => [OnError NoResponseBody]
           | Some b =>
               match read_loop has_onComplete (chunks b) (ending_of b) with
               | (evs, ByThrow t) => evs ++ [ReleaseLock; OnError (caught t)]
               | (evs, _) => evs ++ [ReleaseLock]
               end
           end
  end.

End AiChatService.

(* ================================================================== *)
(** ** The server: [CopilotController] *)

Module CopilotController.

Inductive role := RUser | RAssistant.

Record ChatMessage := ChatMsg { cm_role : role; cm_content : str }.

(** [CopilotChatRequest], the output type of the schema. *)
Record CopilotChatRequest := ChatRequest
  { userMessage : str; conversationHistory : list ChatMessage }.

(** *** [CopilotChatRequestDto]: the schema and its [parse] *)

(** [z.enum(['user', 'assistant'])] *)
Definition parse_role (v : jsval) : option role :=
  if is_string v (js "user") then Some RUser
  else if is_string v (js "assistant") then Some RAssistant
  else None.

(** [z.string()] *)
Definition parse_string (v : jsval) : option str :=
  match v with
  | Some (JString s) => Some s
  | _ => None
  end.

(** [z.object({ role: ..., content: z.string() })]; unknown keys are
    stripped. *)
Definition parse_message (v : json) : option ChatMessage :=
  match v with
  | JObject o =>
      match parse_role (obj_get (js "role") o),
            parse_string (obj_get (js "content") o) with
      | Some r, Some c => Some (ChatMsg r c)
      | _, _ => None
      end
  | _ => None
  end.

Fixpoint parse_messages (l : list json) : option (list ChatMessage) :=
  match l with
  | [] => Some []
  | v :: l' =>
      match parse_message v, parse_messages l' with
      | Some m, Some ms => Some (m :: ms)
      | _, _ => None
      end
  end.

(** [z.array(...).optional().default([])] *)
Definition parse_history (v : jsval) : option (list ChatMessage) :=
  match v with
  | None => Some []
  | Some (JArray l) => parse_messages l
  | Some _ => None
  end.

(** [CopilotChatRequestDto.parse(body)]; [None] is a thrown [ZodError]. *)
Definition CopilotChatRequestDto (body : jsval) : option CopilotChatRequest :=
  match body with
  | Some (JObject o) =>
      match parse_string (obj_get (js "userMessage") o),
            parse_history (obj_get (js "conversationHistory") o) with
      | Some m, Some h =>
          if Nat.leb 1 (List.length m) then Some (ChatRequest m h) else None
      | _, _ => None
      end
  | _ => None
  end.

(** *** Errors *)

Inductive response_error :=
| BadRequestError (message : str)
| ForbiddenError (message : str)
| NotFoundError (message : str).

Definition httpStatusCode (e : response_error) : N :=
  match e with
  | BadRequestError _ => 400
  | ForbiddenError _ => 403
  | NotFoundError _ => 404
  end.

(** What the handler body can throw: the validation error and the
    response errors of the key resolution. The credential services and the
    provider client are taken to return normally. *)
Inductive exn :=
| ZodError
| ResponseError (e : response_error).

(** *** The collaborators *)

Record User := MkUser { user_id : str }.

(** A credential as [getMany] lists it, and as the finder returns it. *)
Record credential := Credential { cred_id : str; cred_type : str }.
Record credential_entity := CredentialEntity { ce_id : str; ce_data : str }.

Record credential_services := Services
  { getMany : User -> list credential;
    findCredentialForUser : str -> User -> option credential_entity;
    (* [decrypt(credentialWithData, true).apiKey] *)
    decrypt_apiKey : credential_entity -> jsval }.

(** The events of the provider's message stream. *)
Inductive delta :=
| TextDelta (text : str)
| OtherDelta.

Inductive stream_event :=
| ContentBlockDelta (d : delta)
| OtherEvent.

Inductive outcome := Exhausted | Fails (t : thrown).

(** [client.messages.stream({ system, model, max_tokens, messages })] for a
    client built from [apiKey]: the events it yields and how it ends. *)
Record provider_stream := Stream
  { events : list stream_event; outcome_of : outcome }.

Definition provider := str -> list ChatMessage -> provider_stream.

(** *** The response and the handler's monad *)

Inductive res_op :=
| WriteHead (status : N) (headers : list (str * str))
| Write (data : str)
| Flush
| End.

(** The operations made on [res] and the entries logged, in order. *)
Record state := State { res : list res_op; logged : list str }.

Inductive result (A : Type) :=
| Ok (a : A)
| Throw (e : exn).
Arguments Throw {A}.

Definition M (A : Type) := state -> result A * state.

Definition ret {A} (a : A) : M A := fun st => (Ok a, st).
Definition throw {A} (e : exn) : M A := fun st => (Throw e, st).
Definition bind {A B} (m : M A) (k : A -> M B) : M B :=
  fun st => match m st with
            | (Ok a, st') => k a st'
            | (Throw e, st') => (Throw e, st')
            end.
Definition catch {A} (m : M A) (h : exn -> M A) : M A :=
  fun st => match m st with
            | (Ok a, st') => (Ok a, st')
            | (Throw e, st') => h e st'
            end.
Definition on_res (op : res_op) : M unit :=
  fun st => (Ok tt, State (res st ++ [op]) (logged st)).
Definition logger_error (message : str) : M unit :=
  fun st => (Ok tt, State (res st) (logged st ++ [message])).

Notation "x <- m ;; k" := (bind m (fun x => k))
  (at level 61, m at next level, right associativity).
Notation "m ;; k" := (bind m (fun _ => k))
  (at level 61, right associativity).

Definition of_option {A} (o : option A) (e : exn) : M A :=
  match o with
  | Some a => ret a
  | None => throw e
  end.

(** *** [getAnthropicApiKey] *)

Definition is_anthropic (c : credential) : bool :=
  Js.eqb (cred_type c) (js "anthropicApi").

Definition getAnthropicApiKey (svc : credential_services) (user : User)
  : M str :=
  let credentials := getMany svc user in
  anthropicCredential <-
    of_option (find is_anthropic credentials)
      (ResponseError (NotFoundError
         (js "No Anthropic credentials found. Please configure Anthropic credentials first."))) ;;
  credentialWithData <-
    of_option (findCredentialForUser svc (cred_id anthropicCredential) user)
      (ResponseError (ForbiddenError
         (js "You do not have permission to access the Anthropic credentials."))) ;;
  match decrypt_apiKey svc credentialWithData with
  | Some (JString apiKey) =>
      if truthy (Some (JString apiKey)) then ret apiKey
      else throw (ResponseError (BadRequestError
                    (js "Anthropic API key not found in credentials.")))
  | _ => throw (ResponseError (BadRequestError
                    (js "Anthropic API key not found in credentials.")))
  end.

(** *** The stream events of the wire protocol *)

Inductive StreamEvent :=
| EvText (content : str)
| EvComplete
| EvError (content : str).

(** The object literal each event is written from. *)
Definition event_json (e : StreamEvent) : json :=
  match e with
  | EvText c => JObject [(js "type", JString (js "text")); (js "content", JString c)]
  | EvComplete => JObject [(js "type", JString (js "complete"))]
  | EvError c => JObject [(js "type", JString (js "error")); (js "content", JString c)]
  end.

(** The line of a frame, and the frame as written. *)
Definition frame_line (e : StreamEvent) : str :=
  js "data: " ++ JSON_stringify (event_json e).
Definition frame (e : StreamEvent) : str := frame_line e ++ [10; 10].

(** *** [chatWithCopilot] *)

Record request := Request
  { body : jsval;                 (* req.body *)
    user : User;                  (* req.user *)
    origin : option str;          (* req.headers.origin *)
    has_flush : bool }.           (* res.flush is defined *)

Definition sse_headers (req : request) : list (str * str) :=
  [(js "Content-Type", js "text/event-stream");
   (js "Cache-Control", js "no-cache");
   (js "Connection", js "keep-alive");
   (js "Access-Control-Allow-Origin",
    match origin req with
    | Some (c :: o) => c :: o
    | _ => js "http://localhost:8080"
    end);
   (js "Access-Control-Allow-Credentials", js "true");
   (js "Access-Control-Allow-Headers", js "Cache-Control, Content-Type")].

(** [for await (const chunk of stream) { ... }] *)
Fixpoint relay (req : request) (evs : list stream_event) : M unit :=
  match evs with
  | [] => ret tt
  | ContentBlockDelta (TextDelta text) :: evs' =>
      on_res (Write (frame (EvText text))) ;;
      (if has_flush req then on_res Flush else ret tt) ;;
      relay req evs'
  | _ :: evs' => relay req evs'
  end.

(** [JSON.stringify(streamError)] inside a template literal. *)
Definition stringify_thrown (v : jsval) : str :=
  match v with
  | Some j => JSON_stringify j
  | None => js "undefined"
  end.

(** The message of the error event. *)
Definition stream_error_content (t : thrown) : str :=
  match t with
  | ThrownError message => message
  | ThrownOther v => js "Streaming failed: " ++ stringify_thrown v
  end.

Definition stream_error_logged (t : thrown) : str :=
  match t with
  | ThrownError message => message
  | ThrownOther v => js "Unknown streaming error: " ++ stringify_thrown v
  end.

(** The inner [try { ... } catch (streamError) { ... }]. *)
Definition streaming (req : request) (s : provider_stream) : M unit :=
  relay req (events s) ;;
  match outcome_of s with
  | Exhausted =>
      on_res (Write (frame EvComplete)) ;;
      on_res End
  | Fails streamError =>
      logger_error (js "Anthropic streaming error: "
                    ++ stream_error_logged streamError) ;;
      on_res (Write (frame (EvError (stream_error_content streamError)))) ;;
      on_res End
  end.

Definition chatWithCopilot (svc : credential_services) (anthropic : provider)
           (req : request) : M unit :=
  catch
    (validatedPayload <- of_option (CopilotChatRequestDto (body req)) ZodError ;;
     apiKey <- getAnthropicApiKey svc (user req) ;;
     let messages :=
       conversationHistory validatedPayload
       ++ [ChatMsg RUser (userMessage validatedPayload)] in
     on_res (WriteHead 200 (sse_headers req)) ;;
     streaming req (anthropic apiKey messages))
    (fun error =>
       logger_error (js "Copilot chat error") ;;
       match error with
       | ZodError => throw (ResponseError (BadRequestError (js "Invalid request payload")))
       | _ => throw error
       end).

Definition initial : state := State [] [].

End CopilotController.

Import ChatSidebar AiChatService CopilotController.

(* ================================================================== *)
(** * Further parts of the program *)

(** ** ChatSidebar.vue: [getCurrentWorkflowData] *)

Module WorkflowContext.

(** [const { tags, ...data } = workflowData]: the own properties of the
    workflow data but [tags], in their order. *)
Definition without_tags (workflowData : list (str * json))
  : list (str * json) :=
  filter (fun kv => negb (Js.eqb (fst kv) (js "tags"))) workflowData.

(** [{ ...props.meta, instanceId: rootStore.instanceId }]; [props.meta] is
    an object or undefined. *)
Definition meta_of (props_meta : jsval) (instanceId : json) : json :=
  JObject (obj_set (js "instanceId") instanceId
                   (match props_meta with
                    | Some (JObject m) => m
                    | _ => []
                    end)).

(** [{ ...data, meta: { ... } }] *)
Definition getCurrentWorkflowData (workflowData : list (str * json))
           (props_meta : jsval) (instanceId : json) : list (str * json) :=
  obj_set (js "meta") (meta_of props_meta instanceId)
          (without_tags workflowData).

End WorkflowContext.

(** ** ChatSidebar.vue: [handleSendMessage] *)

Module HandleSendMessage.

(** The messages of a new panel: the greeting. *)
Definition greeting : str :=
  js "Hello! I'm your AI assistant. How can I help you with your n8n workflow today?".

Definition initial_messages (id now : N) : list Message :=
  [Msg id greeting FromCopilot now].

(** [msg.sender !== 'n8n-copilot' || msg.text.trim() !== ''] *)
Definition not_empty_ai (msg : Message) : bool :=
  negb (match msg_sender msg with FromCopilot => true | FromUser => false end)
  || negb (Js.eqb (trim (msg_text msg)) []).

(** [l.slice(0, -1)] *)
Definition slice_0_neg1 (A : Type) (l : list A) : list A :=
  firstn (List.length l - 1) l.

(** [{ role: msg.sender === 'user' ? 'user' : 'assistant',
       content: msg.text }] *)
Definition api_message (msg : Message) : ChatMessage :=
  ChatMsg (match msg_sender msg with
           | FromUser => RUser
           | FromCopilot => RAssistant
           end)
          (msg_text msg).

(** [messages.value.filter(...).slice(0, -1).map(...)] *)
Definition conversationHistory (messages : list Message) : list ChatMessage :=
  map api_message (slice_0_neg1 (filter not_empty_ai messages)).

(** The template literal of [messageWithContext]; [workflowData] is the
    export data as [JSON.stringify] sees it. *)
Definition messageWithContext (workflowData : json) (text : str) : str :=
  js "Current n8n workflow:" ++ [10] ++ js "```json" ++ [10]
  ++ JSON_stringify_indent 2 workflowData ++ [10] ++ js "```" ++ [10; 10]
  ++ js "User question: " ++ text.

(** What [aiChatService.streamChatResponse] is called with, and the panel
    at that point. *)
Record outgoing := Outgoing
  { out_message : str;
    out_history : list ChatMessage;
    out_panel : panel }.

(** The function up to the call of the service. [aiResponseId] is the
    result of [uuidv4()], [now] that of [new Date()]. *)
Definition prepare (message : Message) (workflowData : json)
           (aiResponseId now : N) (p : panel) : outgoing :=
  let messages1 := messages p ++ [message] in
  let aiResponse := Msg aiResponseId [] FromCopilot now in
  let messages2 := messages1 ++ [aiResponse] in
  Outgoing (messageWithContext workflowData (msg_text message))
           (conversationHistory messages2)
           (Panel messages2 true (isGeneratingWorkflow p) []
                  (workflow p) (calls p)).

(** What one step of the service does to the panel: a callback runs, a
    warning or the release of the reader leaves the panel alone. The
    declared type of [onText] takes a string; content of another type is
    not modelled ([None]). *)
Definition callback (ops : canvas_ops) (aiResponseId : N) (e : event)
           (p : panel) : option panel :=
  match e with
  | OnText (Some (JString text)) => Some (onText aiResponseId text p)
  | OnText _ => None
  | OnError _ => Some (onError aiResponseId p)
  | OnComplete => Some (onComplete ops p)
  | ConsoleWarn _ | ReleaseLock => Some p
  end.

Fixpoint run (ops : canvas_ops) (aiResponseId : N) (trace : list event)
         (p : panel) : option panel :=
  match trace with
  | [] => Some p
  | e :: trace' =>
      match callback ops aiResponseId e p with
      | Some p' => run ops aiResponseId trace' p'
      | None => None
      end
  end.

(** The whole function; [f] is what [fetch] answers to the request. *)
Definition handleSendMessage (ops : canvas_ops) (message : Message)
           (workflowData : json) (aiResponseId now : N) (f : fetch_result)
           (p : panel) : option panel :=
  let o := prepare message workflowData aiResponseId now p in
  run ops aiResponseId (streamChatResponse true f) (out_panel o).

End HandleSendMessage.

(** ** aiChatService.ts: the request *)

Module ChatRequestBody.

(** A [ChatMessage] object, properties in the order the panel writes them. *)
Definition message_object (m : ChatMessage) : json :=
  JObject [(js "role", JString (match cm_role m with
                                | RUser => js "user"
                                | RAssistant => js "assistant"
                                end));
           (js "content", JString (cm_content m))].

(** The object handed to [JSON.stringify] for the body of the request:
    [{ userMessage, conversationHistory }]. *)
Definition request_object (userMessage : str)
           (conversationHistory : list ChatMessage) : json :=
  JObject [(js "userMessage", JString userMessage);
           (js "conversationHistory",
            JArray (map message_object conversationHistory))].

(** The body of the request. *)
Definition request_body (userMessage : str)
           (conversationHistory : list ChatMessage) : str :=
  JSON_stringify (request_object userMessage conversationHistory).

End ChatRequestBody.

(** ** ChatDiscussion.vue: [parseMessageContent] and the objects it works on *)

Module ParserStore.

(** A RegExp object with the global flag: its pattern, and the [lastIndex]
    that [exec] reads and writes. *)
Record RegExp := MkRegExp { re_source : pattern; re_lastIndex : nat }.

(** What a call of the parser could reach: the RegExp objects alive, by
    address, and the state of the component. *)
Record store := Store { regexps : list RegExp; comp : component }.

(** A regular expression literal creates a new object each time it is
    evaluated, with [lastIndex] 0. *)
Definition new_RegExp (p : pattern) (st : store) : nat * store :=
  (List.length (regexps st),
   Store (regexps st ++ [MkRegExp p 0]) (comp st)).

Fixpoint set_nth (A : Type) (n : nat) (x : A) (l : list A) : list A :=
  match l, n with
  | [], _ => []
  | _ :: l', O => x :: l'
  | y :: l', S n' => y :: set_nth n' x l'
  end.

(** [re.exec(text)] for the object at address [re]. *)
Definition exec_at (re : nat) (text : str) (st : store)
  : option rmatch * store :=
  match nth_error (regexps st) re with
  | Some o =>
      let (m, lastIndex) := exec (re_source o) text (re_lastIndex o) in
      (m, Store (set_nth re (MkRegExp (re_source o) lastIndex) (regexps st))
                (comp st))
  | None => (None, st)
  end.

(** [while ((m = re.exec(text)) !== null) { push m }] *)
Fixpoint exec_loop_at (fuel : nat) (re : nat) (text : str) (st : store)
  : option (list rmatch) * store :=
  match fuel with
  | O => (None, st)
  | S f =>
      match exec_at re text st with
      | (Some m, st') =>
          match exec_loop_at f re text st' with
          | (Some ms, st'') => (Some (m :: ms), st'')
          | (None, st'') => (None, st'')
          end
      | (None, st') => (Some [], st')
      end
  end.

(** The function as it runs in a store: the two literals are evaluated in
    the body, the loops drive the objects they gave. *)
Definition parseMessageContent_in (text : str) (st : store)
  : option (list ParsedMessagePart) * store :=
  let fuel := S (List.length text) in
  let (completedJsonRegex, st) := new_RegExp fenced_block st in
  match exec_loop_at fuel completedJsonRegex text st with
  | (None, st) => (None, st)
  | (Some cms, st) =>
      let completedBlocks := map completed_of cms in
      let (incompleteJsonRegex, st) := new_RegExp fence_start st in
      match exec_loop_at fuel incompleteJsonRegex text st with
      | (None, st) => (None, st)
      | (Some ims, st) =>
          let incompleteBlocks := incomplete_of text completedBlocks ims in
          let allBlocks := sort_blocks (completedBlocks ++ incompleteBlocks) in
          let (parts, lastIndex) := blocks_loop text allBlocks 0 in
          let parts :=
            if Nat.ltb lastIndex (List.length text)
            then let remainingText := trim (slice_from text lastIndex) in
                 match remainingText with
                 | [] => parts
                 | _ => parts ++ [Part PText remainingText]
                 end
            else parts in
          (match parts with
           | [] => Some [Part PText text]
           | _ => Some parts
           end, st)
      end
  end.

End ParserStore.

Import ParserStore.

(** ** The bytes of the stream: what is written, what is read *)

Module Utf8.

(** The bytes of U+FFFD. *)
Definition replacement : list N := [239; 191; 189].

(** The bytes of a code unit that is no surrogate. *)
Definition encode_unit (c : N) : list N :=
  if c <? 128 then [c]
  else if c <? 2048 then [192 + c / 64; 128 + c mod 64]
  else [224 + c / 4096; 128 + (c / 64) mod 64; 128 + c mod 64].

(** The bytes of the code point of a surrogate pair. *)
Definition encode_pair (c d : N) : list N :=
  let cp := 65536 + (c - 55296) * 1024 + (d - 56320) in
  [240 + cp / 262144; 128 + (cp / 4096) mod 64; 128 + (cp / 64) mod 64;
   128 + cp mod 64].

(** [res.write(string)]: the string goes out in UTF-8; a surrogate that
    has no partner goes out as U+FFFD. *)
Fixpoint encode (s : str) : list N :=
  match s with
  | [] => []
  | c :: s' =>
      if is_high_surrogate c
      then match s' with
           | d :: s'' =>
               if is_low_surrogate d then encode_pair c d ++ encode s''
               else replacement ++ encode s'
           | [] => replacement
           end
      else if is_low_surrogate c then replacement ++ encode s'
      else encode_unit c ++ encode s'
  end.

(** The UTF-8 decoder of the Encoding standard, between two bytes: the
    code point so far, the number of bytes still needed, and the bounds of
    the next byte. *)
Record pending := Pending { cp : N; needed : nat; lower : N; upper : N }.

Inductive lead_result :=
| Emit (c : N)
| Wait (p : pending)
| Invalid.

(** A byte when no sequence is open. *)
Definition lead (b : N) : lead_result :=
  if b <? 128 then Emit b
  else if (194 <=? b) && (b <=? 223) then Wait (Pending (b mod 32) 1 128 191)
  else if (224 <=? b) && (b <=? 239)
  then Wait (Pending (b mod 16) 2 (if b =? 224 then 160 else 128)
                     (if b =? 237 then 159 else 191))
  else if (240 <=? b) && (b <=? 244)
  then Wait (Pending (b mod 8) 3 (if b =? 240 then 144 else 128)
                     (if b =? 244 then 143 else 191))
  else Invalid.

(** The code points decoded, errors replaced by U+FFFD: a byte that does
    not continue the open sequence ends it with an error and is looked at
    again; so does the end of the input. *)
Fixpoint decode_from (st : option pending) (bs : list N) : list N :=
  match bs with
  | [] => match st with Some _ => [65533] | None => [] end
  | b :: bs' =>
      let fresh :=
        match lead b with
        | Emit c => c :: decode_from None bs'
        | Wait p => decode_from (Some p) bs'
        | Invalid => 65533 :: decode_from None bs'
        end in
      match st with
      | None => fresh
      | Some p =>
          if (lower p <=? b) && (b <=? upper p)
          then let c := cp p * 64 + b mod 64 in
               match needed p with
               | S (S n) => decode_from (Some (Pending c (S n) 128 191)) bs'
               | _ => c :: decode_from None bs'
               end
          else 65533 :: fresh
      end
  end.

(** The code units of a code point. *)
Definition units_of (c : N) : str :=
  if c <? 65536 then [c]
  else [55296 + (c - 65536) / 1024; 56320 + (c - 65536) mod 1024].

Definition decode_raw (bs : list N) : str :=
  flat_map units_of (decode_from None bs).

(** A byte order mark at the start is dropped. *)
Definition strip_bom (s : str) : str :=
  match s with
  | c :: s' => if c =? 65279 then s' else s
  | [] => []
  end.

(** [new TextDecoder().decode(value)]: no [stream] option, so each call
    decodes its bytes on their own. *)
Definition TextDecoder_decode (value : list N) : str :=
  strip_bom (decode_raw value).

(** A body by the bytes of its reads: the consumer sees each read decoded
    by itself. *)
Definition body_of_reads (reads : list (list N)) (e : ending)
  : AiChatService.body :=
  Body (map TextDecoder_decode reads) e.

End Utf8.

Import Utf8.
(* ================================================================== *)
(** * The vocabulary of the properties *)

(** ** The relay *)

(** The texts of the text deltas of a provider stream, in order. *)
Fixpoint text_deltas (evs : list stream_event) : list str :=
  match evs with
  | [] => []
  | ContentBlockDelta (TextDelta t) :: evs' => t :: text_deltas evs'
  | _ :: evs' => text_deltas evs'
  end.

(** The terminal event of a provider stream. *)
Definition terminal_event (o : outcome) : StreamEvent :=
  match o with
  | Exhausted => EvComplete
  | Fails t => EvError (stream_error_content t)
  end.

(** The data written to the response, in order. *)
Fixpoint writes (ops : list res_op) : list str :=
  match ops with
  | [] => []
  | Write d :: ops' => d :: writes ops'
  | _ :: ops' => writes ops'
  end.

Definition is_body_op (op : res_op) : bool :=
  match op with
  | Write _ | Flush => true
  | _ => false
  end.

(** ** Credential resolution and sample requests *)

Definition not_found_message : str :=
  js "No Anthropic credentials found. Please configure Anthropic credentials first.".

Definition sample_body : jsval :=
  Some (JObject [(js "userMessage", JString (js "add a webhook node"))]).

Definition sample_request : request :=
  Request sample_body (MkUser (js "u1")) None true.

Definition no_credentials : credential_services :=
  Services (fun _ => [Credential (js "c7") (js "openAiApi")])
           (fun _ _ => None) (fun _ => None).

Definition silent_provider : provider := fun _ _ => Stream [] Exhausted.

Definition one_credential : credential_services :=
  Services (fun _ => [Credential (js "c7") (js "openAiApi");
                      Credential (js "c9") (js "anthropicApi")])
           (fun id _ => Some (CredentialEntity id (js "encrypted")))
           (fun _ => Some (JString (js "sk-ant-key"))).

Definition sample_provider : provider :=
  fun _ _ => Stream [OtherEvent;
                     ContentBlockDelta (TextDelta (js "Sure"));
                     ContentBlockDelta OtherDelta;
                     ContentBlockDelta (TextDelta (js ", done."))]
                    (Fails (ThrownError (js "overloaded"))).

(** ** Validation *)

Definition role_name (r : role) : str :=
  match r with
  | RUser => js "user"
  | RAssistant => js "assistant"
  end.

(** A role/content pair, as the request body carries it. *)
Definition is_pair (j : json) (m : ChatMessage) : Prop :=
  exists o, j = JObject o
            /\ obj_get (js "role") o = Some (JString (role_name (cm_role m)))
            /\ obj_get (js "content") o = Some (JString (cm_content m)).

Definition history_body : list (str * json) :=
  [(js "userMessage", JString (js "and now?"));
   (js "conversationHistory",
    JArray [JObject [(js "role", JString (js "user"));
                     (js "content", JString (js "hi"))];
            JObject [(js "role", JString (js "assistant"));
                     (js "content", JString (js "hello"))]])].

Definition empty_message_body : list (str * json) :=
  [(js "userMessage", JString [])].

Definition empty_message_request : request :=
  Request (Some (JObject empty_message_body)) (MkUser (js "u1")) None true.

(** ** The parser on the two inputs of the specification *)

(** The text [intro ```json\n{"a":1}\n``` outro]. *)
Definition closed_block_input : str :=
  js "intro ```json" ++ [10] ++ js "{" ++ [34] ++ js "a" ++ [34] ++ js ":1}"
  ++ [10] ++ js "``` outro".

(** The text [{\n  "a": 1\n}]. *)
Definition pretty_a1 : str :=
  js "{" ++ [10] ++ js "  " ++ [34] ++ js "a" ++ [34] ++ js ": 1" ++ [10] ++ js "}".

(** The text [intro ```json\n{"a":1]. *)
Definition open_block_input : str :=
  js "intro ```json" ++ [10] ++ js "{" ++ [34] ++ js "a" ++ [34] ++ js ":1".

(** The text [{"a":1]. *)
Definition raw_a1 : str := js "{" ++ [34] ++ js "a" ++ [34] ++ js ":1".

(** ** The matcher *)

(** The characters a match must consume at least. *)
Fixpoint min_len (p : pattern) : nat :=
  match p with
  | [] => 0
  | AChar _ :: p' => S (min_len p')
  | _ :: p' => min_len p'
  end.

(** ** Workflow extraction *)

(** What [extractWorkflowJson] makes of the selected block's content. *)
Definition candidate_result (content : str) : option json :=
  match JSON_parse content with
  | Some parsed => if is_workflow parsed then Some parsed else None
  | None => None
  end.

(** The text [```json\n1\n``` then ```json\n{"nodes":[]}\n```]. *)
Definition two_blocks : str :=
  js "```json" ++ [10] ++ js "1" ++ [10] ++ js "``` then ```json" ++ [10]
  ++ js "{" ++ [34] ++ js "nodes" ++ [34] ++ js ":[]}" ++ [10] ++ js "```".

Definition nodes_block : str := js "{" ++ [34] ++ js "nodes" ++ [34] ++ js ":[]}".

(** An object with an array-valued "nodes" field. *)
Definition object_with_nodes_array (v : json) : Prop :=
  exists o a, v = JObject o /\ obj_get (js "nodes") o = Some (JArray a).

(** The calls that replace the workflow. *)
Definition replaces (c : call) : bool :=
  match c with
  | ResetWorkspace | InitializeWorkspace _ => true
  | _ => false
  end.

(** *** A sample response and panel *)


Definition panel_after (response : str) : panel :=
  Panel [Msg 1 (js "add a webhook node") FromUser 0;
         Msg 2 response FromCopilot 1]
        true true response
        (Some (JObject [(js "nodes", JArray [])])) [].

Definition working_canvas : canvas_ops := CanvasOps false (fun _ => false).

(** ** The client consumer *)

(** A well-formed frame, by the type of its payload. *)
Inductive frame_kind :=
| FText (content : jsval)
| FError (content : jsval)
| FComplete.

(** The frame a line carries: the line starts with the marker, the rest
    parses to an object, and its [type] is one of the three; the content of
    an error frame is one an Error can be made of. *)
Definition classify (line : str) : option frame_kind :=
  if startsWith line (js "data: ") then
    match JSON_parse (slice_from line 6) with
    | Some (JObject o) =>
        match obj_get (js "type") o with
        | Some (JString t) =>
            if Js.eqb t (js "text") then Some (FText (obj_get (js "content") o))
            else if Js.eqb t (js "error")
            then if new_Error_throws (obj_get (js "content") o) then None
                 else Some (FError (obj_get (js "content") o))
            else if Js.eqb t (js "complete") then Some FComplete
            else None
        | _ => None
        end
    | _ => None
    end
  else None.

Fixpoint frames_of_lines (lines : list str) : list frame_kind :=
  match lines with
  | [] => []
  | line :: rest =>
      match classify line with
      | Some f => f :: frames_of_lines rest
      | None => frames_of_lines rest
      end
  end.

(** The frames of a body, in arrival order: those of each chunk's lines. *)
Definition frames_of (chunks : list str) : list frame_kind :=
  flat_map (fun chunk => frames_of_lines (split 10 chunk)) chunks.

(** Dispatch as the specification words it: text frames go to [onText],
    the first error or complete frame goes to its callback and ends the
    reading. The flag tells whether reading was ended. *)
Fixpoint dispatch (has_onComplete : bool) (fs : list frame_kind)
  : list event * bool :=
  match fs with
  | [] => ([], false)
  | FText c :: fs' =>
      let (evs, stopped) := dispatch has_onComplete fs' in (OnText c :: evs, stopped)
  | FError c :: _ => ([OnError (ErrorOf c)], true)
  | FComplete :: _ => (if has_onComplete then [OnComplete] else [], true)
  end.

Definition is_callback (e : event) : bool :=
  match e with
  | OnText _ | OnError _ | OnComplete => true
  | _ => false
  end.

Definition is_final (e : event) : bool :=
  match e with
  | OnError _ | OnComplete => true
  | _ => false
  end.

(** The callbacks invoked, in order. *)
Definition callbacks (trace : list event) : list event := filter is_callback trace.

(** What the read loop adds when it ends without a terminal frame. *)
Definition stream_end (e : ending) : list event :=
  match e with
  | Done => []
  | ReadFails t => [OnError (caught t)]
  end.

(** ** The shape of quoted strings *)

(** What [quote_body] produces: escaped units and surrogate pairs. *)
Inductive escaped : str -> Prop :=
| escaped_nil : escaped []
| escaped_unit (c : N) (rest : str) :
    escaped rest -> escaped (quote_unit c ++ rest)
| escaped_pair (c d : N) (rest : str) :
    is_high_surrogate c = true -> is_low_surrogate d = true ->
    escaped rest -> escaped (c :: d :: rest).

(** The three shapes of an escaped unit. *)
Definition simple_escapes : list N := [98; 116; 110; 102; 114; 34; 92].

(** ** The lexer on pieces of a quoted string *)

(** Every quote is preceded by a backslash; [prev] is the character before
    the string. *)
Fixpoint quotes_escaped (prev : N) (s : str) : bool :=
  match s with
  | [] => true
  | x :: s' => (negb (x =? 34) || (prev =? 92)) && quotes_escaped x s'
  end.

(** The last character of [prev :: a]. *)
Fixpoint last_char (prev : N) (a : str) : N :=
  match a with
  | [] => prev
  | x :: a' => last_char x a'
  end.

(** The lexer is between tokens, or in a number or a literal. *)
Definition outside (st : lex_state) : Prop :=
  match st with
  | LStart | LNumber _ _ => True
  | LLiteral rest _ => ~ In 34 rest /\ ~ In 92 rest
  | _ => False
  end.

(** Inside a string: where the lexer stands, without what it has read. *)
Inductive smode :=
| MStr
| MEsc
| MUni (k : nat).               (* k hex digits are still to come *)

(** The mode after [s], or [None] when [s] closes the string. *)
Fixpoint open_after (m : smode) (s : str) : option smode :=
  match s with
  | [] => Some m
  | c :: s' =>
      match m with
      | MStr =>
          if c =? 34 then None
          else if c =? 92 then open_after MEsc s'
          else open_after MStr s'
      | MEsc => if c =? 117 then open_after (MUni 4) s' else open_after MStr s'
      | MUni (S (S k)) => open_after (MUni (S k)) s'
      | MUni _ => open_after MStr s'
      end
  end.

Definition mode_of (st : lex_state) : option smode :=
  match st with
  | LString _ => Some MStr
  | LEscape _ => Some MEsc
  | LUnicode _ k _ => if Nat.leb k 3 then Some (MUni (4 - k)) else None
  | _ => None
  end.

(** Running the lexer over a first part of the text. *)
Fixpoint lex_run (st : lex_state) (s : str) : option (lex_state * list token) :=
  match s with
  | [] => Some (st, [])
  | c :: s' =>
      match step st c with
      | Some (st', ts) =>
          match lex_run st' s' with
          | Some (st'', ts') => Some (st'', ts ++ ts')
          | None => None
          end
      | None => None
      end
  end.

(** ** A frame line cut in two *)

Definition marker : str := js "data: ".

(** The consumer skips the line: it does not start with the marker, or what
    follows the marker does not parse. *)
Definition skipped (line : str) : Prop :=
  startsWith line marker = false \/ JSON_parse (slice_from line 6) = None.

Definition skippedb (line : str) : bool :=
  negb (startsWith line marker)
  || match JSON_parse (slice_from line 6) with Some _ => false | None => true end.

(** The beginning of a text frame line, from the marker to the opening
    quote of the content, and of an error frame line. *)
Definition text_prefix : str :=
  marker ++ [123; 34] ++ js "type" ++ [34; 58; 34] ++ js "text"
  ++ [34; 44; 34] ++ js "content" ++ [34; 58; 34].

Definition error_prefix : str :=
  marker ++ [123; 34] ++ js "type" ++ [34; 58; 34] ++ js "error"
  ++ [34; 44; 34] ++ js "content" ++ [34; 58; 34].

(** The frames on the wire as the protocol words them, byte for byte: the
    marker, the object with its [type] and, for a text or an error, its
    [content] as a JSON string literal, and the blank line that ends the
    frame. *)
Definition wire_payload (e : StreamEvent) : str :=
  match e with
  | EvText c =>
      js "{" ++ [34] ++ js "type" ++ [34] ++ js ":" ++ [34] ++ js "text" ++ [34]
      ++ js "," ++ [34] ++ js "content" ++ [34] ++ js ":" ++ quote c ++ js "}"
  | EvComplete =>
      js "{" ++ [34] ++ js "type" ++ [34] ++ js ":" ++ [34] ++ js "complete"
      ++ [34] ++ js "}"
  | EvError c =>
      js "{" ++ [34] ++ js "type" ++ [34] ++ js ":" ++ [34] ++ js "error" ++ [34]
      ++ js "," ++ [34] ++ js "content" ++ [34] ++ js ":" ++ quote c ++ js "}"
  end.

Definition wire (e : StreamEvent) : str :=
  js "data: " ++ wire_payload e ++ [10; 10].

(** A code unit that a JSON string literal holds as it is. *)
Definition plain_unit (c : N) : bool :=
  (32 <=? c) && negb (c =? 34) && negb (c =? 92)
  && negb (is_high_surrogate c) && negb (is_low_surrogate c).

(** The event that ends the stream, with the message of the failure. *)
Definition last_event (o : outcome) : StreamEvent :=
  match o with
  | Exhausted => EvComplete
  | Fails (ThrownError message) => EvError message
  | Fails (ThrownOther None) => EvError (js "Streaming failed: undefined")
  | Fails (ThrownOther (Some v)) =>
      EvError (js "Streaming failed: " ++ JSON_stringify v)
  end.

Definition text_tokens : list token :=
  [TLBrace; TString (js "type"); TColon; TString (js "text"); TComma;
   TString (js "content"); TColon].

Definition error_tokens : list token :=
  [TLBrace; TString (js "type"); TColon; TString (js "error"); TComma;
   TString (js "content"); TColon].

(** *** A sample cut *)

(** ** The parser never runs out of fuel *)

Definition fuel_ok (X : presult (json * list token)) (n : nat) : Prop :=
  X <> POutOfFuel
  /\ forall v r, X = POk (v, r) -> (List.length r < n)%nat.

(* ================================================================== *)
(** * The vocabulary of the further properties *)

(** ** The server *)

Definition forbidden_message : str :=
  js "You do not have permission to access the Anthropic credentials.".

Definition no_key_message : str :=
  js "Anthropic API key not found in credentials.".

Definition invalid_payload : response_error :=
  BadRequestError (js "Invalid request payload").

(** A usable key: a non-empty string. *)
Definition usable_key (v : jsval) (k : str) : Prop :=
  v = Some (JString k) /\ k <> [].

(** A history the schema accepts, with the messages it stands for. *)
Definition history_value (v : jsval) (h : list ChatMessage) : Prop :=
  (v = None /\ h = [])
  \/ exists l, v = Some (JArray l) /\ Forall2 is_pair l h.

Definition denied_credential : credential_services :=
  Services (fun _ => [Credential (js "c9") (js "anthropicApi")])
           (fun _ _ => None)
           (fun _ => Some (JString (js "sk-ant-key"))).

Definition keyless_credential : credential_services :=
  Services (fun _ => [Credential (js "c9") (js "anthropicApi")])
           (fun id _ => Some (CredentialEntity id (js "encrypted")))
           (fun _ => Some (JString [])).

Definition no_body_request : request :=
  Request None (MkUser (js "u1")) None false.

(** ** The wire: frames written and frames read *)

(** How the consumer sees an event of the relay. *)
Definition kind_of (e : StreamEvent) : frame_kind :=
  match e with
  | EvText c => FText (Some (JString c))
  | EvComplete => FComplete
  | EvError c => FError (Some (JString c))
  end.

(** The callback an event of the relay ends in. *)
Definition callback_of (has_onComplete : bool) (e : StreamEvent) : list event :=
  match e with
  | EvText c => [OnText (Some (JString c))]
  | EvComplete => if has_onComplete then [OnComplete] else []
  | EvError c => [OnError (ErrorOf (Some (JString c)))]
  end.

(** The value of four hexadecimal digits, as the lexer accumulates it. *)
Definition decode4 (s : str) : option N :=
  match s with
  | [h1; h2; h3; h4] =>
      match hex_of h1, hex_of h2, hex_of h3, hex_of h4 with
      | Some d1, Some d2, Some d3, Some d4 =>
          Some ((((0 * 16 + d1) * 16 + d2) * 16 + d3) * 16 + d4)
      | _, _, _, _ => None
      end
  | _ => None
  end.

Definition escape_decodes (c : N) : bool :=
  match unicode_escape c with
  | _ :: _ :: digits =>
      match decode4 digits with
      | Some v => v =? c
      | None => false
      end
  | _ => false
  end.


(** The code units from [c] on, [n] of them. *)
Fixpoint units_from (n : nat) (c : N) : list N :=
  match n with
  | O => []
  | S n' => c :: units_from n' (N.succ c)
  end.

(** The writes of the sample exchange, grouped into three reads: the two
    text frames together, an empty read, and the error frame. *)
Definition sample_groups : list (list str) :=
  [[frame (EvText (js "Sure")); frame (EvText (js ", done."))];
   [];
   [frame (EvError (js "overloaded"))]].

(** ** The client consumer: the reader *)

(** The body whose reader the consumer obtains: the fetch resolved with an
    ok response that has a body. *)
Definition reader_of (f : fetch_result) : option AiChatService.body :=
  match f with
  | FetchResolves (Response true _ (Some b)) => Some b
  | _ => None
  end.

(** ** The panel while a response streams *)

(** The panel after [onText] was called with each of [texts], in order. *)
Definition stream_texts (aiResponseId : N) (texts : list str) (p : panel)
  : panel :=
  fold_left (fun q text => onText aiResponseId text q) texts p.

(** The notice that a workflow is being edited was shown during the calls. *)
Definition editing_notice (texts : list str) (p : panel) : bool :=
  negb (isGeneratingWorkflow p)
  && negb (Nat.eqb (List.length texts) 0)
  && includes (fullResponse p ++ List.concat texts) (js "```json").

Definition fresh_panel : panel :=
  Panel [Msg 1 (js "add a webhook node") FromUser 0; Msg 2 [] FromCopilot 1]
        true false [] None [].

Definition fenced_texts : list str :=
  [js "Here: ``"; js "`js"; js "on" ++ [10] ++ js "{}"; js " and more"].

(** ** A turn of the conversation *)

(** A panel with one earlier exchange and a blank answer left over. *)
Definition earlier_panel : panel :=
  Panel [Msg 1 (js "hi") FromUser 0;
         Msg 2 (js "  ") FromCopilot 1;
         Msg 3 (js "hello") FromCopilot 2]
        false false [] None [].

Definition next_message : Message := Msg 4 (js "and now?") FromUser 3.

(** ** The request on the wire *)

(** The text lexes to the tokens, leaving the lexer between tokens. *)
Definition lexes (a : str) (ts : list token) : Prop :=
  lex_run LStart a = Some (LStart, ts).

Definition message_tokens (m : ChatMessage) : list token :=
  [TLBrace; TString (js "role"); TColon; TString (role_name (cm_role m));
   TComma; TString (js "content"); TColon; TString (cm_content m); TRBrace].

(** The tokens of the elements of the history, with the commas between. *)
Fixpoint elements_tokens (h : list ChatMessage) : list token :=
  match h with
  | [] => []
  | [m] => message_tokens m
  | m :: h' => message_tokens m ++ TComma :: elements_tokens h'
  end.

Definition request_tokens (m : str) (h : list ChatMessage) : list token :=
  [TLBrace; TString (js "userMessage"); TColon; TString m; TComma;
   TString (js "conversationHistory"); TColon; TLBracket]
  ++ elements_tokens h ++ [TRBracket; TRBrace].

(** The request of the sample turn, as the server receives it. *)
Definition turn_request : request :=
  let o := HandleSendMessage.prepare next_message JNull 5 4 earlier_panel in
  Request (JSON_parse (ChatRequestBody.request_body
                         (HandleSendMessage.out_message o)
                         (HandleSendMessage.out_history o)))
          (MkUser (js "u1")) None true.

(** The text the placeholder ends with. *)
Definition answer_text (s : provider_stream) : str :=
  match outcome_of s with
  | Exhausted => List.concat (text_deltas (events s))
  | Fails _ => error_text
  end.

(** ** Completion *)

Definition success_notice : call := ToastMessage (js "Workflow Replaced").
Definition failure_notice : call :=
  ToastError (js "Failed to replace workflow from AI response").

(** The calls [onComplete] makes for the workflow [w] it extracted, by what
    the canvas operations do: [new] are the calls made. *)
Definition import_outcome (ops : canvas_ops) (w : json) (new : list call)
  : Prop :=
  if reset_throws ops
  then filter replaces new = [ResetWorkspace]
       /\ In failure_notice new /\ ~ In success_notice new
  else filter replaces new = [ResetWorkspace; InitializeWorkspace w]
       /\ if initialize_throws ops w
          then In failure_notice new /\ ~ In success_notice new
          else In success_notice new /\ ~ In failure_notice new.

Definition failing_canvas : canvas_ops := CanvasOps false (fun _ => true).

(** ** The response, operation by operation *)

(** What the relay does for one text delta: the frame is written, and
    flushed when the response can flush. *)
Definition delta_ops (req : request) (text : str) : list res_op :=
  Write (frame (EvText text)) :: (if has_flush req then [Flush] else []).

(** The entries the streaming leaves in the log. *)
Definition streaming_log (o : outcome) : list str :=
  match o with
  | Exhausted => []
  | Fails t => [js "Anthropic streaming error: " ++ stream_error_logged t]
  end.

(** ** The JSON blocks of the discussion *)

Definition sample_component : component :=
  Component [(js "m1-0", true)] false.

(** ** The parts of a message *)

(** The text part for [t], if [t] is not empty. *)
Definition text_part (t : str) : list ParsedMessagePart :=
  match t with
  | [] => []
  | _ => [Part PText t]
  end.

(** The JSON part for the content of a block: pretty-printed when it
    parses, as it is otherwise. *)
Definition json_part_of (content : str) : ParsedMessagePart :=
  match JSON_parse content with
  | Some parsed => Part PJson (JSON_stringify_indent 2 parsed)
  | None => Part PJson content
  end.

(** The numbers on which the exact decimals kept here and the doubles of
    the language agree, so that printing gives the digits back: at most 15
    significant digits, and a magnitude between 1e-290 and 1e305. *)
Definition plain_number (x : number) : bool :=
  (mant x <? 1000000000000000) && (-290 <=? expo x)%Z && (expo x <=? 290)%Z.

Fixpoint plain_numbers (v : json) : bool :=
  match v with
  | JNumber x => plain_number x
  | JArray l => forallb plain_numbers l
  | JObject o => forallb (fun kv => plain_numbers (snd kv)) o
  | _ => true
  end.

(** What a JSON part shows of the content of a block: the content as it is
    when it does not parse, its value pretty-printed with two spaces when it
    does (for values whose numbers are plain). *)
Definition shows (content body : str) : Prop :=
  match JSON_parse body with
  | None => content = body
  | Some parsed =>
      plain_numbers parsed = true -> content = JSON_stringify_indent 2 parsed
  end.

Definition fence : str := js "```json".

Definition closing : str := js "```".

(** A message with a closed block: [pre ```json\n body \n``` post]. *)
Definition closed_text (pre body post : str) : str :=
  pre ++ fence ++ 10 :: body ++ 10 :: closing ++ post.

(** A message whose block is still open: [pre ```json\n body]. *)
Definition open_text (pre body : str) : str :=
  pre ++ fence ++ 10 :: body.

(** The content does not start with white space. *)
Definition no_leading_space (body : str) : Prop :=
  match body with
  | [] => True
  | c :: _ => is_white_space c = false
  end.

(** What follows the opening fence in the two expressions. *)
Definition after_fence_closed : pattern :=
  [AStar CSpace; AChar 10; AOpen; ALazy CAny; AClose; AChar 10] ++ lits closing.
Definition after_fence_open : pattern := [AStar CSpace; AChar 10].

(** The text [```json\n{oops\n``` done]: a closed block whose content
    does not parse, at the start of the message. *)
Definition broken_block : str := closed_text [] (js "{oops") (js " done").

(** The text [Here: ```json\n{"a":1]: a block still being written. *)
Definition streaming_block : str := open_text (js "Here: ") raw_a1.

(** The text [Done: ```json\n{"nodes":[]}\n```]. *)
Definition workflow_block : str := closed_text (js "Done: ") nodes_block [].

(** ** Lines that are no frames, streams that are cut *)

(** Something is thrown while the payload of a line is handled: it does
    not parse, it parses to [null] (whose [type] cannot be read), or it is
    an error frame whose content no Error can be made of. *)
Definition thrown_in (payload : str) : bool :=
  match JSON_parse payload with
  | None => true
  | Some JNull => true
  | Some (JObject o) =>
      is_string (obj_get (js "type") o) (js "error")
      && new_Error_throws (obj_get (js "content") o)
  | Some _ => false
  end.

Definition malformed (line : str) : Prop :=
  startsWith line marker = true /\ thrown_in (slice_from line 6) = true.

(** The line [data: {"type":"error","content":{"toString":0}}]. *)
Definition poisoned_error : str :=
  js "data: {" ++ [34] ++ js "type" ++ [34; 58; 34] ++ js "error"
  ++ [34; 44; 34] ++ js "content" ++ [34; 58] ++ js "{" ++ [34]
  ++ js "toString" ++ [34] ++ js ":0}}".

(** The panel when a turn is over, by the text of the answer. *)
Definition turn_ends (p p' : panel) (message : Message) (aiResponseId now : N)
           (answer : str) : Prop :=
  messages p'
  = messages p ++ [message; Msg aiResponseId answer FromCopilot now]
  /\ workflow p' = workflow p.

Definition rejected_fetch : fetch_result := FetchResolves (Response false 403 None).

Definition cut_groups : list (list str) :=
  [[frame (EvText (js "Sure"))]; [frame (EvText (js ", do"))]].

(** A text part is clean: not empty, with no white space around it. *)
Definition clean_text (q : ParsedMessagePart) : Prop :=
  p_type q = PText -> p_content q <> [] /\ trim (p_content q) = p_content q.

(** ** The workflow context *)

(** The properties of [props.meta] that are spread. *)
Definition meta_fields (props_meta : jsval) : list (str * json) :=
  match props_meta with
  | Some (JObject m) => m
  | _ => []
  end.

(** A panel as it is created. *)
Definition new_panel (id now : N) : panel :=
  Panel (HandleSendMessage.initial_messages id now) false false [] None [].

Definition sample_workflow : list (str * json) :=
  [(js "name", JString (js "My workflow"));
   (js "tags", JArray [JString (js "private")]);
   (js "nodes", JArray [])].

(** ** Strings and their bytes *)

(** Every unit is a 16-bit value. *)
Definition code_units (s : str) : bool := forallb (fun c => c <? 65536) s.

(** A string of 16-bit units whose surrogates come in pairs. *)
Inductive well_formed : str -> Prop :=
| wf_nil : well_formed []
| wf_unit (c : N) (s : str) :
    c < 65536 -> is_high_surrogate c = false -> is_low_surrogate c = false ->
    well_formed s -> well_formed (c :: s)
| wf_pair (c d : N) (s : str) :
    is_high_surrogate c = true -> is_low_surrogate d = true ->
    well_formed s -> well_formed (c :: d :: s).

(** A byte that continues a sequence. *)
Definition continuation (b : N) : Prop := 128 <= b <= 191.

(** The decoder between two bytes: nothing open, or a sequence whose next
    byte is no ASCII byte. *)
Definition ok_state (st : option pending) : Prop :=
  match st with
  | None => True
  | Some p => 128 <= lower p
  end.

(** The text frame for [h\u00e9llo], cut inside the two bytes of the
    second letter. *)
Definition accent_head : list N := encode text_prefix ++ [104; 195].
Definition accent_tail : list N := [169; 108; 108; 111; 34; 125].
(* ================================================================== *)
(** * Properties *)

(** ** The relay *)

Section Relay.

Variable svc : credential_services.
Variable anthropic : provider.

Lemma writes_app (a b : list res_op) : writes (a ++ b) = writes a ++ writes b.
Proof.
  induction a as [|op a IH]; simpl; [reflexivity|].
  destruct op; simpl; rewrite IH; reflexivity.
Qed.

Lemma relay_ops (req : request) (evs : list stream_event) (st : state) :
  exists ops,
    relay req evs st = (Ok tt, State (res st ++ ops) (logged st))
    /\ writes ops = map frame (map EvText (text_deltas evs))
    /\ forallb is_body_op ops = true.
Proof.
  revert st; induction evs as [|ev evs IH]; intros st.
  - exists []. simpl. rewrite app_nil_r. destruct st; auto.
  - destruct ev as [[text|]|]; simpl; try apply IH.
    unfold bind, on_res; simpl.
    destruct (has_flush req); simpl.
    + destruct (IH (State ((res st ++ [Write (frame (EvText text))]) ++ [Flush])
                          (logged st))) as (ops & E & W & B).
      exists (Write (frame (EvText text)) :: Flush :: ops).
      simpl in *. rewrite E, W, B. repeat rewrite <- app_assoc. auto.
    + destruct (IH (State (res st ++ [Write (frame (EvText text))])
                          (logged st))) as (ops & E & W & B).
      exists (Write (frame (EvText text)) :: ops).
      simpl in *. rewrite E, W, B. repeat rewrite <- app_assoc. auto.
Qed.

Lemma getAnthropicApiKey_state (u : User) (st : state) :
  snd (getAnthropicApiKey svc u st) = st.
Proof.
  unfold getAnthropicApiKey, bind, of_option.
  destruct (find is_anthropic (getMany svc u)) as [c|]; simpl; [|reflexivity].
  destruct (findCredentialForUser svc (cred_id c) u) as [e|]; simpl; [|reflexivity].
  destruct (decrypt_apiKey svc e) as [[| | |k| |]|]; simpl; try reflexivity.
  destruct (negb (Js.eqb k [])); reflexivity.
Qed.

End Relay.

Lemma Js_eqb_eq (a b : str) : Js.eqb a b = true <-> a = b.
Proof.
  revert b; induction a as [|x a IH]; intros [|y b]; simpl; split;
    try congruence; try reflexivity.
  - intros H. apply andb_true_iff in H as [H1 H2].
    apply N.eqb_eq in H1. apply IH in H2. congruence.
  - intros H. injection H as -> ->. rewrite N.eqb_refl. simpl. now apply IH.
Qed.

Lemma Js_eqb_refl (a : str) : Js.eqb a a = true.
Proof. now apply Js_eqb_eq. Qed.

Lemma Js_eqb_neq (a b : str) : a <> b -> Js.eqb a b = false.
Proof.
  intros H. destruct (Js.eqb a b) eqn:E; [|reflexivity].
  apply Js_eqb_eq in E. contradiction.
Qed.

(** ** Credential resolution *)

Lemma find_anthropic_none (l : list credential) :
  Forall (fun c => cred_type c <> js "anthropicApi") l ->
  find is_anthropic l = None.
Proof.
  induction 1 as [|c l Hc _ IH]; simpl; [reflexivity|].
  unfold is_anthropic at 1. rewrite (Js_eqb_neq Hc). exact IH.
Qed.

(** C8 as stated fails. A user without Anthropic credential who sends a
    body that does not validate (here: an empty userMessage) gets the
    400-class validation error, not the not-found error: validation comes
    first. *)
Lemma no_credential_invalid_body_is_bad_request :
  Forall (fun c => cred_type c <> js "anthropicApi")
         (getMany no_credentials (user empty_message_request))
  /\ chatWithCopilot no_credentials silent_provider empty_message_request initial
     = (Throw (ResponseError (BadRequestError (js "Invalid request payload"))),
        State [] [js "Copilot chat error"])
  /\ httpStatusCode (BadRequestError (js "Invalid request payload")) = 400
  /\ forall message st,
       chatWithCopilot no_credentials silent_provider empty_message_request initial
       <> (Throw (ResponseError (NotFoundError message)), st).
Proof.
  split; [|split; [|split]].
  - repeat constructor. vm_compute. discriminate.
  - vm_compute. reflexivity.
  - reflexivity.
  - intros message st H. vm_compute in H. discriminate H.
Qed.

(** C8, amended. For a user whose credential list holds no credential of
    type anthropicApi: nothing is ever done on the response (no head, no
    write, no end), whatever the request; and when the body passes
    validation, the handler fails with the not-found error, a 404. *)
Theorem no_credential_not_found :
  forall (svc : credential_services) (anthropic : provider) (req : request),
    Forall (fun c => cred_type c <> js "anthropicApi") (getMany svc (user req)) ->
    res (snd (chatWithCopilot svc anthropic req initial)) = []
    /\ (forall payload,
           CopilotChatRequestDto (body req) = Some payload ->
           fst (chatWithCopilot svc anthropic req initial)
           = Throw (ResponseError (NotFoundError not_found_message))
           /\ httpStatusCode (NotFoundError not_found_message) = 404).
Proof.
  intros svc anthropic req Hnone.
  apply find_anthropic_none in Hnone.
  unfold chatWithCopilot, catch, bind, of_option, getAnthropicApiKey.
  destruct (CopilotChatRequestDto (body req)) as [p|]; simpl.
  - unfold bind, of_option. rewrite Hnone. simpl. split; [reflexivity|].
    intros payload _. split; reflexivity.
  - split; [reflexivity|]. intros payload E. discriminate E.
Qed.

Lemma no_credential_not_found_witness :
  res (snd (chatWithCopilot no_credentials silent_provider sample_request initial)) = []
  /\ fst (chatWithCopilot no_credentials silent_provider sample_request initial)
     = Throw (ResponseError (NotFoundError not_found_message)).
Proof.
  assert (H : Forall (fun c => cred_type c <> js "anthropicApi")
                     (getMany no_credentials (user sample_request))).
  { repeat constructor. vm_compute. discriminate. }
  destruct (no_credential_not_found no_credentials silent_provider
              sample_request H) as [H1 H2].
  split; [exact H1|].
  exact (proj1 (H2 (ChatRequest (js "add a webhook node") []) eq_refl)).
Defined.

(** ** Validation *)

Lemma parse_messages_pairs (l : list json) (h : list ChatMessage) :
  Forall2 is_pair l h -> parse_messages l = Some h.
Proof.
  induction 1 as [|j m l h (o & -> & Hr & Hc) _ IH]; simpl; [reflexivity|].
  rewrite Hr, Hc, IH. destruct m as [[|] c]; reflexivity.
Qed.

(** C9. A body whose userMessage is a non-empty string and whose
    conversationHistory is absent or a list of role/content pairs passes
    validation, with the history defaulting to the empty list; a body whose
    userMessage is the empty string fails validation, and the handler throws
    the 400-class BadRequestError without touching the response. *)
Theorem validation_accepts_and_rejects :
  forall (o : list (str * json)),
    (forall m h,
        obj_get (js "userMessage") o = Some (JString m) ->
        m <> [] ->
        (obj_get (js "conversationHistory") o = None /\ h = []
         \/ exists l, obj_get (js "conversationHistory") o = Some (JArray l)
                      /\ Forall2 is_pair l h) ->
        CopilotChatRequestDto (Some (JObject o)) = Some (ChatRequest m h))
    /\ (obj_get (js "userMessage") o = Some (JString []) ->
        CopilotChatRequestDto (Some (JObject o)) = None
        /\ forall svc anthropic req,
            body req = Some (JObject o) ->
            chatWithCopilot svc anthropic req initial
            = (Throw (ResponseError (BadRequestError (js "Invalid request payload"))),
               State [] [js "Copilot chat error"])
            /\ httpStatusCode (BadRequestError (js "Invalid request payload")) = 400).
Proof.
  intros o. split.
  - intros m h Hm Hne Hh. unfold CopilotChatRequestDto. rewrite Hm. simpl.
    assert (Eh : parse_history (obj_get (js "conversationHistory") o) = Some h).
    { destruct Hh as [[-> ->]|(l & -> & Hl)]; simpl; [reflexivity|].
      now apply parse_messages_pairs. }
    rewrite Eh. destruct m; [contradiction|reflexivity].
  - intros Hm.
    assert (E : CopilotChatRequestDto (Some (JObject o)) = None).
    { unfold CopilotChatRequestDto. rewrite Hm. simpl.
      destruct (parse_history _); reflexivity. }
    split; [exact E|]. intros svc anthropic req Hb.
    unfold chatWithCopilot, catch, bind, of_option. rewrite Hb, E.
    split; reflexivity.
Qed.

Lemma validation_accepts_and_rejects_witness :
  CopilotChatRequestDto (Some (JObject history_body))
  = Some (ChatRequest (js "and now?")
            [ChatMsg RUser (js "hi"); ChatMsg RAssistant (js "hello")])
  /\ CopilotChatRequestDto (Some (JObject empty_message_body)) = None.
Proof.
  split.
  - apply (proj1 (validation_accepts_and_rejects history_body)).
    + reflexivity.
    + discriminate.
    + right. eexists. split; [reflexivity|].
      repeat constructor; eexists; repeat split; reflexivity.
  - apply (proj2 (validation_accepts_and_rejects empty_message_body)).
    reflexivity.
Defined.

(** ** The parser on the two inputs of the specification *)

(** C5. On [intro ```json\n{"a":1}\n``` outro] the parser returns exactly
    three segments: the text "intro", the structured segment with the
    pretty-printed JSON, the text "outro". *)
Theorem parse_closed_block :
  parseMessageContent closed_block_input
  = Some [Part PText (js "intro"); Part PJson pretty_a1; Part PText (js "outro")].
Proof. vm_compute. reflexivity. Qed.

(** C6. On [intro ```json\n{"a":1] (no closing fence) the parser returns
    exactly two segments: the text "intro" and a structured segment holding
    the raw text [{"a":1], which does not parse as JSON. *)
Theorem parse_open_block :
  parseMessageContent open_block_input
  = Some [Part PText (js "intro"); Part PJson raw_a1]
  /\ JSON_parse raw_a1 = None
  /\ option_map parse_tokens (lex raw_a1) = Some PSyntaxError
  /\ exec_loop (S (List.length open_block_input)) completedJsonRegex
               open_block_input 0 = Some [].
Proof. vm_compute. repeat split; reflexivity. Qed.

(** ** The matcher *)

Section Matcher.

Ltac destruct_inner H E :=
  match type of H with
  | context [match ?X with Some _ => _ | None => _ end] => destruct X eqn:E
  end.

Lemma match_here_bounds (p : pattern) :
  forall s pos g e sp,
    match_here p s pos g = Some (e, sp) ->
    (pos + min_len p <= e /\ e <= pos + List.length s)%nat.
Proof.
  induction p as [|a p IH]; intros s pos g e sp H.
  - simpl in H. injection H as <- _. simpl. lia.
  - destruct a as [c|k|k| |]; simpl in H.
    + destruct s as [|x s]; [discriminate|].
      destruct (x =? c); [|discriminate].
      apply IH in H. simpl. lia.
    + revert pos H. induction s as [|x s IHs]; intros pos H.
      * apply IH in H. simpl in *. lia.
      * destruct (in_class k x).
        -- destruct_inner H E.
           ++ injection H as ->. apply IHs in E. simpl in *. lia.
           ++ apply IH in H. simpl in *. lia.
        -- apply IH in H. simpl in *. lia.
    + revert pos H. induction s as [|x s IHs]; intros pos H.
      * destruct_inner H E; [|discriminate].
        injection H as ->. apply IH in E. simpl in *. lia.
      * destruct_inner H E.
        -- injection H as ->. apply IH in E. simpl in *. lia.
        -- destruct (in_class k x); [|discriminate].
           apply IHs in H. simpl in *. lia.
    + apply IH in H. simpl. lia.
    + apply IH in H. simpl. lia.
Qed.

(** A pattern whose group closes reports a span for it. *)
Lemma match_here_group (p : pattern) :
  forall s pos g e sp,
    match_here p s pos g = Some (e, sp) ->
    In AClose p \/ g_span g <> None ->
    sp <> None.
Proof.
  induction p as [|a p IH]; intros s pos g e sp H Hg.
  - simpl in H. injection H as _ <-. destruct Hg as [[]|Hg]. exact Hg.
  - assert (Hg' : forall g', g_span g' = g_span g ->
                             a <> AClose -> In AClose p \/ g_span g' <> None).
    { intros g' Eg Ha. destruct Hg as [[Hg|Hg]|Hg]; [congruence|now left|].
      right. now rewrite Eg. }
    destruct a as [c|k|k| |]; simpl in H.
    + destruct s as [|x s]; [discriminate|].
      destruct (x =? c); [|discriminate].
      apply IH in H; [exact H|]. apply Hg'; [reflexivity|discriminate].
    + assert (Hp := Hg' g eq_refl ltac:(discriminate)).
      revert pos H. induction s as [|x s IHs]; intros pos H.
      * now apply IH in H.
      * destruct (in_class k x).
        -- destruct_inner H E.
           ++ injection H as ->. now apply IHs in E.
           ++ now apply IH in H.
        -- now apply IH in H.
    + assert (Hp := Hg' g eq_refl ltac:(discriminate)).
      revert pos H. induction s as [|x s IHs]; intros pos H.
      * destruct_inner H E; [|discriminate].
        injection H as ->. now apply IH in E.
      * destruct_inner H E.
        -- injection H as ->. now apply IH in E.
        -- destruct (in_class k x); [|discriminate]. now apply IHs in H.
    + apply IH in H; [exact H|].
      apply (Hg' (Groups pos (g_span g))); [reflexivity|discriminate].
    + apply IH in H; [exact H|]. right. simpl. discriminate.
Qed.

Lemma search_bounds (p : pattern) (text : str) :
  forall s pos m,
    search p text s pos = Some m ->
    (pos <= m_index m /\ m_index m + min_len p <= m_end m
     /\ m_end m <= pos + List.length s)%nat.
Proof.
  induction s as [|x s IH]; intros pos m H; simpl in H.
  - destruct (match_here p [] pos (Groups 0 None)) as [[e sp]|] eqn:E;
      [|discriminate].
    injection H as <-. apply match_here_bounds in E. simpl in *. lia.
  - destruct (match_here p (x :: s) pos (Groups 0 None)) as [[e sp]|] eqn:E.
    + injection H as <-. apply match_here_bounds in E. simpl in *. lia.
    + apply IH in H. simpl. lia.
Qed.

Lemma exec_bounds (p : pattern) (text : str) (lastIndex : nat) m li :
  exec p text lastIndex = (Some m, li) ->
  li = m_end m
  /\ (lastIndex <= m_index m /\ m_index m + min_len p <= m_end m
      /\ m_end m <= List.length text)%nat.
Proof.
  unfold exec. destruct (Nat.ltb_spec (List.length text) lastIndex) as [Hl|Hl];
    [discriminate|].
  destruct (search p text (skipn lastIndex text) lastIndex) as [m'|] eqn:E;
    [|discriminate].
  intros H. injection H as <- <-. split; [reflexivity|].
  apply search_bounds in E. rewrite length_skipn in E. lia.
Qed.

(** The loop over [exec] ends by a failed [exec] before the fuel is out,
    when every match consumes at least one character. *)
Lemma exec_loop_total (p : pattern) (text : str) :
  (1 <= min_len p)%nat ->
  forall fuel lastIndex,
    (List.length text - lastIndex < fuel)%nat ->
    exists ms, exec_loop fuel p text lastIndex = Some ms.
Proof.
  intros Hp. induction fuel as [|fuel IH]; intros lastIndex Hf; [lia|].
  simpl. destruct (exec p text lastIndex) as [[m|] li] eqn:E.
  - apply exec_bounds in E as (-> & H1 & H2 & H3).
    destruct (IH (m_end m)) as (ms & ->); [lia|]. eauto.
  - eauto.
Qed.

Lemma search_group (p : pattern) (text : str) :
  In AClose p ->
  forall s pos m, search p text s pos = Some m -> m_group1 m <> None.
Proof.
  intros Hp. induction s as [|x s IH]; intros pos m H; simpl in H.
  - destruct (match_here p [] pos (Groups 0 None)) as [[e sp]|] eqn:E;
      [|discriminate].
    injection H as <-. simpl. apply match_here_group in E; [|now left].
    destruct sp; [discriminate|contradiction].
  - destruct (match_here p (x :: s) pos (Groups 0 None)) as [[e sp]|] eqn:E.
    + injection H as <-. simpl. apply match_here_group in E; [|now left].
      destruct sp; [discriminate|contradiction].
    + now apply IH in H.
Qed.

(** The matches of [matchAll] come in strictly increasing positions. *)
Lemma scan_sorted (p : pattern) (text : str) :
  forall s pos lastIndex,
    Forall (fun m => (pos <= m_index m)%nat) (scan p text s pos lastIndex)
    /\ StronglySorted (fun a b => (m_index a < m_index b)%nat)
                      (scan p text s pos lastIndex).
Proof.
  induction s as [|x s IH]; intros pos lastIndex; simpl.
  - destruct (if Nat.ltb pos lastIndex then None
              else match_here p [] pos (Groups 0 None)) as [[e sp]|];
      repeat constructor.
  - destruct (if Nat.ltb pos lastIndex then None
              else match_here p (x :: s) pos (Groups 0 None)) as [[e sp]|].
    + destruct (IH (S pos) (if Nat.eqb e pos then S e else e)) as [F S].
      split.
      * constructor; [simpl; lia|].
        eapply Forall_impl; [|exact F]. simpl. intros; lia.
      * constructor; [exact S|].
        eapply Forall_impl; [|exact F]. simpl. intros; lia.
    + destruct (IH (S pos) lastIndex) as [F S]. split; [|exact S].
      eapply Forall_impl; [|exact F]. simpl. intros; lia.
Qed.

Lemma scan_group (p : pattern) (text : str) :
  In AClose p ->
  forall s pos lastIndex,
    Forall (fun m => m_group1 m <> None) (scan p text s pos lastIndex).
Proof.
  intros Hp. induction s as [|x s IH]; intros pos lastIndex; simpl.
  - destruct (Nat.ltb pos lastIndex); [constructor|].
    destruct (match_here p [] pos (Groups 0 None)) as [[e sp]|] eqn:E;
      repeat constructor.
    simpl. apply match_here_group in E; [|now left].
    destruct sp; [discriminate|contradiction].
  - destruct (Nat.ltb pos lastIndex); [apply IH|].
    destruct (match_here p (x :: s) pos (Groups 0 None)) as [[e sp]|] eqn:E;
      [|apply IH].
    constructor; [|apply IH].
    simpl. apply match_here_group in E; [|now left].
    destruct sp; [discriminate|contradiction].
Qed.

End Matcher.

Lemma sorted_last (A : Type) (R : A -> A -> Prop) (l : list A) (x : A) :
  StronglySorted R (l ++ [x]) -> Forall (fun y => R y x) l.
Proof.
  induction l as [|a l IH]; simpl; intros H; [constructor|].
  inversion H as [|? ? Hs Hf]; subst. constructor; [|now apply IH].
  rewrite Forall_forall in Hf. apply Hf, in_or_app. right. now left.
Qed.

Lemma lastMatch_snoc (l : list rmatch) (m : rmatch) :
  lastMatch (l ++ [m]) = Some m.
Proof.
  unfold lastMatch. rewrite length_app. simpl.
  replace (List.length l + 1 - 1)%nat with (List.length l) by lia.
  rewrite nth_error_app2 by lia. now rewrite Nat.sub_diag.
Qed.

(** ** The parser returns, and returns the same on the same text *)

Lemma parseMessageContent_total (s : str) :
  exists parts, parseMessageContent s = Some parts.
Proof.
  unfold parseMessageContent.
  destruct (@exec_loop_total completedJsonRegex s ltac:(simpl; lia)
              (S (List.length s)) 0 ltac:(lia)) as (cms & ->).
  destruct (@exec_loop_total incompleteJsonRegex s ltac:(simpl; lia)
              (S (List.length s)) 0 ltac:(lia)) as (ims & ->).
  destruct (blocks_loop s _ 0) as [parts lastIndex].
  match goal with
  | |- exists r, match ?q with [] => _ | _ :: _ => _ end = Some r =>
      destruct q; eauto
  end.
Qed.

Lemma map_fst_combine (A B : Type) (q : list A) (l : list B) :
  List.length l = List.length q -> map fst (combine q l) = q.
Proof.
  revert l. induction q as [|x q IH]; intros [|n l] Hl;
    simpl in *; try reflexivity; try discriminate.
  f_equal. apply IH. lia.
Qed.

Lemma nth_error_last (A : Type) (l : list A) (x : A) :
  nth_error (l ++ [x]) (List.length l) = Some x.
Proof. rewrite nth_error_app2, Nat.sub_diag by lia. reflexivity. Qed.

Lemma set_nth_last (A : Type) (l : list A) (x y : A) :
  set_nth (List.length l) y (l ++ [x]) = l ++ [y].
Proof. induction l as [|a l IH]; simpl; [reflexivity|]. now rewrite IH. Qed.

(** The loop on an object just created is the loop from [lastIndex] 0, and
    writes to that object only. *)
Lemma exec_loop_at_last (p : pattern) (text : str) (R : list RegExp)
      (c : component) :
  forall fuel li,
  exists li',
    exec_loop_at fuel (List.length R) text (Store (R ++ [MkRegExp p li]) c)
    = (exec_loop fuel p text li, Store (R ++ [MkRegExp p li']) c).
Proof.
  induction fuel as [|f IH]; intros li; cbn [exec_loop_at exec_loop].
  - now exists li.
  - unfold exec_at. cbn [regexps comp]. rewrite nth_error_last.
    cbn [re_source re_lastIndex].
    destruct (exec p text li) as [[m|] li1]; rewrite set_nth_last.
    + destruct (IH li1) as (li' & ->). exists li'.
      destruct (exec_loop f p text li1); reflexivity.
    + now exists li1.
Qed.

Lemma parseMessageContent_in_pure (s : str) (st : store) :
  exists created,
    parseMessageContent_in s st
    = (parseMessageContent s, Store (regexps st ++ created) (comp st)).
Proof.
  unfold parseMessageContent_in, parseMessageContent, new_RegExp,
    completedJsonRegex, incompleteJsonRegex.
  destruct st as [R c]. cbn [regexps comp].
  destruct (exec_loop_at_last fenced_block s R c (S (List.length s)) 0)
    as (l1 & ->).
  destruct (exec_loop (S (List.length s)) fenced_block s 0) as [cms|];
    [|now exists [MkRegExp fenced_block l1]].
  cbn [regexps comp].
  destruct (exec_loop_at_last fence_start s (R ++ [MkRegExp fenced_block l1]) c
              (S (List.length s)) 0) as (l2 & ->).
  exists [MkRegExp fenced_block l1; MkRegExp fence_start l2].
  rewrite <- app_assoc. cbn [app].
  destruct (exec_loop (S (List.length s)) fence_start s 0) as [ims|];
    [|reflexivity].
  destruct (blocks_loop s _ 0) as [parts lastIndex]. reflexivity.
Qed.

(** C7. On every text the parser returns a segment list, and the same list
    at every call, whatever the state it is called in: run in a store that
    holds the RegExp objects alive (each with its [lastIndex]) and the
    state of the component, a call creates its two RegExp objects, drives
    only those, and leaves every object that was there and the component as
    they were. So a second call, in the store the first one left or in any
    other, returns the same segments, which are those of the function of
    the text alone; and two renders of a message get the same segments
    whatever happened to the component in between. *)
Theorem parse_deterministic :
  forall (s : str) (st : store),
  exists (parts : list ParsedMessagePart) (st1 st2 : store),
    parseMessageContent_in s st = (Some parts, st1)
    /\ parseMessageContent_in s st1 = (Some parts, st2)
    /\ (forall st', fst (parseMessageContent_in s st') = Some parts)
    /\ comp st1 = comp st
    /\ (exists created, regexps st1 = regexps st ++ created)
    /\ parseMessageContent s = Some parts
    /\ forall (c1 c2 : component) (messageId : str),
        option_map (map fst) (render_message c1 messageId s) = Some parts
        /\ option_map (map fst) (render_message c2 messageId s) = Some parts.
Proof.
  intros s st. destruct (parseMessageContent_total s) as (parts & E).
  destruct (parseMessageContent_in_pure s st) as (cr1 & E1).
  destruct (parseMessageContent_in_pure s
              (Store (regexps st ++ cr1) (comp st))) as (cr2 & E2).
  rewrite E in E1, E2.
  exists parts, (Store (regexps st ++ cr1) (comp st)),
    (Store (regexps (Store (regexps st ++ cr1) (comp st)) ++ cr2)
           (comp (Store (regexps st ++ cr1) (comp st)))).
  split; [exact E1|]. split; [exact E2|].
  split.
  { intros st'. destruct (parseMessageContent_in_pure s st') as (cr & ->).
    exact E. }
  split; [reflexivity|]. split; [now exists cr1|]. split; [exact E|].
  assert (H : forall c id,
             option_map (map fst) (render_message c id s) = Some parts).
  { intros c id. unfold render_message. rewrite E. simpl. f_equal.
    apply map_fst_combine. now rewrite length_map, length_seq. }
  intros c1 c2 id. split; apply H.
Qed.

(** A RegExp object kept from one call to the next would carry its
    [lastIndex] over: [exec] on an object left in the middle of a text
    misses the match before it. *)
Example exec_at_reads_lastIndex :
  fst (exec_at 0 workflow_block
         (Store [MkRegExp fence_start 0] (Component [] false)))
  <> fst (exec_at 0 workflow_block
            (Store [MkRegExp fence_start 20] (Component [] false))).
Proof. vm_compute. discriminate. Qed.

(** ** Workflow extraction *)

(** C3. When the response holds more than one closed json block (match of
    the block regular expression), the string handed to [JSON.parse] is the
    content of the last match: it is not the first one, and every other
    match starts strictly before it. *)
Theorem last_block_selected :
  forall responseText : str,
    (1 < List.length (matchAll jsonBlockRegex responseText))%nat ->
    exists first rest last content,
      matchAll jsonBlockRegex responseText = first :: rest
      /\ In last rest
      /\ (m_index first < m_index last)%nat
      /\ (forall m, In m (matchAll jsonBlockRegex responseText) ->
                    m = last \/ (m_index m < m_index last)%nat)
      /\ m_group1 last = Some content
      /\ jsonString responseText = Some content
      /\ extractWorkflowJson responseText = candidate_result content.
Proof.
  intros responseText Hlen.
  destruct (scan_sorted jsonBlockRegex responseText responseText 0 0) as [_ Hs].
  assert (Hg := @scan_group jsonBlockRegex responseText
                  ltac:(simpl; tauto) responseText 0 0).
  unfold extractWorkflowJson, jsonString.
  fold (matchAll jsonBlockRegex responseText) in Hs, Hg.
  destruct (matchAll jsonBlockRegex responseText) as [|first rest] using rev_ind;
    [simpl in Hlen; lia|].
  rename first into last, rest into front.
  rewrite lastMatch_snoc.
  apply sorted_last in Hs. rewrite Forall_forall in Hs.
  rewrite Forall_forall in Hg.
  destruct (m_group1 last) as [content|] eqn:Eg;
    [|exfalso; apply (Hg last); [apply in_or_app; right; now left|exact Eg]].
  destruct front as [|first front]; [simpl in Hlen; lia|].
  exists first, (front ++ [last]), last, content. simpl.
  repeat split; try reflexivity.
  - apply in_or_app. right. now left.
  - apply Hs. now left.
  - intros m [<-|Hm].
    + right. apply Hs. now left.
    + apply in_app_or in Hm as [Hm|[<-|[]]]; [|now left].
      right. apply Hs. now right.
  - exact Eg.
Qed.

Lemma last_block_selected_witness :
  jsonString two_blocks = Some nodes_block
  /\ extractWorkflowJson two_blocks = Some (JObject [(js "nodes", JArray [])]).
Proof.
  destruct (@last_block_selected two_blocks ltac:(vm_compute; lia))
    as (first & rest & last & content & E & _ & _ & _ & Eg & Ej & Ee).
  split.
  - rewrite Ej. f_equal.
    vm_compute in E. injection E as <- <-.
    vm_compute in Ej. now injection Ej as <-.
  - vm_compute. reflexivity.
Defined.

Lemma is_workflow_spec (v : json) :
  is_workflow v = true <-> object_with_nodes_array v.
Proof.
  unfold is_workflow, object_with_nodes_array. split.
  - destruct v as [|b|n|s|l|o]; simpl; try discriminate.
    + destruct b; discriminate.
    + destruct (negb (mant n =? 0)); discriminate.
    + destruct (negb (Js.eqb s [])); discriminate.
    + destruct (obj_get (js "nodes") o) as [[|b|n|s|a|o']|] eqn:E; simpl;
        try discriminate.
      * destruct b; discriminate.
      * destruct (negb (mant n =? 0)); discriminate.
      * destruct (negb (Js.eqb s [])); discriminate.
      * eauto.
  - intros (o & a & -> & E). simpl. rewrite E. reflexivity.
Qed.

(** *** No structured segment in the parser's output, no closed block *)

Lemma search_none_scan (p : pattern) (text : str) :
  forall s pos lastIndex,
    search p text s pos = None -> scan p text s pos lastIndex = [].
Proof.
  induction s as [|x s IH]; intros pos lastIndex H; simpl in *.
  - destruct (match_here p [] pos (Groups 0 None)) as [[e sp]|];
      [discriminate|]. now destruct (Nat.ltb pos lastIndex).
  - destruct (match_here p (x :: s) pos (Groups 0 None)) as [[e sp]|];
      [discriminate|].
    destruct (Nat.ltb pos lastIndex); now apply IH.
Qed.


Lemma blocks_loop_json (text : str) (b : block) (rest : list block) (li : nat) :
  Exists (fun q => p_type q = PJson) (fst (blocks_loop text (b :: rest) li)).
Proof.
  simpl. destruct (blocks_loop text rest (b_end b)) as [parts li']. simpl.
  apply Exists_app. right. constructor.
  unfold json_part. destruct (JSON_parse _); reflexivity.
Qed.


(** The callback gets the result of [extractWorkflowJson]; the panel is
    touched only by the error line, and only when there is no result. *)
Lemma extractWorkflowJson_call_spec (responseText : str) (p : panel) :
  exists errs,
    extractWorkflowJson_call responseText p
    = (extractWorkflowJson responseText,
       Panel (messages p) (isResponding p) (isGeneratingWorkflow p)
             (fullResponse p) (workflow p) (calls p ++ errs))
    /\ (errs = []
        \/ (errs = [ConsoleError (js "Failed to parse JSON from AI response:")]
            /\ extractWorkflowJson responseText = None)).
Proof.
  unfold extractWorkflowJson_call, extractWorkflowJson.
  destruct (jsonString responseText) as [c|];
    [|exists []; rewrite app_nil_r; destruct p; auto].
  destruct (JSON_parse c) as [v|];
    [exists []; rewrite app_nil_r; destruct p; auto|].
  eexists. split; [reflexivity|]. right. auto.
Qed.



(** ** The client consumer *)

Section Consumer.

Variable has_onComplete : bool.

Lemma dispatch_app (a b : list frame_kind) :
  dispatch has_onComplete (a ++ b)
  = let (evs, stopped) := dispatch has_onComplete a in
    if stopped then (evs, true)
    else let (evs', stopped') := dispatch has_onComplete b in
         (evs ++ evs', stopped').
Proof.
  induction a as [|f a IH]; simpl.
  - destruct (dispatch has_onComplete b); reflexivity.
  - destruct f; try reflexivity.
    rewrite IH. destruct (dispatch has_onComplete a) as [evs [|]];
      [reflexivity|].
    destruct (dispatch has_onComplete b); reflexivity.
Qed.

Lemma process_line_classify (line : str) :
  let (evs, fl) := process_line has_onComplete line in
  match classify line with
  | None => callbacks evs = [] /\ fl = Continue
  | Some (FText c) => evs = [OnText c] /\ fl = Continue
  | Some (FError c) => evs = [OnError (ErrorOf c)] /\ fl = Return
  | Some FComplete =>
      evs = (if has_onComplete then [OnComplete] else []) /\ fl = Return
  end.
Proof.
  unfold process_line, classify.
  destruct (startsWith line (js "data: ")); [|now split].
  destruct (JSON_parse (slice_from line 6)) as [[|b|n|s|l|o]|];
    try (now split).
  cbn [get_prop].
  destruct (obj_get (js "type") o) as [[|b|n|t|l|o']|]; try (now split).
  cbn [is_string].
  destruct (Js.eqb t (js "text")); [now split|].
  destruct (Js.eqb t (js "error"));
    [destruct (new_Error_throws (obj_get (js "content") o)); now split|].
  destruct (Js.eqb t (js "complete")); now split.
Qed.

Lemma process_lines_dispatch (lines : list str) :
  let (evs, fl) := process_lines has_onComplete lines in
  let (cbs, stopped) := dispatch has_onComplete (frames_of_lines lines) in
  callbacks evs = cbs /\ (fl = Return <-> stopped = true).
Proof.
  induction lines as [|line rest IH]; simpl.
  - split; [reflexivity|]. split; discriminate.
  - pose proof (process_line_classify line) as H.
    destruct (process_line has_onComplete line) as [evs fl].
    destruct (classify line) as [[c|c|]|]; destruct H as [-> ->]
      || destruct H as [H ->].
    + destruct (process_lines has_onComplete rest) as [evs' fl'].
      simpl. destruct (dispatch has_onComplete (frames_of_lines rest)).
      destruct IH as [<- IH]. split; [reflexivity|exact IH].
    + simpl. split; [reflexivity|]. split; reflexivity.
    + simpl. split; [|split; reflexivity].
      destruct has_onComplete; reflexivity.
    + destruct (process_lines has_onComplete rest) as [evs' fl'].
      destruct (dispatch has_onComplete (frames_of_lines rest)).
      destruct IH as [<- IH]. split; [|exact IH].
      unfold callbacks in *. rewrite filter_app, H. reflexivity.
Qed.

Lemma read_loop_dispatch (cs : list str) (e : ending) :
  let (evs, ex) := read_loop has_onComplete cs e in
  let (cbs, stopped) := dispatch has_onComplete (frames_of cs) in
  callbacks evs = cbs
  /\ (if stopped then ex = ByReturn
      else ex = match e with Done => ByBreak | ReadFails t => ByThrow t end).
Proof.
  induction cs as [|chunk cs IH]; simpl.
  - destruct e; split; reflexivity.
  - pose proof (process_lines_dispatch (split 10 chunk)) as H.
    destruct (process_lines has_onComplete (split 10 chunk)) as [evs fl].
    unfold frames_of in *. simpl. rewrite dispatch_app.
    destruct (dispatch has_onComplete (frames_of_lines (split 10 chunk)))
      as [cbs stopped].
    destruct H as [<- H].
    destruct fl.
    + destruct stopped; [discriminate (proj2 H eq_refl)|].
      destruct (read_loop has_onComplete cs e) as [evs' ex].
      destruct (dispatch has_onComplete
                  (flat_map (fun c => frames_of_lines (split 10 c)) cs))
        as [cbs' stopped'].
      destruct IH as [<- IH]. split; [|exact IH].
      unfold callbacks. now rewrite filter_app.
    + destruct stopped; [|discriminate (proj1 H eq_refl)].
      split; reflexivity.
Qed.

Lemma dispatch_finals (fs : list frame_kind) :
  let (cbs, stopped) := dispatch has_onComplete fs in
  (List.length (filter is_final cbs) <= 1)%nat
  /\ (stopped = false -> filter is_final cbs = [])
  /\ filter is_callback cbs = cbs.
Proof.
  induction fs as [|f fs IH]; simpl.
  - repeat split; auto.
  - destruct f as [c|c|].
    + destruct (dispatch has_onComplete fs) as [cbs stopped]. simpl.
      destruct IH as (H1 & H2 & H3). rewrite H3. auto.
    + simpl. repeat split; auto. discriminate.
    + destruct has_onComplete; simpl; repeat split; auto; discriminate.
Qed.

Lemma filter_final_callbacks (l : list event) :
  filter is_final (callbacks l) = filter is_final l.
Proof.
  induction l as [|e l IH]; simpl; [reflexivity|].
  destruct e; simpl; rewrite ?IH; reflexivity.
Qed.

End Consumer.

Lemma callbacks_of_body (has : bool) (st : N) (cs : list str) (e : ending) :
  callbacks (streamChatResponse has
               (FetchResolves (Response true st (Some (Body cs e)))))
  = let (cbs, stopped) := dispatch has (frames_of cs) in
    if stopped then cbs else cbs ++ stream_end e.
Proof.
  unfold streamChatResponse. simpl.
  pose proof (read_loop_dispatch has cs e) as H.
  destruct (read_loop has cs e) as [evs ex].
  destruct (dispatch has (frames_of cs)) as [cbs stopped].
  destruct H as [<- H]. unfold callbacks.
  destruct stopped.
  - subst ex. rewrite filter_app. simpl. apply app_nil_r.
  - subst ex. destruct e; rewrite filter_app; simpl; reflexivity.
Qed.

(** The scenario of the specification: the relay's frames for text, text,
    complete, read in two chunks. *)
Example consumer_text_text_complete :
  streamChatResponse true
    (FetchResolves
       (Response true 200
          (Some (Body [frame (EvText (js "Hel")) ++ frame (EvText (js "lo"));
                       frame EvComplete ++ frame (EvText (js "late"))] Done))))
  = [OnText (Some (JString (js "Hel"))); OnText (Some (JString (js "lo")));
     OnComplete; ReleaseLock].
Proof. vm_compute. reflexivity. Qed.

Example consumer_error_stops :
  streamChatResponse true
    (FetchResolves
       (Response true 200
          (Some (Body [frame (EvError (js "overloaded"))
                       ++ frame (EvText (js "late")); frame EvComplete] Done))))
  = [OnError (ErrorOf (Some (JString (js "overloaded")))); ReleaseLock].
Proof. vm_compute. reflexivity. Qed.

(** ** The shape of quoted strings *)

Lemma quote_body_escaped (s : str) : escaped (quote_body s).
Proof.
  assert (H : forall n s, (List.length s <= n)%nat -> escaped (quote_body s)).
  { induction n as [|n IH]; intros [|c [|d s'']] Hl; simpl in Hl; try lia.
    - constructor.
    - constructor.
    - change (quote_body [c]) with (quote_unit c).
      rewrite <- (app_nil_r (quote_unit c)). repeat constructor.
    - change (quote_body (c :: d :: s''))
        with (if is_high_surrogate c && is_low_surrogate d
              then c :: d :: quote_body s''
              else quote_unit c ++ quote_body (d :: s'')).
      destruct (is_high_surrogate c && is_low_surrogate d) eqn:E.
      + apply andb_true_iff in E as [E1 E2].
        apply escaped_pair; auto. apply IH. simpl. lia.
      + apply escaped_unit. apply IH. simpl. lia. }
  exact (H (List.length s) s (le_n _)).
Qed.

Lemma quote_unit_shape (c : N) :
  (exists x, quote_unit c = [92; x] /\ In x simple_escapes)
  \/ quote_unit c = unicode_escape c
  \/ (quote_unit c = [c] /\ c <> 34 /\ c <> 92 /\ c <> 10 /\ (c <? 32) = false).
Proof.
  unfold quote_unit, simple_escapes.
  destruct (N.eqb_spec c 8); [left; eexists; split; [reflexivity|simpl; tauto]|].
  destruct (N.eqb_spec c 9); [left; eexists; split; [reflexivity|simpl; tauto]|].
  destruct (N.eqb_spec c 10); [left; eexists; split; [reflexivity|simpl; tauto]|].
  destruct (N.eqb_spec c 12); [left; eexists; split; [reflexivity|simpl; tauto]|].
  destruct (N.eqb_spec c 13); [left; eexists; split; [reflexivity|simpl; tauto]|].
  destruct (N.eqb_spec c 34); [left; eexists; split; [reflexivity|simpl; tauto]|].
  destruct (N.eqb_spec c 92); [left; eexists; split; [reflexivity|simpl; tauto]|].
  destruct (c <? 32) eqn:E; [right; left; reflexivity|].
  cbn [orb].
  destruct (is_high_surrogate c || is_low_surrogate c);
    [right; left; reflexivity|].
  right; right. simpl. auto.
Qed.

Lemma hex_digit_plain (d : N) :
  hex_digit d <> 10 /\ hex_digit d <> 34 /\ hex_digit d <> 92.
Proof.
  unfold hex_digit. destruct (N.ltb_spec d 10); lia.
Qed.

Lemma surrogate_plain (c : N) :
  is_high_surrogate c = true \/ is_low_surrogate c = true ->
  c <> 10 /\ c <> 34 /\ c <> 92 /\ (c <? 32) = false.
Proof.
  unfold is_high_surrogate, is_low_surrogate.
  intros [H|H]; apply andb_true_iff in H as [H _]; apply N.leb_le in H;
    repeat split; try lia; apply N.ltb_ge; lia.
Qed.

(** A quoted string holds no raw newline. *)
Lemma escaped_no_newline (e : str) : escaped e -> ~ In 10 e.
Proof.
  induction 1 as [|c rest _ IH|c d rest Hc Hd _ IH]; [intros []| |].
  - intros H. apply in_app_or in H as [H|H]; [|contradiction].
    destruct (quote_unit_shape c) as [(x & E & Hx)|[E|(E & _ & _ & Hn & _)]];
      rewrite E in H.
    + unfold simple_escapes in Hx. simpl in *. lia.
    + unfold unicode_escape in H. simpl in H.
      pose proof (hex_digit_plain ((c / 4096) mod 16)).
      pose proof (hex_digit_plain ((c / 256) mod 16)).
      pose proof (hex_digit_plain ((c / 16) mod 16)).
      pose proof (hex_digit_plain (c mod 16)). intuition lia.
    + simpl in H. intuition.
  - pose proof (@surrogate_plain c (or_introl Hc)).
    pose proof (@surrogate_plain d (or_intror Hd)).
    simpl. intuition.
Qed.

(** ** The lexer on pieces of a quoted string *)

Lemma quotes_escaped_app (prev : N) (a b : str) :
  quotes_escaped prev (a ++ b)
  = quotes_escaped prev a && quotes_escaped (last_char prev a) b.
Proof.
  revert prev; induction a as [|x a IH]; intros prev; simpl; [reflexivity|].
  now rewrite IH, andb_assoc.
Qed.

Lemma escaped_quotes_escaped (e : str) :
  escaped e -> forall prev, quotes_escaped prev e = true.
Proof.
  induction 1 as [|c rest _ IH|c d rest Hc Hd _ IH]; intros prev;
    [reflexivity| |].
  - rewrite quotes_escaped_app, IH, andb_true_r.
    destruct (quote_unit_shape c) as [(x & E & Hx)|[E|(E & Hq & _)]];
      rewrite E.
    + simpl. now rewrite orb_true_r.
    + unfold unicode_escape. simpl.
      destruct (hex_digit_plain ((c / 4096) mod 16)) as (_ & H1 & _).
      destruct (hex_digit_plain ((c / 256) mod 16)) as (_ & H2 & _).
      destruct (hex_digit_plain ((c / 16) mod 16)) as (_ & H3 & _).
      destruct (hex_digit_plain (c mod 16)) as (_ & H4 & _).
      apply N.eqb_neq in H1, H2, H3, H4. now rewrite H1, H2, H3, H4.
    + simpl. apply N.eqb_neq in Hq. now rewrite Hq.
  - destruct (@surrogate_plain c (or_introl Hc)) as (_ & H1 & _).
    destruct (@surrogate_plain d (or_intror Hd)) as (_ & H2 & _).
    apply N.eqb_neq in H1, H2. simpl. now rewrite H1, H2, IH.
Qed.

Lemma start_step_outside (c : N) st ts :
  c <> 34 -> start_step c = Some (st, ts) -> outside st.
Proof.
  intros Hc. unfold start_step.
  repeat match goal with
         | |- context [if ?b then _ else _] => destruct b eqn:?
         end;
    try (intros H; injection H as <- _; simpl; try tauto;
         try (split; intros K; simpl in K; lia)).
  - apply N.eqb_eq in Heqb6. contradiction.
  - destruct (digit_of c); [|discriminate].
    intros H; injection H as <- _. exact I.
Qed.

Lemma num_step_special (ph : num_phase) (a : num_acc) (c : N) :
  c = 34 \/ c = 92 -> num_step ph a c = None.
Proof.
  intros [-> | ->]; destruct ph; reflexivity.
Qed.

Lemma outside_step (st st' : lex_state) (c : N) ts :
  outside st -> c <> 34 -> step st c = Some (st', ts) -> outside st'.
Proof.
  intros Ho Hc. destruct st as [| | | |rest t|ph a]; simpl in Ho; try contradiction;
    cbn [step].
  - now apply start_step_outside.
  - destruct rest as [|x rest]; [discriminate|].
    destruct (c =? x); [|discriminate].
    destruct rest; intros H; injection H as <- _; simpl; [exact I|].
    simpl in Ho. tauto.
  - destruct (num_step ph a c) as [[ph' a']|].
    + intros H; injection H as <- _. exact I.
    + destruct (number_done ph); [|discriminate].
      destruct (start_step c) as [[st1 ts1]|] eqn:E; [|discriminate].
      intros H; injection H as <- _. now apply start_step_outside in E.
Qed.

Lemma outside_backslash (st : lex_state) :
  outside st -> step st 92 = None.
Proof.
  intros Ho. destruct st as [| | | |rest t|ph a]; simpl in Ho; try contradiction;
    cbn [step].
  - reflexivity.
  - destruct rest as [|x rest]; [reflexivity|].
    destruct (N.eqb_spec 92 x) as [<-|]; [|reflexivity].
    simpl in Ho. tauto.
  - rewrite num_step_special by auto. destruct (number_done ph); reflexivity.
Qed.

Lemma outside_closing (st : lex_state) :
  outside st -> lex_from st [34; 125] = None.
Proof.
  intros Ho. destruct st as [| | | |rest t|ph a]; simpl in Ho; try contradiction.
  - reflexivity.
  - cbn [lex_from step]. destruct rest as [|x rest]; [reflexivity|].
    destruct (N.eqb_spec 34 x) as [<-|]; [|reflexivity].
    simpl in Ho. tauto.
  - cbn [lex_from step]. rewrite num_step_special by auto.
    destruct (number_done ph); reflexivity.
Qed.

(** Outside a string, a text whose quotes are all escaped and that is
    followed by the closing quote and brace of a frame does not lex: the
    first backslash is an error, and without one the closing quote opens a
    string that never ends. *)
Lemma lex_outside_tail (t : str) :
  forall st prev,
    outside st -> prev <> 92 -> quotes_escaped prev t = true ->
    lex_from st (t ++ [34; 125]) = None.
Proof.
  induction t as [|x t IH]; intros st prev Ho Hp Hq.
  - now apply outside_closing.
  - simpl in Hq. apply andb_true_iff in Hq as [Hx Hq].
    assert (Hx' : x <> 34).
    { intros ->. simpl in Hx. apply N.eqb_eq in Hx. contradiction. }
    simpl. destruct (N.eq_dec x 92) as [->|Hb].
    + now rewrite outside_backslash.
    + destruct (step st x) as [[st' ts]|] eqn:E; [|reflexivity].
      rewrite (IH st' x); [reflexivity| |exact Hb|exact Hq].
      eapply outside_step; eauto.
Qed.

Lemma open_after_app (m : smode) (a b : str) :
  open_after m (a ++ b)
  = match open_after m a with
    | Some m' => open_after m' b
    | None => None
    end.
Proof.
  revert m; induction a as [|c a IH]; intros m; simpl; [reflexivity|].
  destruct m as [| |[|[|k]]]; rewrite ?IH; try reflexivity.
  - destruct (c =? 34); [reflexivity|]. destruct (c =? 92); reflexivity.
  - destruct (c =? 117); reflexivity.
Qed.

Lemma escaped_open (e : str) :
  escaped e -> open_after MStr e = Some MStr.
Proof.
  induction 1 as [|c rest _ IH|c d rest Hc Hd _ IH]; [reflexivity| |].
  - rewrite open_after_app.
    destruct (quote_unit_shape c) as [(x & E & Hx)|[E|(E & Hq & Hb & _)]];
      rewrite E.
    + unfold simple_escapes in Hx. simpl in Hx.
      assert (Hu : (x =? 117) = false) by (apply N.eqb_neq; lia).
      simpl. now rewrite Hu.
    + exact IH.
    + apply N.eqb_neq in Hq, Hb. simpl. now rewrite Hq, Hb.
  - destruct (@surrogate_plain c (or_introl Hc)) as (_ & H1 & H1' & _).
    destruct (@surrogate_plain d (or_intror Hd)) as (_ & H2 & H2' & _).
    apply N.eqb_neq in H1, H2, H1', H2'. simpl. now rewrite H1, H2, H1', H2'.
Qed.

(** A text that leaves the string open does not lex. *)
Lemma lex_open (s : str) :
  forall st m m',
    mode_of st = Some m -> open_after m s = Some m' -> lex_from st s = None.
Proof.
  induction s as [|c s IH]; intros st m m' Hm Ho.
  - destruct st; simpl in Hm; try discriminate; reflexivity.
  - destruct st as [|acc|acc|acc k v| |]; simpl in Hm; try discriminate.
    + injection Hm as <-. cbn [open_after] in Ho. cbn [lex_from step].
      destruct (c =? 34); [discriminate|].
      destruct (c =? 92).
      * now rewrite (IH (LEscape acc) MEsc m').
      * destruct (c <? 32); [reflexivity|].
        now rewrite (IH (LString (c :: acc)) MStr m').
    + injection Hm as <-. cbn [open_after] in Ho. cbn [lex_from step].
      repeat match goal with
             | |- context [if c =? ?n then _ else _] =>
                 destruct (N.eqb_spec c n);
                 [subst c; cbn in Ho;
                  first [ now rewrite (IH (LString (34 :: acc)) MStr m')
                        | now rewrite (IH (LString (92 :: acc)) MStr m')
                        | now rewrite (IH (LString (47 :: acc)) MStr m')
                        | now rewrite (IH (LString (8 :: acc)) MStr m')
                        | now rewrite (IH (LString (12 :: acc)) MStr m')
                        | now rewrite (IH (LString (10 :: acc)) MStr m')
                        | now rewrite (IH (LString (13 :: acc)) MStr m')
                        | now rewrite (IH (LString (9 :: acc)) MStr m')
                        | now rewrite (IH (LUnicode acc 0 0) (MUni 4) m') ]|]
             end.
      reflexivity.
    + cbn [lex_from step]. destruct (hex_of c) as [d|]; [|reflexivity].
      destruct k as [|[|[|[|k]]]]; simpl in Hm; try discriminate;
        injection Hm as <-; cbn [open_after] in Ho; cbn [Nat.eqb].
      * now rewrite (IH (LUnicode acc 1 (v * 16 + d)) (MUni 3) m').
      * now rewrite (IH (LUnicode acc 2 (v * 16 + d)) (MUni 2) m').
      * now rewrite (IH (LUnicode acc 3 (v * 16 + d)) (MUni 1) m').
      * now rewrite (IH (LString (v * 16 + d :: acc)) MStr m').
Qed.

(** A quoted string body followed by its closing quote lexes to one string
    token, if it lexes. *)
Lemma lex_string_body (e : str) :
  escaped e ->
  forall acc,
    lex_from (LString acc) (e ++ [34]) = None
    \/ exists x, lex_from (LString acc) (e ++ [34]) = Some [TString x].
Proof.
  induction 1 as [|c rest _ IH|c d rest Hc Hd _ IH]; intros acc.
  - right. eexists. reflexivity.
  - rewrite <- app_assoc.
    destruct (quote_unit_shape c) as [(x & E & Hx)|[E|(E & Hq & Hb & _ & Hl)]];
      rewrite E.
    + unfold simple_escapes in Hx. simpl in Hx.
      destruct Hx as [<-|[<-|[<-|[<-|[<-|[<-|[<-|[]]]]]]]];
        cbn [app lex_from step N.eqb Pos.eqb];
        match goal with
        | |- context [lex_from (LString ?a) (rest ++ [34])] =>
            destruct (IH a) as [->|(y & ->)]; [now left|right; eexists; reflexivity]
        end.
    + unfold unicode_escape. cbn [app lex_from step N.eqb Pos.eqb].
      repeat (match goal with
              | |- context [hex_of ?h] => destruct (hex_of h); [|now left]
              end; cbn [Nat.eqb step]).
      match goal with
      | |- context [lex_from (LString ?a) (rest ++ [34])] =>
          destruct (IH a) as [->|(y & ->)]; [now left|right; eexists; reflexivity]
      end.
    + apply N.eqb_neq in Hq, Hb. cbn [app lex_from step]. rewrite Hq, Hb, Hl.
      destruct (IH (c :: acc)) as [->|(y & ->)];
        [now left|right; eexists; reflexivity].
  - destruct (@surrogate_plain c (or_introl Hc)) as (_ & H1 & H1' & L1).
    destruct (@surrogate_plain d (or_intror Hd)) as (_ & H2 & H2' & L2).
    apply N.eqb_neq in H1, H2, H1', H2'.
    cbn [app lex_from step]. rewrite H1, H1', L1.
    cbn [step]. rewrite H2, H2', L2.
    destruct (IH (d :: c :: acc)) as [->|(y & ->)];
      [now left|right; eexists; reflexivity].
Qed.

Lemma lex_from_app (st : lex_state) (a b : str) :
  lex_from st (a ++ b)
  = match lex_run st a with
    | Some (st', ts) =>
        match lex_from st' b with
        | Some ts' => Some (ts ++ ts')
        | None => None
        end
    | None => None
    end.
Proof.
  revert st; induction a as [|c a IH]; intros st; simpl.
  - destruct (lex_from st b); reflexivity.
  - destruct (step st c) as [[st' ts]|]; [|reflexivity].
    rewrite IH. destruct (lex_run st' a) as [[st'' ts']|]; [|reflexivity].
    destruct (lex_from st'' b); [|reflexivity].
    now rewrite app_assoc.
Qed.

(** ** A frame line cut in two *)

Lemma skippedb_skipped (line : str) : skippedb line = true -> skipped line.
Proof.
  unfold skippedb, skipped. intros H. apply orb_true_iff in H as [H|H].
  - left. now apply negb_true_iff.
  - right. destruct (JSON_parse (slice_from line 6)); [discriminate|reflexivity].
Qed.

Lemma startsWith_spec (s p : str) :
  startsWith s p = true <-> exists r, s = p ++ r.
Proof.
  revert s; induction p as [|y p IH]; intros s.
  - split; [intros _; now exists s|intros _; now destruct s].
  - destruct s as [|x s]; [split; [discriminate|intros (r & H); discriminate]|].
    cbn [startsWith]. split.
    + intros H. apply andb_true_iff in H as [H1 H2].
      apply N.eqb_eq in H1. apply IH in H2 as (r & ->). subst. now exists r.
    + intros (r & H). injection H as -> ->.
      rewrite N.eqb_refl. apply IH. now exists r.
Qed.

Lemma split_firstn (A : Type) (l p1 p2 : list A) :
  l = p1 ++ p2 ->
  p1 = firstn (List.length p1) l /\ p2 = skipn (List.length p1) l.
Proof.
  intros ->. split.
  - induction p1 as [|x p1 IH]; simpl; [reflexivity|]. now f_equal.
  - induction p1 as [|x p1 IH]; simpl; [reflexivity|]. exact IH.
Qed.

Lemma firstn_length_app (A : Type) (a b : list A) :
  firstn (List.length a) (a ++ b) = a.
Proof. induction a as [|x a IH]; simpl; [reflexivity|]. now f_equal. Qed.

Lemma skipn_length_app (A : Type) (a b : list A) :
  skipn (List.length a) (a ++ b) = b.
Proof. induction a as [|x a IH]; simpl; [reflexivity|]. exact IH. Qed.

Lemma last_char_app (prev : N) (a b : str) :
  last_char prev (a ++ b) = last_char (last_char prev a) b.
Proof.
  revert prev; induction a as [|x a IH]; intros prev; simpl; auto.
Qed.

(** The end of a frame line, from somewhere in the quoted content on. When
    it starts with the marker, what follows the marker does not lex. *)
Lemma tail_piece (Q l p2 : str) :
  escaped Q ->
  Q ++ [34; 125] = l ++ p2 ->
  startsWith p2 marker = true ->
  JSON_parse (slice_from p2 6) = None.
Proof.
  intros HQ Hsplit Hstart.
  apply app_eq_app in Hsplit as (v & [[EQ ->]|[-> Hv]]).
  - (* the piece starts inside the content *)
    apply startsWith_spec in Hstart as (r & Hr).
    apply app_eq_app in Hr as (w & [[-> ->]|[Hm Hw]]).
    + assert (Hq := escaped_quotes_escaped HQ 0).
      rewrite EQ, app_assoc, quotes_escaped_app in Hq.
      apply andb_true_iff in Hq as [_ Hq].
      rewrite last_char_app in Hq. simpl in Hq.
      unfold slice_from, JSON_parse, lex.
      rewrite <- app_assoc.
      change (skipn 6 (marker ++ w ++ [34; 125])) with (w ++ [34; 125]).
      now rewrite (@lex_outside_tail w LStart 32 I ltac:(discriminate) Hq).
    + destruct w as [|a w].
      * rewrite app_nil_r in Hm. subst v. reflexivity.
      * exfalso. injection Hw as <- _.
        assert (Hin : In 34 marker) by (rewrite Hm; apply in_or_app; right; now left).
        vm_compute in Hin. intuition discriminate.
  - (* the piece starts after the content *)
    destruct v as [|a [|b [|c v]]]; simpl in Hv; try discriminate;
      try (injection Hv; intros); subst; discriminate Hstart.
Qed.

Section Pieces.

(** The fixed beginning of a frame line, up to the opening quote of the
    content, and the tokens of its JSON part. *)
Variable P : str.
Variable toks : list token.

Hypothesis P_prefixes :
  forallb (fun k => skippedb (firstn k P)) (seq 0 (S (List.length P))) = true.
Hypothesis P_suffixes :
  forallb (fun k => negb (startsWith (skipn k P) [100]))
          (seq 1 (List.length P - 1)) = true.
Hypothesis P_lexes : lex_run LStart (skipn 6 P) = Some (LString [], toks).
Hypothesis P_marker : startsWith P marker = true.
Hypothesis P_open :
  forall x, parse_tokens (toks ++ [TString x]) = PSyntaxError.

Lemma first_piece (Q p1 p2 : str) :
  escaped Q ->
  P ++ Q ++ [34; 125] = p1 ++ p2 -> p2 <> [] -> skipped p1.
Proof.
  intros HQ Hsplit Hp2.
  apply app_eq_app in Hsplit as (l & [[EP ->]|[-> Hl]]).
  - (* the cut is inside the prefix *)
    apply skippedb_skipped.
    rewrite forallb_forall in P_prefixes.
    rewrite <- (firstn_length_app p1 l), <- EP.
    apply P_prefixes. apply in_seq. rewrite EP, length_app. lia.
  - (* the cut is after the prefix *)
    right. apply startsWith_spec in P_marker as (Hd & EP).
    assert (Hs : slice_from (P ++ l) 6 = skipn 6 P ++ l).
    { unfold slice_from. rewrite EP, <- app_assoc. reflexivity. }
    rewrite Hs. unfold JSON_parse, lex. rewrite lex_from_app, P_lexes.
    apply app_eq_app in Hl as (v & [[EQ ->]|[-> Hv]]).
    + assert (Ho := escaped_open HQ). rewrite EQ, open_after_app in Ho.
      destruct (open_after MStr l) as [m|] eqn:El; [|discriminate].
      now rewrite (@lex_open l (LString []) MStr m).
    + destruct v as [|a [|b [|c v]]]; simpl in Hv; try discriminate.
      * rewrite app_nil_r.
        rewrite (@lex_open Q (LString []) MStr MStr); auto.
        now apply escaped_open.
      * injection Hv as <- <-.
        destruct (lex_string_body HQ []) as [->|(x & ->)]; [reflexivity|].
        now rewrite P_open.
      * injection Hv; intros; subst. contradiction.
Qed.

Lemma second_piece (Q p1 p2 : str) :
  escaped Q ->
  P ++ Q ++ [34; 125] = p1 ++ p2 -> p1 <> [] -> skipped p2.
Proof.
  intros HQ Hsplit Hp1.
  destruct (startsWith p2 marker) eqn:Hstart; [right|now left].
  apply app_eq_app in Hsplit as (l & [[EP ->]|[-> Hl]]).
  - destruct l as [|a l].
    + now apply (@tail_piece Q [] (Q ++ [34; 125])).
    + exfalso. rewrite forallb_forall in P_suffixes.
      assert (Hk : In (List.length p1) (seq 1 (List.length P - 1))).
      { apply in_seq. rewrite EP, length_app. simpl.
        destruct p1; [contradiction|simpl; lia]. }
      apply P_suffixes in Hk. apply negb_true_iff in Hk.
      rewrite EP, skipn_length_app in Hk.
      apply startsWith_spec in Hstart as (r & Hr).
      simpl in Hr. injection Hr as -> _.
      cbn [startsWith] in Hk. destruct l; discriminate Hk.
  - exact (@tail_piece Q l p2 HQ Hl Hstart).
Qed.

End Pieces.

Lemma frame_line_text (c : str) :
  frame_line (EvText c) = text_prefix ++ quote_body c ++ [34; 125].
Proof.
  unfold frame_line, JSON_stringify, event_json, text_prefix, marker.
  cbn. now rewrite <- app_assoc.
Qed.

Lemma frame_line_error (c : str) :
  frame_line (EvError c) = error_prefix ++ quote_body c ++ [34; 125].
Proof.
  unfold frame_line, JSON_stringify, event_json, error_prefix, marker.
  cbn. now rewrite <- app_assoc.
Qed.

Lemma frame_pieces_skipped (e : StreamEvent) (p1 p2 : str) :
  frame_line e = p1 ++ p2 -> p1 <> [] -> p2 <> [] ->
  skipped p1 /\ skipped p2.
Proof.
  intros Hsplit H1 H2. destruct e as [c| |c].
  - rewrite frame_line_text in Hsplit. split.
    + apply (@first_piece text_prefix text_tokens) with (Q := quote_body c) (p2 := p2);
        auto using quote_body_escaped.
    + apply (@second_piece text_prefix) with (Q := quote_body c) (p1 := p1);
        auto using quote_body_escaped.
  - apply split_firstn in Hsplit as [E1 E2].
    assert (Hk : In (List.length p1) (seq 1 (List.length (frame_line EvComplete) - 1))).
    { apply in_seq.
      assert (L : List.length (frame_line EvComplete)
                  = (List.length p1 + List.length p2)%nat).
      { rewrite <- length_app. f_equal.
        rewrite E1 at 1. rewrite E2 at 1. now rewrite firstn_skipn. }
      destruct p1; [contradiction|]. destruct p2; [contradiction|].
      simpl in *. lia. }
    assert (C : forallb (fun k => skippedb (firstn k (frame_line EvComplete))
                                  && skippedb (skipn k (frame_line EvComplete)))
                        (seq 1 (List.length (frame_line EvComplete) - 1)) = true)
      by (vm_compute; reflexivity).
    rewrite forallb_forall in C. apply C in Hk.
    apply andb_true_iff in Hk as [K1 K2].
    rewrite <- E1 in K1. rewrite <- E2 in K2.
    split; now apply skippedb_skipped.
  - rewrite frame_line_error in Hsplit. split.
    + apply (@first_piece error_prefix error_tokens) with (Q := quote_body c) (p2 := p2);
        auto using quote_body_escaped.
    + apply (@second_piece error_prefix) with (Q := quote_body c) (p1 := p1);
        auto using quote_body_escaped.
Qed.

Lemma frame_line_no_newline (e : StreamEvent) : ~ In 10 (frame_line e).
Proof.
  destruct e as [c| |c].
  - rewrite frame_line_text. intros H.
    apply in_app_or in H as [H|H];
      [vm_compute in H; intuition discriminate|].
    apply in_app_or in H as [H|H];
      [|vm_compute in H; intuition discriminate].
    exact (escaped_no_newline (quote_body_escaped c) H).
  - vm_compute. intuition discriminate.
  - rewrite frame_line_error. intros H.
    apply in_app_or in H as [H|H];
      [vm_compute in H; intuition discriminate|].
    apply in_app_or in H as [H|H];
      [|vm_compute in H; intuition discriminate].
    exact (escaped_no_newline (quote_body_escaped c) H).
Qed.

(** *** Lines of a chunk *)

Lemma split_nonempty (sep : N) (s : str) : split sep s <> [].
Proof.
  destruct s as [|c s]; simpl; [discriminate|].
  destruct (c =? sep); [discriminate|].
  destruct (split sep s); discriminate.
Qed.

Lemma split_app_sep (sep : N) (x y : str) :
  split sep (x ++ sep :: y) = split sep x ++ split sep y.
Proof.
  induction x as [|c x IH]; simpl.
  - now rewrite N.eqb_refl.
  - destruct (c =? sep); [now rewrite IH|].
    rewrite IH. pose proof (split_nonempty sep x) as Hn.
    destruct (split sep x); [contradiction|reflexivity].
Qed.

Lemma split_no_sep (sep : N) (l : str) : ~ In sep l -> split sep l = [l].
Proof.
  induction l as [|c l IH]; simpl; intros H; [reflexivity|].
  destruct (N.eqb_spec c sep) as [->|_]; [tauto|].
  rewrite IH by tauto. reflexivity.
Qed.

Lemma frames_of_lines_app (a b : list str) :
  frames_of_lines (a ++ b) = frames_of_lines a ++ frames_of_lines b.
Proof.
  induction a as [|l a IH]; simpl; [reflexivity|].
  destruct (classify l); rewrite IH; reflexivity.
Qed.

Lemma skipped_classify (line : str) : skipped line -> classify line = None.
Proof.
  unfold skipped, classify, marker. intros [-> | H]; [reflexivity|].
  rewrite H. destruct (startsWith line (js "data: ")); reflexivity.
Qed.

(** The frames of two chunks that hold a cut line between them are those of
    what precedes and what follows the line. *)
Lemma frames_of_cut (a b p1 p2 : str) :
  a = [] \/ (exists a', a = a' ++ [10]) ->
  ~ In 10 p1 -> ~ In 10 p2 -> skipped p1 -> skipped p2 ->
  frames_of [a ++ p1; p2 ++ 10 :: b] = frames_of [a; b].
Proof.
  intros Ha N1 N2 S1 S2. unfold frames_of. simpl. rewrite !app_nil_r.
  apply skipped_classify in S1, S2. f_equal.
  - destruct Ha as [->|(a' & ->)].
    + simpl. rewrite (@split_no_sep 10 p1 N1). simpl. now rewrite S1.
    + rewrite <- app_assoc. simpl.
      rewrite split_app_sep, (split_app_sep 10 a' []), !frames_of_lines_app.
      rewrite (@split_no_sep 10 p1 N1). simpl. now rewrite S1.
  - rewrite split_app_sep, frames_of_lines_app, (@split_no_sep 10 p2 N2).
    simpl. now rewrite S2.
Qed.

Lemma frames_of_app (a b : list str) :
  frames_of (a ++ b) = frames_of a ++ frames_of b.
Proof. unfold frames_of. apply flat_map_app. Qed.

(** ** The parser never runs out of fuel *)

Section ParserFuel.

Ltac close_case IHe IHm :=
  cbn [parse_value parse_elements parse_members];
  first
    [ unfold fuel_ok; split; [discriminate
             |intros ? ? H;
              first [discriminate H
                    |injection H as _ <-; simpl in *; lia]]
    | let Hn := fresh "Hn" in
      let Hl := fresh "Hl" in
      match goal with
      | |- fuel_ok (parse_elements _ ?l ?a) _ =>
          destruct (IHe l a ltac:(simpl in *; lia)) as [Hn Hl];
          split; [exact Hn|intros ? ? H; apply Hl in H; simpl in *; lia]
      | |- fuel_ok (parse_members _ ?l ?a) _ =>
          destruct (IHm l a ltac:(simpl in *; lia)) as [Hn Hl];
          split; [exact Hn|intros ? ? H; apply Hl in H; simpl in *; lia]
      end ].

Lemma parse_fuel_enough (fuel : nat) :
  (forall ts, (2 * List.length ts + 1 <= fuel)%nat ->
              fuel_ok (parse_value fuel ts) (List.length ts))
  /\ (forall ts acc, (2 * List.length ts + 2 <= fuel)%nat ->
                     fuel_ok (parse_elements fuel ts acc) (List.length ts))
  /\ (forall ts acc, (2 * List.length ts + 2 <= fuel)%nat ->
                     fuel_ok (parse_members fuel ts acc) (List.length ts)).
Proof.
  induction fuel as [|f (IHv & IHe & IHm)].
  - repeat split; intros; simpl in *; lia.
  - split; [|split].
    + intros ts Hf. destruct ts as [|t ts]; [close_case IHe IHm|].
      destruct t; cbn [parse_value]; try close_case IHe IHm;
        (destruct ts as [|t' ts']; [|destruct t']); close_case IHe IHm.
    + intros ts acc Hf. cbn [parse_elements].
      destruct (IHv ts ltac:(lia)) as [A B].
      destruct (parse_value f ts) as [[v r]| |] eqn:E;
        [pose proof (B v r eq_refl) as Hr|close_case IHe IHm|contradiction].
      destruct r as [|t r]; [|destruct t]; close_case IHe IHm.
    + intros ts acc Hf. cbn [parse_members].
      destruct ts as [|t ts]; [close_case IHe IHm|].
      destruct t; try close_case IHe IHm.
      destruct ts as [|t' ts']; [close_case IHe IHm|].
      destruct t'; try close_case IHe IHm.
      destruct (IHv ts' ltac:(simpl in *; lia)) as [A B].
      destruct (parse_value f ts') as [[v r]| |] eqn:E;
        [pose proof (B v r eq_refl) as Hr|close_case IHe IHm|contradiction].
      destruct r as [|t r]; [|destruct t]; close_case IHe IHm.
Qed.

(** [None] from [JSON_parse] is a syntax error, never the fuel. *)
Lemma parse_tokens_fuel (ts : list token) : parse_tokens ts <> POutOfFuel.
Proof.
  unfold parse_tokens.
  destruct (proj1 (parse_fuel_enough (2 * List.length ts + 1)) ts (le_n _))
    as [A _].
  destruct (parse_value (2 * List.length ts + 1) ts) as [[v [|t r]]| |];
    try discriminate. contradiction.
Qed.

End ParserFuel.


(* ================================================================== *)
(** * Further properties *)

(** ** The server: credentials *)

Lemma find_first (A : Type) (f : A -> bool) (l : list A) (x : A) :
  find f l = Some x
  <-> exists pre post,
      l = pre ++ x :: post /\ forallb (fun y => negb (f y)) pre = true
      /\ f x = true.
Proof.
  split.
  - induction l as [|y l IH]; simpl; [discriminate|].
    destruct (f y) eqn:E.
    + intros H. injection H as <-. exists [], l. auto.
    + intros H. destruct (IH H) as (pre & post & -> & Hp & Hx).
      exists (y :: pre), post. simpl. rewrite E. auto.
  - intros (pre & post & -> & Hp & Hx).
    induction pre as [|y pre IH]; simpl in *.
    + now rewrite Hx.
    + apply andb_true_iff in Hp as [Hy Hp]. apply negb_true_iff in Hy.
      rewrite Hy. now apply IH.
Qed.

(** X1. The key is resolved exactly when the first credential of type
    anthropicApi in the user's list is readable by the user and decrypts to
    a non-empty string key; that key is the result. Credentials of the type
    further down the list are never tried. The state is left as it was. *)
Theorem getAnthropicApiKey_resolves :
  forall (svc : credential_services) (u : User) (st : state) (k : str),
    getAnthropicApiKey svc u st = (Ok k, st)
    <-> exists pre c post e,
        getMany svc u = pre ++ c :: post
        /\ Forall (fun c' => cred_type c' <> js "anthropicApi") pre
        /\ cred_type c = js "anthropicApi"
        /\ findCredentialForUser svc (cred_id c) u = Some e
        /\ usable_key (decrypt_apiKey svc e) k.
Proof.
  intros svc u st k. unfold getAnthropicApiKey, bind, of_option, usable_key.
  split.
  - destruct (find is_anthropic (getMany svc u)) as [c|] eqn:Ef;
      [|discriminate].
    apply find_first in Ef as (pre & post & El & Hp & Hc).
    cbn [ret]. intros H.
    destruct (findCredentialForUser svc (cred_id c) u) as [e|] eqn:Ee;
      [|discriminate].
    cbn [ret] in H.
    exists pre, c, post, e. split; [exact El|]. split.
    { rewrite forallb_forall in Hp. apply Forall_forall. intros c' Hin E.
      apply Hp in Hin. apply negb_true_iff in Hin.
      unfold is_anthropic in Hin. rewrite E, Js_eqb_refl in Hin.
      discriminate. }
    split; [now apply Js_eqb_eq|]. split; [exact Ee|].
    destruct (decrypt_apiKey svc e) as [[| | |k'| |]|]; try discriminate.
    destruct k' as [|x k']; [discriminate|].
    injection H as <-. split; [reflexivity|discriminate].
  - intros (pre & c & post & e & El & Hp & Hc & Ee & Ek & Hne).
    assert (Ef : find is_anthropic (getMany svc u) = Some c).
    { apply find_first. exists pre, post. split; [exact El|]. split.
      - apply forallb_forall. intros c' Hin. rewrite Forall_forall in Hp.
        apply negb_true_iff. unfold is_anthropic. apply Js_eqb_neq.
        now apply Hp.
      - unfold is_anthropic. now apply Js_eqb_eq. }
    rewrite Ef. cbn [ret]. rewrite Ee. cbn [ret]. rewrite Ek.
    destruct k; [contradiction|reflexivity].
Qed.

Lemma getAnthropicApiKey_resolves_witness :
  getAnthropicApiKey one_credential (MkUser (js "u1")) initial
  = (Ok (js "sk-ant-key"), initial).
Proof.
  apply getAnthropicApiKey_resolves.
  exists [Credential (js "c7") (js "openAiApi")],
         (Credential (js "c9") (js "anthropicApi")), [],
         (CredentialEntity (js "c9") (js "encrypted")).
  split; [reflexivity|]. split.
  { repeat constructor. vm_compute. discriminate. }
  split; [reflexivity|]. split; [reflexivity|].
  split; [reflexivity|discriminate].
Defined.

(** X2. With a valid body and an Anthropic credential in the list: when the
    user may not read that credential the handler fails with the forbidden
    error (403); when the credential is readable but holds no usable key
    (absent, not a string, or empty) it fails with a bad-request error (400).
    In both cases nothing is done on the response and one entry is logged. *)
Theorem credential_failures :
  forall (svc : credential_services) (anthropic : provider) (req : request)
         (payload : CopilotChatRequest) (c : credential),
    CopilotChatRequestDto (body req) = Some payload ->
    find is_anthropic (getMany svc (user req)) = Some c ->
    (findCredentialForUser svc (cred_id c) (user req) = None ->
     chatWithCopilot svc anthropic req initial
     = (Throw (ResponseError (ForbiddenError forbidden_message)),
        State [] [js "Copilot chat error"])
     /\ httpStatusCode (ForbiddenError forbidden_message) = 403)
    /\ (forall e,
           findCredentialForUser svc (cred_id c) (user req) = Some e ->
           (forall k, ~ usable_key (decrypt_apiKey svc e) k) ->
           chatWithCopilot svc anthropic req initial
           = (Throw (ResponseError (BadRequestError no_key_message)),
              State [] [js "Copilot chat error"])
           /\ httpStatusCode (BadRequestError no_key_message) = 400).
Proof.
  intros svc anthropic req payload c Hv Hc.
  unfold chatWithCopilot, catch, bind, of_option, getAnthropicApiKey.
  rewrite Hv. cbn [ret]. unfold bind, of_option. rewrite Hc. cbn [ret].
  split.
  - intros ->. split; reflexivity.
  - intros e -> Hk. unfold usable_key in Hk. cbn [ret].
    destruct (decrypt_apiKey svc e) as [[| | |k| |]|]; try (split; reflexivity).
    destruct k as [|x k]; [split; reflexivity|].
    exfalso. apply (Hk (x :: k)). split; [reflexivity|discriminate].
Qed.

Lemma credential_failures_witness :
  chatWithCopilot denied_credential silent_provider sample_request initial
  = (Throw (ResponseError (ForbiddenError forbidden_message)),
     State [] [js "Copilot chat error"])
  /\ chatWithCopilot keyless_credential silent_provider sample_request initial
     = (Throw (ResponseError (BadRequestError no_key_message)),
        State [] [js "Copilot chat error"]).
Proof.
  split.
  - apply (proj1 (@credential_failures denied_credential silent_provider
                    sample_request
                    (ChatRequest (js "add a webhook node") [])
                    (Credential (js "c9") (js "anthropicApi"))
                    eq_refl eq_refl)).
    reflexivity.
  - apply (proj2 (@credential_failures keyless_credential silent_provider
                    sample_request
                    (ChatRequest (js "add a webhook node") [])
                    (Credential (js "c9") (js "anthropicApi"))
                    eq_refl eq_refl)
             (CredentialEntity (js "c9") (js "encrypted"))).
    + reflexivity.
    + intros k [E Hne]. vm_compute in E. injection E as <-. now apply Hne.
Defined.

(** ** The server: the handler as a whole *)

(** X3. Whatever the request, the credentials and the provider (the
    credential services and the provider client are taken to return
    normally; an error of theirs would pass through the handler as it is):
    the handler throws exactly when the body does not validate or no key is
    resolved. When the body does not validate the error thrown is the bad
    request error for an invalid payload (400), not the validation error
    itself; otherwise it is the error of the key resolution, passed on
    unchanged: not found (404), forbidden (403) or no usable key (400). In
    both cases nothing has been done on the response and one entry was
    logged. When the handler returns, the response got the SSE head first
    and [end()] last, with only writes and flushes in between. *)
Theorem handler_outcomes :
  forall (svc : credential_services) (anthropic : provider) (req : request),
    match chatWithCopilot svc anthropic req initial with
    | (Throw e, st) =>
        match CopilotChatRequestDto (body req) with
        | None =>
            e = ResponseError (BadRequestError (js "Invalid request payload"))
        | Some _ =>
            fst (getAnthropicApiKey svc (user req) initial) = Throw e
            /\ In e [ResponseError (NotFoundError not_found_message);
                     ResponseError (ForbiddenError forbidden_message);
                     ResponseError (BadRequestError no_key_message)]
        end
        /\ res st = [] /\ logged st = [js "Copilot chat error"]
    | (Ok _, st) =>
        (exists payload apiKey,
            CopilotChatRequestDto (body req) = Some payload
            /\ fst (getAnthropicApiKey svc (user req) initial) = Ok apiKey)
        /\ exists ops,
            res st = WriteHead 200 (sse_headers req) :: ops ++ [End]
            /\ forallb is_body_op ops = true
    end.
Proof.
  intros svc anthropic req.
  unfold chatWithCopilot, catch, bind, of_option.
  destruct (CopilotChatRequestDto (body req)) as [payload|]; cbn [ret throw];
    [|cbn; auto].
  pose proof (getAnthropicApiKey_state svc (user req) initial) as Hst.
  destruct (getAnthropicApiKey svc (user req) initial) as [[k|e] st0] eqn:Ek;
    simpl in Hst; subst st0.
  - cbn [on_res initial res logged].
    set (s := anthropic k _).
    destruct (relay_ops req (events s)
                (State [WriteHead 200 (sse_headers req)] []))
      as (ops & E & _ & B).
    unfold streaming, bind. cbn [app] in *. rewrite E.
    destruct (outcome_of s) as [|t]; cbn [on_res logger_error res logged];
      (split; [exists payload, k; split; reflexivity|]);
      [exists (ops ++ [Write (frame EvComplete)])
      |exists (ops ++ [Write (frame (EvError (stream_error_content t)))])];
      cbn [app]; rewrite <- !app_assoc; cbn [app];
      (split; [reflexivity|]); rewrite forallb_app, B; reflexivity.
  - assert (He : In e [ResponseError (NotFoundError not_found_message);
                       ResponseError (ForbiddenError forbidden_message);
                       ResponseError (BadRequestError no_key_message)]).
    { revert Ek. unfold getAnthropicApiKey, bind, of_option.
      destruct (find is_anthropic _) as [c|]; cbn [ret throw];
        [|intros H; injection H as <-; simpl; auto].
      destruct (findCredentialForUser svc _ _) as [en|]; cbn [ret throw];
        [|intros H; injection H as <-; simpl; auto].
      destruct (decrypt_apiKey svc en) as [[| | |k| |]|];
        try (intros H; injection H as <-; simpl; auto).
      destruct (truthy _); intros H;
        [discriminate|injection H as <-; simpl; auto]. }
    destruct e as [|r]; [simpl in He; intuition discriminate|].
    cbn. auto.
Qed.

(** ** The server: validation *)

Lemma parse_role_name (v : jsval) (r : role) :
  parse_role v = Some r -> v = Some (JString (role_name r)).
Proof.
  unfold parse_role.
  destruct v as [[| | |s| |]|]; simpl; try discriminate.
  destruct (Js.eqb s (js "user")) eqn:E1.
  - intros H. injection H as <-. apply Js_eqb_eq in E1. now subst.
  - destruct (Js.eqb s (js "assistant")) eqn:E2; [|discriminate].
    intros H. injection H as <-. apply Js_eqb_eq in E2. now subst.
Qed.

Lemma parse_messages_inv (l : list json) (h : list ChatMessage) :
  parse_messages l = Some h -> Forall2 is_pair l h.
Proof.
  revert h; induction l as [|j l IH]; intros h; simpl.
  - intros H. injection H as <-. constructor.
  - destruct (parse_message j) as [m|] eqn:Em; [|discriminate].
    destruct (parse_messages l) as [ms|]; [|discriminate].
    intros H. injection H as <-. constructor; [|now apply IH].
    unfold parse_message in Em. destruct j as [| | | | |o]; try discriminate.
    destruct (parse_role (obj_get (js "role") o)) as [r|] eqn:Er;
      [|discriminate].
    destruct (parse_string (obj_get (js "content") o)) as [c|] eqn:Ec;
      [|discriminate].
    injection Em as <-. exists o. split; [reflexivity|]. simpl. split.
    + now apply parse_role_name.
    + unfold parse_string in Ec.
      destruct (obj_get (js "content") o) as [[| | |s| |]|]; try discriminate.
      now injection Ec as <-.
Qed.

(** X4. The schema accepts a body exactly when it is an object whose
    userMessage is a non-empty string and whose conversationHistory is absent
    or an array of role/content pairs (other keys are ignored); the payload
    is that message and those pairs. Every other body makes the handler throw
    the same bad-request error (400), with nothing done on the response. *)
Theorem validation_exact :
  forall (b : jsval),
    (forall m h,
        CopilotChatRequestDto b = Some (ChatRequest m h)
        <-> exists o, b = Some (JObject o)
                      /\ obj_get (js "userMessage") o = Some (JString m)
                      /\ m <> []
                      /\ history_value (obj_get (js "conversationHistory") o) h)
    /\ (CopilotChatRequestDto b = None ->
        forall svc anthropic req,
          body req = b ->
          chatWithCopilot svc anthropic req initial
          = (Throw (ResponseError invalid_payload),
             State [] [js "Copilot chat error"])
          /\ httpStatusCode invalid_payload = 400).
Proof.
  intros b. split.
  - intros m h. split.
    + unfold CopilotChatRequestDto.
      destruct b as [[| | | | |o]|]; try discriminate.
      destruct (parse_string (obj_get (js "userMessage") o)) as [m'|] eqn:Em;
        [|discriminate].
      destruct (parse_history (obj_get (js "conversationHistory") o))
        as [h'|] eqn:Eh; [|discriminate].
      destruct m' as [|x m']; [discriminate|].
      change (Nat.leb 1 (List.length (x :: m'))) with true.
      cbn iota. intros H. injection H as <- <-.
      exists o. split; [reflexivity|].
      unfold parse_string in Em.
      destruct (obj_get (js "userMessage") o) as [[| | |s| |]|];
        try discriminate.
      injection Em as ->. split; [reflexivity|]. split; [discriminate|].
      unfold parse_history in Eh. unfold history_value.
      destruct (obj_get (js "conversationHistory") o) as [[| | | |l|]|];
        try discriminate.
      * right. exists l. split; [reflexivity|]. now apply parse_messages_inv.
      * left. now injection Eh as <-.
    + intros (o & -> & Hm & Hne & Hh).
      unfold CopilotChatRequestDto. rewrite Hm. simpl.
      assert (Eh : parse_history (obj_get (js "conversationHistory") o) = Some h).
      { destruct Hh as [[-> ->]|(l & -> & Hl)]; simpl; [reflexivity|].
        now apply parse_messages_pairs. }
      rewrite Eh. destruct m; [contradiction|reflexivity].
  - intros E svc anthropic req <-.
    unfold chatWithCopilot, catch, bind, of_option. rewrite E.
    split; reflexivity.
Qed.

Lemma validation_exact_witness :
  chatWithCopilot one_credential sample_provider no_body_request initial
  = (Throw (ResponseError invalid_payload), State [] [js "Copilot chat error"]).
Proof.
  exact (proj1 (proj2 (validation_exact None) eq_refl
                  one_credential sample_provider no_body_request eq_refl)).
Defined.

(** ** The wire: what the relay writes, the consumer reads *)

Lemma units_from_in (n : nat) :
  forall s c, s <= c < s + N.of_nat n -> In c (units_from n s).
Proof.
  induction n as [|n IH]; intros s c H; [lia|].
  cbn [units_from]. destruct (N.eq_dec s c) as [->|Hn]; [now left|].
  right. apply IH. lia.
Qed.

Lemma escape_decodes_all (c : N) : c < 65536 -> escape_decodes c = true.
Proof.
  intros Hc.
  assert (H : forallb escape_decodes (units_from (256 * 256) 0) = true)
    by (vm_compute; reflexivity).
  rewrite forallb_forall in H. apply H. apply units_from_in.
  change (N.of_nat (256 * 256)) with 65536. lia.
Qed.

Lemma lex_run_silent (st st' : lex_state) (c : N) (s : str) :
  step st c = Some (st', []) -> lex_run st (c :: s) = lex_run st' s.
Proof.
  intros H. simpl. rewrite H.
  destruct (lex_run st' s) as [[st'' ts]|]; reflexivity.
Qed.

Lemma lex_run_plain (acc : str) (c : N) (s : str) :
  c <> 34 -> c <> 92 -> (c <? 32) = false ->
  lex_run (LString acc) (c :: s) = lex_run (LString (c :: acc)) s.
Proof.
  intros H1 H2 H3. apply lex_run_silent. cbn [step].
  apply N.eqb_neq in H1, H2. now rewrite H1, H2, H3.
Qed.

Lemma lex_run_unicode (acc : str) (c : N) (s : str) :
  c < 65536 ->
  lex_run (LString acc) (unicode_escape c ++ s)
  = lex_run (LString (c :: acc)) s.
Proof.
  intros Hc. pose proof (escape_decodes_all Hc) as H.
  unfold escape_decodes, unicode_escape in *. cbn [app].
  rewrite (@lex_run_silent (LString acc) (LEscape acc)) by reflexivity.
  rewrite (@lex_run_silent (LEscape acc) (LUnicode acc 0 0)) by reflexivity.
  unfold decode4 in H.
  destruct (hex_of (hex_digit ((c / 4096) mod 16))) as [d1|] eqn:E1;
    [|discriminate].
  destruct (hex_of (hex_digit ((c / 256) mod 16))) as [d2|] eqn:E2;
    [|discriminate].
  destruct (hex_of (hex_digit ((c / 16) mod 16))) as [d3|] eqn:E3;
    [|discriminate].
  destruct (hex_of (hex_digit (c mod 16))) as [d4|] eqn:E4; [|discriminate].
  apply N.eqb_eq in H.
  rewrite (@lex_run_silent (LUnicode acc 0 0) (LUnicode acc 1 (0 * 16 + d1)))
    by (cbn [step]; now rewrite E1).
  rewrite (@lex_run_silent (LUnicode acc 1 (0 * 16 + d1))
             (LUnicode acc 2 ((0 * 16 + d1) * 16 + d2)))
    by (cbn [step]; now rewrite E2).
  rewrite (@lex_run_silent (LUnicode acc 2 ((0 * 16 + d1) * 16 + d2))
             (LUnicode acc 3 (((0 * 16 + d1) * 16 + d2) * 16 + d3)))
    by (cbn [step]; now rewrite E3).
  rewrite (@lex_run_silent
             (LUnicode acc 3 (((0 * 16 + d1) * 16 + d2) * 16 + d3))
             (LString (c :: acc)))
    by (cbn [step]; rewrite E4; cbn [Nat.eqb]; now rewrite H).
  reflexivity.
Qed.

(** The lexer undoes the escape of one unit. *)
Lemma lex_run_unit (acc : str) (c : N) (s : str) :
  lex_run (LString acc) (quote_unit c ++ s) = lex_run (LString (c :: acc)) s.
Proof.
  assert (two_steps :
            forall x y,
              step (LEscape acc) x = Some (LString (y :: acc), []) ->
              lex_run (LString acc) ([92; x] ++ s)
              = lex_run (LString (y :: acc)) s).
  { intros x y H. cbn [app].
    rewrite (@lex_run_silent (LString acc) (LEscape acc)) by reflexivity.
    now apply lex_run_silent. }
  unfold quote_unit.
  destruct (N.eqb_spec c 8) as [->|N8]; [now apply two_steps|].
  destruct (N.eqb_spec c 9) as [->|N9]; [now apply two_steps|].
  destruct (N.eqb_spec c 10) as [->|N10]; [now apply two_steps|].
  destruct (N.eqb_spec c 12) as [->|N12]; [now apply two_steps|].
  destruct (N.eqb_spec c 13) as [->|N13]; [now apply two_steps|].
  destruct (N.eqb_spec c 34) as [->|N34]; [now apply two_steps|].
  destruct (N.eqb_spec c 92) as [->|N92]; [now apply two_steps|].
  destruct (c <? 32) eqn:L; cbn [orb].
  - apply lex_run_unicode. apply N.ltb_lt in L. lia.
  - destruct (is_high_surrogate c || is_low_surrogate c) eqn:S.
    + apply lex_run_unicode.
      unfold is_high_surrogate, is_low_surrogate in S.
      apply orb_true_iff in S as [S|S]; apply andb_true_iff in S as [_ S];
        apply N.leb_le in S; lia.
    + cbn [app]. now apply lex_run_plain.
Qed.

(** The lexer reads a quoted string back: [JSON.parse] undoes
    QuoteJSONString, for every string. *)
Lemma lex_run_quote_body (s : str) :
  forall acc,
    lex_run (LString acc) (quote_body s ++ [34])
    = Some (LStart, [TString (rev acc ++ s)]).
Proof.
  assert (H : forall n s, (List.length s <= n)%nat ->
              forall acc, lex_run (LString acc) (quote_body s ++ [34])
                          = Some (LStart, [TString (rev acc ++ s)])).
  { induction n as [|n IH]; intros [|c [|d s'']] Hl acc; simpl in Hl; try lia.
    - cbn. now rewrite app_nil_r.
    - cbn. now rewrite app_nil_r.
    - change (quote_body [c]) with (quote_unit c).
      rewrite lex_run_unit. reflexivity.
    - change (quote_body (c :: d :: s''))
        with (if is_high_surrogate c && is_low_surrogate d
              then c :: d :: quote_body s''
              else quote_unit c ++ quote_body (d :: s'')).
      destruct (is_high_surrogate c && is_low_surrogate d) eqn:E.
      + apply andb_true_iff in E as [E1 E2].
        destruct (@surrogate_plain c (or_introl E1)) as (_ & A1 & A2 & A3).
        destruct (@surrogate_plain d (or_intror E2)) as (_ & B1 & B2 & B3).
        cbn [app]. rewrite lex_run_plain by assumption.
        rewrite lex_run_plain by assumption.
        rewrite IH by (simpl; lia). cbn [rev]. now rewrite <- !app_assoc.
      + rewrite <- app_assoc, lex_run_unit.
        rewrite IH by (simpl; lia). cbn [rev]. now rewrite <- app_assoc. }
  intros acc. now apply (H (List.length s)).
Qed.

Lemma JSON_parse_frame (P : str) (toks : list token) (c : str) (v : json) :
  lex_run LStart P = Some (LString [], toks) ->
  parse_tokens (toks ++ [TString c; TRBrace]) = POk v ->
  JSON_parse (P ++ quote_body c ++ [34; 125]) = Some v.
Proof.
  intros HP Hv. unfold JSON_parse, lex.
  replace (quote_body c ++ [34; 125]) with ((quote_body c ++ [34]) ++ [125])
    by (now rewrite <- app_assoc).
  rewrite lex_from_app, HP, lex_from_app, lex_run_quote_body.
  change (lex_from LStart [125]) with (Some [TRBrace]).
  cbn [rev app]. now rewrite Hv.
Qed.

Lemma classify_frame_line (e : StreamEvent) :
  classify (frame_line e) = Some (kind_of e).
Proof.
  destruct e as [c| |c].
  - rewrite frame_line_text. unfold classify, text_prefix.
    rewrite <- !app_assoc.
    change (startsWith (marker ++ ?r) (js "data: ")) with true. cbn iota.
    change (slice_from (marker ++ ?r) 6) with r.
    rewrite !app_assoc, <- app_assoc.
    rewrite (@JSON_parse_frame _ text_tokens c
               (JObject [(js "type", JString (js "text"));
                         (js "content", JString c)]));
      reflexivity.
  - vm_compute. reflexivity.
  - rewrite frame_line_error. unfold classify, error_prefix.
    rewrite <- !app_assoc.
    change (startsWith (marker ++ ?r) (js "data: ")) with true. cbn iota.
    change (slice_from (marker ++ ?r) 6) with r.
    rewrite !app_assoc, <- app_assoc.
    rewrite (@JSON_parse_frame _ error_tokens c
               (JObject [(js "type", JString (js "error"));
                         (js "content", JString c)]));
      reflexivity.
Qed.

(** X5. Every frame line the relay writes, whatever the content (quotes,
    backslashes, control characters, lone surrogates), is read by the
    consumer as the same kind of frame with the same content. *)
Theorem frame_read_back :
  forall e : StreamEvent, classify (frame_line e) = Some (kind_of e).
Proof. exact classify_frame_line. Qed.

(** ** The frames on the wire *)

Lemma frame_wire (e : StreamEvent) : frame e = wire e.
Proof.
  destruct e as [c| |c];
    unfold frame, wire, frame_line, JSON_stringify, event_json, wire_payload,
      quote; cbn; rewrite <- ?app_assoc; reflexivity.
Qed.

Lemma quote_body_plain (c : str) :
  forallb plain_unit c = true -> quote_body c = c.
Proof.
  assert (U : forall u, plain_unit u = true -> quote_unit u = [u]).
  { intros u H. unfold plain_unit in H.
    repeat (apply andb_true_iff in H as [H ?]).
    apply N.leb_le in H.
    repeat match goal with
           | K : negb _ = true |- _ => apply negb_true_iff in K
           end.
    unfold quote_unit.
    repeat match goal with
           | |- context [?a =? ?b] =>
               destruct (N.eqb_spec a b); [lia || congruence|]
           end.
    assert (L : (u <? 32) = false) by (apply N.ltb_ge; lia).
    rewrite L. now rewrite H1, H0. }
  assert (H : forall n s, (List.length s <= n)%nat ->
              forallb plain_unit s = true -> quote_body s = s).
  { induction n as [|n IH]; intros [|a [|b s'']] Hl Hp; simpl in Hl; try lia;
      try reflexivity.
    - cbn in Hp. apply andb_true_iff in Hp as [Hp _].
      change (quote_body [a]) with (quote_unit a). now apply U.
    - change (quote_body (a :: b :: s''))
        with (if is_high_surrogate a && is_low_surrogate b
              then a :: b :: quote_body s''
              else quote_unit a ++ quote_body (b :: s'')).
      cbn [forallb] in Hp. apply andb_true_iff in Hp as [Ha Hp].
      assert (Hh : is_high_surrogate a = false).
      { unfold plain_unit in Ha.
        repeat (apply andb_true_iff in Ha as [Ha ?]).
        now apply negb_true_iff. }
      rewrite Hh. cbn [andb]. rewrite (U a Ha), IH; [reflexivity| |exact Hp].
      simpl. lia. }
  now apply (H (List.length c)).
Qed.

Lemma wire_payload_parses (e : StreamEvent) :
  JSON_parse (wire_payload e) = Some (event_json e).
Proof.
  pose proof (classify_frame_line e) as H.
  assert (E : frame_line e = js "data: " ++ wire_payload e).
  { apply (app_inv_tail [10; 10]). rewrite <- app_assoc.
    exact (frame_wire e). }
  destruct e as [c| |c]; [| vm_compute; reflexivity |].
  - rewrite frame_line_text in E.
    unfold text_prefix, marker in E. rewrite <- !app_assoc in E.
    apply app_inv_head in E. rewrite <- E. rewrite !app_assoc, <- app_assoc.
    apply (@JSON_parse_frame _ text_tokens c); reflexivity.
  - rewrite frame_line_error in E.
    unfold error_prefix, marker in E. rewrite <- !app_assoc in E.
    apply app_inv_head in E. rewrite <- E. rewrite !app_assoc, <- app_assoc.
    apply (@JSON_parse_frame _ error_tokens c); reflexivity.
Qed.

Lemma wire_inj (e e' : StreamEvent) : wire e = wire e' -> e = e'.
Proof.
  unfold wire. intros H. apply app_inv_head in H. apply app_inv_tail in H.
  pose proof (wire_payload_parses e) as A.
  rewrite H, wire_payload_parses in A. injection A as A.
  destruct e, e'; cbv in A; congruence.
Qed.

Lemma last_event_terminal (o : outcome) : last_event o = terminal_event o.
Proof. destruct o as [|[m|[v|]]]; reflexivity. Qed.

(** C1. A request that reaches the streaming phase (its body validates and
    the API key is resolved) returns normally, and the response receives:
    the SSE head, then only writes and flushes, then [end()]. The data
    written is, byte for byte, one text frame per text delta of the provider
    stream, in order, followed by exactly one terminal frame: complete when
    the stream is exhausted, error with the failure's message when it fails.
    Nothing follows the terminal frame but [end()]. A frame is the marker,
    the payload and a blank line; the payload holds no line break, reads back
    with [JSON.parse] as the object with that type and that content, holds a
    content that needs no escape as it is, and no two events are written as
    the same frame. *)
Theorem relay_stream_shape :
  forall (svc : credential_services) (anthropic : provider) (req : request)
         (payload : CopilotChatRequest) (apiKey : str),
    CopilotChatRequestDto (body req) = Some payload ->
    fst (getAnthropicApiKey svc (user req) initial) = Ok apiKey ->
    let s := anthropic apiKey (conversationHistory payload
                               ++ [ChatMsg RUser (userMessage payload)]) in
    (exists ops st,
        chatWithCopilot svc anthropic req initial = (Ok tt, st)
        /\ res st = WriteHead 200 (sse_headers req) :: ops
                    ++ [Write (wire (last_event (outcome_of s))); End]
        /\ forallb is_body_op ops = true
        /\ writes ops = map wire (map EvText (text_deltas (events s)))
        /\ writes (res st)
           = map wire (map EvText (text_deltas (events s))
                       ++ [last_event (outcome_of s)]))
    /\ (forall e, ~ In 10 (wire_payload e))
    /\ (forall c,
           JSON_parse (wire_payload (EvText c))
           = Some (JObject [(js "type", JString (js "text"));
                            (js "content", JString c)]))
    /\ (forall c,
           JSON_parse (wire_payload (EvError c))
           = Some (JObject [(js "type", JString (js "error"));
                            (js "content", JString c)]))
    /\ JSON_parse (wire_payload EvComplete)
       = Some (JObject [(js "type", JString (js "complete"))])
    /\ (forall c, forallb plain_unit c = true ->
                  wire (EvText c)
                  = js "data: {" ++ [34] ++ js "type" ++ [34] ++ js ":" ++ [34]
                    ++ js "text" ++ [34] ++ js "," ++ [34] ++ js "content"
                    ++ [34] ++ js ":" ++ [34] ++ c ++ [34] ++ js "}"
                    ++ [10; 10])
    /\ (forall e e', wire e = wire e' -> e = e').
Proof.
  intros svc anthropic req payload apiKey Hv Hk s.
  split.
  { pose proof (getAnthropicApiKey_state svc (user req) initial) as Hst.
    destruct (getAnthropicApiKey svc (user req) initial) as [r st0] eqn:Ek.
    simpl in Hk, Hst. subst r st0.
    destruct (relay_ops req (events s)
                (State [WriteHead 200 (sse_headers req)] []))
      as (ops & E & W & B).
    simpl in E.
    rewrite (map_ext _ _ frame_wire) in W.
    unfold chatWithCopilot, catch, bind, of_option. rewrite Hv. simpl.
    rewrite Ek. simpl. unfold streaming, bind. fold s. rewrite E.
    assert (Hw : forall e, writes (WriteHead 200 (sse_headers req) :: ops
                                   ++ [Write (wire e); End])
                           = map wire (map EvText (text_deltas (events s))
                                       ++ [e])).
    { intros e. change (writes (WriteHead 200 (sse_headers req) :: ?l))
        with (writes l). rewrite writes_app, W, map_app. reflexivity. }
    rewrite last_event_terminal.
    destruct (outcome_of s) as [|t];
      cbn [on_res logger_error res logged fst snd terminal_event];
      rewrite ?frame_wire;
      eexists ops, _; (split; [reflexivity|]); cbn [res];
      rewrite <- !app_assoc; cbn [app];
      (split; [reflexivity|]); (split; [exact B|]); (split; [exact W|]);
      apply Hw. }
  split.
  { intros e K. apply (@frame_line_no_newline e).
    assert (E : frame_line e = js "data: " ++ wire_payload e).
    { apply (app_inv_tail [10; 10]). rewrite <- app_assoc.
      exact (frame_wire e). }
    rewrite E. apply in_or_app. now right. }
  split; [intros c; exact (wire_payload_parses (EvText c))|].
  split; [intros c; exact (wire_payload_parses (EvError c))|].
  split; [exact (wire_payload_parses EvComplete)|].
  split; [|exact wire_inj].
  intros c Hc. unfold wire, wire_payload, quote.
  rewrite (quote_body_plain c Hc). cbn. rewrite <- !app_assoc. reflexivity.
Qed.

Lemma relay_stream_shape_witness :
  exists ops st,
    chatWithCopilot one_credential sample_provider sample_request initial
    = (Ok tt, st)
    /\ res st = WriteHead 200 (sse_headers sample_request) :: ops
                ++ [Write (js "data: {" ++ [34] ++ js "type" ++ [34] ++ js ":"
                           ++ [34] ++ js "error" ++ [34] ++ js "," ++ [34]
                           ++ js "content" ++ [34] ++ js ":" ++ [34]
                           ++ js "overloaded" ++ [34] ++ js "}" ++ [10; 10]);
                    End]
    /\ forallb is_body_op ops = true
    /\ writes ops
       = [js "data: {" ++ [34] ++ js "type" ++ [34] ++ js ":" ++ [34]
          ++ js "text" ++ [34] ++ js "," ++ [34] ++ js "content" ++ [34]
          ++ js ":" ++ [34] ++ js "Sure" ++ [34] ++ js "}" ++ [10; 10];
          js "data: {" ++ [34] ++ js "type" ++ [34] ++ js ":" ++ [34]
          ++ js "text" ++ [34] ++ js "," ++ [34] ++ js "content" ++ [34]
          ++ js ":" ++ [34] ++ js ", done." ++ [34] ++ js "}" ++ [10; 10]].
Proof.
  destruct (proj1 (relay_stream_shape one_credential sample_provider
                     sample_request
                     (payload := ChatRequest (js "add a webhook node") [])
                     (apiKey := js "sk-ant-key") eq_refl eq_refl))
    as (ops & st & A & B & C & D & _).
  exists ops, st. repeat split; assumption.
Defined.
Lemma concat_map_groups (A B : Type) (f : A -> B) (groups : list (list B)) :
  forall l : list A,
    List.concat groups = map f l ->
    exists ls, groups = map (map f) ls /\ List.concat ls = l.
Proof.
  induction groups as [|g gs IH]; intros l H; simpl in H.
  - symmetry in H. apply map_eq_nil in H. subst. now exists [].
  - symmetry in H. apply map_eq_app in H as (l1 & l2 & -> & E1 & E2).
    symmetry in E2. destruct (IH _ E2) as (ls & -> & <-).
    exists (l1 :: ls). simpl. now rewrite E1.
Qed.

Lemma frames_of_lines_frames (evs : list StreamEvent) :
  frames_of_lines (split 10 (List.concat (map frame evs))) = map kind_of evs.
Proof.
  induction evs as [|e evs IH]; [reflexivity|].
  cbn [map List.concat]. unfold frame at 1.
  rewrite <- app_assoc.
  change ([10; 10] ++ ?r) with (10 :: ([] ++ 10 :: r)).
  rewrite !split_app_sep, !frames_of_lines_app, IH.
  rewrite (@split_no_sep 10 (frame_line e) (@frame_line_no_newline e)).
  cbn [frames_of_lines]. rewrite classify_frame_line. reflexivity.
Qed.

Lemma frames_of_groups (ls : list (list StreamEvent)) :
  frames_of (map (@List.concat _) (map (map frame) ls))
  = map kind_of (List.concat ls).
Proof.
  induction ls as [|l ls IH]; [reflexivity|].
  change (frames_of (map (@List.concat _) (map (map frame) (l :: ls))))
    with (frames_of_lines (split 10 (List.concat (map frame l)))
          ++ frames_of (map (@List.concat _) (map (map frame) ls))).
  rewrite IH, frames_of_lines_frames. cbn [List.concat]. now rewrite map_app.
Qed.

Lemma dispatch_events (has : bool) (ts : list str) (term : StreamEvent) :
  (forall c, term <> EvText c) ->
  dispatch has (map kind_of (map EvText ts ++ [term]))
  = (map (fun t => OnText (Some (JString t))) ts ++ callback_of has term, true).
Proof.
  intros Ht. induction ts as [|t ts IH].
  - destruct term as [c| |c]; [now elim (Ht c)|reflexivity|reflexivity].
  - cbn [map app kind_of dispatch]. now rewrite IH.
Qed.

Lemma handler_writes (svc : credential_services) (anthropic : provider)
      (req : request) (payload : CopilotChatRequest) (apiKey : str) :
  CopilotChatRequestDto (body req) = Some payload ->
  fst (getAnthropicApiKey svc (user req) initial) = Ok apiKey ->
  let s := anthropic apiKey (conversationHistory payload
                             ++ [ChatMsg RUser (userMessage payload)]) in
  writes (res (snd (chatWithCopilot svc anthropic req initial)))
  = map frame (map EvText (text_deltas (events s))
               ++ [terminal_event (outcome_of s)]).
Proof.
  intros Hv Hk s.
  pose proof (getAnthropicApiKey_state svc (user req) initial) as Hst.
  destruct (getAnthropicApiKey svc (user req) initial) as [r st0] eqn:Ek.
  simpl in Hk, Hst. subst r st0.
  destruct (relay_ops req (events s)
              (State [WriteHead 200 (sse_headers req)] [])) as (ops & E & W & B).
  simpl in E.
  unfold chatWithCopilot, catch, bind, of_option. rewrite Hv. simpl.
  rewrite Ek. simpl. unfold streaming, bind. fold s. rewrite E.
  destruct (outcome_of s) as [|t]; cbn [on_res logger_error res logged fst snd];
    rewrite <- !app_assoc; cbn [app];
    change (writes (WriteHead 200 (sse_headers req) :: ?l)) with (writes l);
    rewrite writes_app, W, map_app; reflexivity.
Qed.

Lemma callbacks_of_frames (has : bool) (status : N)
      (groups : list (list str)) (e : ending)
      (ts : list str) (term : StreamEvent) :
  (forall c, term <> EvText c) ->
  List.concat groups = map frame (map EvText ts ++ [term]) ->
  callbacks (streamChatResponse has
               (FetchResolves
                  (Response true status
                     (Some (Body (map (@List.concat _) groups) e)))))
  = map (fun t => OnText (Some (JString t))) ts ++ callback_of has term.
Proof.
  intros Ht Hg. apply concat_map_groups in Hg as (ls & -> & Hl).
  now rewrite callbacks_of_body, frames_of_groups, Hl, dispatch_events.
Qed.

Lemma frames_of_wire_groups (groups : list (list StreamEvent)) :
  frames_of (map (fun g => List.concat (map wire g)) groups)
  = map kind_of (List.concat groups).
Proof.
  rewrite <- frames_of_groups, map_map. f_equal.
  apply map_ext. intros g. f_equal. apply map_ext. intros e.
  symmetry. apply frame_wire.
Qed.

Lemma dispatch_events_more (has : bool) (ts : list str) (term : StreamEvent)
      (more : list StreamEvent) :
  (forall c, term <> EvText c) ->
  dispatch has (map kind_of (map EvText ts ++ term :: more))
  = (map (fun t => OnText (Some (JString t))) ts ++ callback_of has term, true).
Proof.
  intros Ht. induction ts as [|t ts IH].
  - destruct term as [c| |c]; [now elim (Ht c)|reflexivity|reflexivity].
  - cbn [map app kind_of dispatch]. now rewrite IH.
Qed.

(** C2. The callbacks the consumer invokes are those of the well-formed
    frames of the body, in arrival order: [onText] with the content of each
    text frame, until the first error frame ([onError] with an Error made of
    its content) or complete frame ([onComplete], when that optional callback
    is supplied), after which no frame is processed. A frame is well formed
    when its line starts with the marker, what follows parses to an object
    whose type is one of the three and, for an error frame, an Error can be
    made of the content, as of every string; every other line is passed
    over. In particular, for
    a body made of frames as the protocol words them, however they are
    grouped into reads: [onText] once per text frame, in order and with its
    content, then the callback of the first frame that is no text, and
    nothing for the frames that follow it. At most one of
    [onComplete]/[onError] is invoked per call, and a response that is not ok
    or has no body invokes [onError] alone. *)
Theorem consumer_dispatch :
  forall has_onComplete : bool,
    (forall st cs e,
        callbacks (streamChatResponse has_onComplete
                     (FetchResolves (Response true st (Some (Body cs e)))))
        = let (cbs, stopped) := dispatch has_onComplete (frames_of cs) in
          if stopped then cbs else cbs ++ stream_end e)
    /\ (forall texts c more,
           dispatch has_onComplete (map FText texts ++ FError c :: more)
           = (map OnText texts ++ [OnError (ErrorOf c)], true))
    /\ (forall texts more,
           dispatch has_onComplete (map FText texts ++ FComplete :: more)
           = (map OnText texts ++ (if has_onComplete then [OnComplete] else []),
              true))
    /\ (forall line o,
           startsWith line (js "data: ") = true ->
           JSON_parse (slice_from line 6) = Some (JObject o) ->
           (obj_get (js "type") o = Some (JString (js "text")) ->
            classify line = Some (FText (obj_get (js "content") o)))
           /\ (forall c,
                  obj_get (js "type") o = Some (JString (js "error")) ->
                  obj_get (js "content") o = Some (JString c) ->
                  classify line = Some (FError (Some (JString c))))
           /\ (obj_get (js "type") o = Some (JString (js "complete")) ->
               classify line = Some FComplete))
    /\ (forall st (groups : list (list StreamEvent)) ts c more e,
           List.concat groups = map EvText ts ++ EvError c :: more ->
           callbacks (streamChatResponse has_onComplete
                        (FetchResolves
                           (Response true st
                              (Some (Body (map (fun g => List.concat (map wire g))
                                               groups) e)))))
           = map (fun t => OnText (Some (JString t))) ts
             ++ [OnError (ErrorOf (Some (JString c)))])
    /\ (forall st (groups : list (list StreamEvent)) ts more e,
           List.concat groups = map EvText ts ++ EvComplete :: more ->
           callbacks (streamChatResponse has_onComplete
                        (FetchResolves
                           (Response true st
                              (Some (Body (map (fun g => List.concat (map wire g))
                                               groups) e)))))
           = map (fun t => OnText (Some (JString t))) ts
             ++ (if has_onComplete then [OnComplete] else []))
    /\ (forall f,
           (List.length (filter is_final (streamChatResponse has_onComplete f))
            <= 1)%nat)
    /\ (forall st b,
           callbacks (streamChatResponse has_onComplete
                        (FetchResolves (Response false st b)))
           = [OnError (HttpError st)])
    /\ (forall st,
           callbacks (streamChatResponse has_onComplete
                        (FetchResolves (Response true st None)))
           = [OnError NoResponseBody])
    /\ (forall t,
           callbacks (streamChatResponse has_onComplete (FetchRejects t))
           = [OnError (caught t)]).
Proof.
  intros has.
  assert (A := callbacks_of_body has).
  split; [exact A|].
  split.
  { intros texts c more. induction texts as [|t texts IH]; simpl;
      [reflexivity|]. now rewrite IH. }
  split.
  { intros texts more. induction texts as [|t texts IH]; simpl;
      [reflexivity|]. now rewrite IH. }
  split.
  { intros line o Hm Hp. unfold classify. rewrite Hm, Hp.
    split; [|split].
    - intros ->. reflexivity.
    - intros c -> ->. reflexivity.
    - intros ->. reflexivity. }
  split.
  { intros st groups ts c more e Hg.
    rewrite A, frames_of_wire_groups, Hg, dispatch_events_more;
      [reflexivity|discriminate]. }
  split.
  { intros st groups ts more e Hg.
    rewrite A, frames_of_wire_groups, Hg, dispatch_events_more;
      [reflexivity|discriminate]. }
  split.
  { intros [t|[[|] st [[cs e]|]]]; try (simpl; lia).
    rewrite <- filter_final_callbacks, (A st cs e).
    pose proof (dispatch_finals has (frames_of cs)) as H.
    destruct (dispatch has (frames_of cs)) as [cbs stopped].
    destruct H as (H1 & H2 & _). destruct stopped; [exact H1|].
    rewrite filter_app, (H2 eq_refl). destruct e; simpl; lia. }
  repeat split; reflexivity.
Qed.

Lemma terminal_event_final (o : CopilotController.outcome) (c : str) :
  terminal_event o <> EvText c.
Proof. destruct o; discriminate. Qed.

(** X6. End to end, for an accepted request with a usable key: however the
    transport groups the frames written by the handler into reads (several
    frames in one read, empty reads), as long as no frame is cut, the consumer
    calls onText once per text delta of the provider, in order and with the
    same text, and then the callback of the terminal frame: onComplete when
    the provider stream was exhausted, onError with the message of the failure
    otherwise. How the body ends after that does not matter. *)
Theorem relay_reaches_consumer :
  forall (svc : credential_services) (anthropic : provider) (req : request)
         (payload : CopilotChatRequest) (apiKey : str)
         (has_onComplete : bool) (status : N)
         (groups : list (list str)) (e : ending),
    CopilotChatRequestDto (body req) = Some payload ->
    fst (getAnthropicApiKey svc (user req) initial) = Ok apiKey ->
    List.concat groups
    = writes (res (snd (chatWithCopilot svc anthropic req initial))) ->
    let s := anthropic apiKey (conversationHistory payload
                               ++ [ChatMsg RUser (userMessage payload)]) in
    callbacks (streamChatResponse has_onComplete
                 (FetchResolves
                    (Response true status
                       (Some (Body (map (@List.concat _) groups) e)))))
    = map (fun t => OnText (Some (JString t))) (text_deltas (events s))
      ++ callback_of has_onComplete (terminal_event (outcome_of s)).
Proof.
  intros svc anthropic req payload apiKey has status groups e Hv Hk Hg s.
  rewrite (handler_writes svc anthropic req Hv Hk) in Hg. fold s in Hg.
  apply callbacks_of_frames; [|exact Hg].
  intros c. apply terminal_event_final.
Qed.

Lemma relay_reaches_consumer_witness :
  callbacks (streamChatResponse true
               (FetchResolves
                  (Response true 200
                     (Some (Body (map (@List.concat _) sample_groups)
                                 (ReadFails (ThrownError (js "reset"))))))))
  = [OnText (Some (JString (js "Sure")));
     OnText (Some (JString (js ", done.")));
     OnError (ErrorOf (Some (JString (js "overloaded"))))].
Proof.
  exact (@relay_reaches_consumer one_credential sample_provider sample_request
           (ChatRequest (js "add a webhook node") []) (js "sk-ant-key")
           true 200 sample_groups (ReadFails (ThrownError (js "reset")))
           eq_refl eq_refl eq_refl).
Defined.

(** ** The client consumer: the reader's lock *)

Lemma process_line_no_release (has : bool) (line : str) :
  ~ In ReleaseLock (fst (process_line has line)).
Proof.
  unfold process_line.
  destruct (startsWith line (js "data: ")); [|simpl; tauto].
  destruct (JSON_parse (slice_from line 6)) as [data|];
    [|simpl; intros [H|[]]; discriminate].
  destruct (get_prop data (js "type")) as [ty|];
    [|simpl; intros [H|[]]; discriminate].
  destruct (is_string ty (js "text")); [simpl; intros [H|[]]; discriminate|].
  destruct (is_string ty (js "error"));
    [destruct (new_Error_throws _); simpl; intros [H|[]]; discriminate|].
  destruct (is_string ty (js "complete")); [|simpl; tauto].
  destruct has; simpl; [intros [H|[]]; discriminate|tauto].
Qed.

Lemma process_lines_no_release (has : bool) (lines : list str) :
  ~ In ReleaseLock (fst (process_lines has lines)).
Proof.
  induction lines as [|line rest IH]; simpl; [tauto|].
  pose proof (process_line_no_release has line) as Hl.
  destruct (process_line has line) as [evs [|]]; simpl in *; [|exact Hl].
  destruct (process_lines has rest) as [evs' fl]; simpl in *.
  rewrite in_app_iff. tauto.
Qed.

Lemma read_loop_no_release (has : bool) (cs : list str) (e : ending) :
  ~ In ReleaseLock (fst (read_loop has cs e)).
Proof.
  induction cs as [|chunk cs IH]; simpl.
  - destruct e; simpl; tauto.
  - pose proof (process_lines_no_release has (split 10 chunk)) as Hl.
    destruct (process_lines has (split 10 chunk)) as [evs [|]]; simpl in *;
      [|exact Hl].
    destruct (read_loop has cs e) as [evs' ex]; simpl in *.
    rewrite in_app_iff. tauto.
Qed.

(** X7. The reader's lock is released exactly once on every path on which a
    reader was obtained (the body ran dry, a terminal frame ended the reading,
    or a read failed), after every callback of a frame; the only thing that
    can follow the release is the onError call for a failed read. When no
    reader was obtained (fetch rejected, status not ok, no body) nothing is
    released and onError is the only thing called. *)
Theorem release_lock_once :
  forall (has_onComplete : bool) (f : fetch_result),
    match reader_of f with
    | Some b =>
        exists evs tail,
          streamChatResponse has_onComplete f = evs ++ ReleaseLock :: tail
          /\ ~ In ReleaseLock evs
          /\ (tail = []
              \/ exists t, ending_of b = ReadFails t
                           /\ tail = [OnError (caught t)]
                           /\ filter is_final evs = [])
    | None =>
        exists err, streamChatResponse has_onComplete f = [OnError err]
    end.
Proof.
  intros has [t|[[|] st [[cs e]|]]]; cbn [reader_of];
    try (eexists; reflexivity).
  cbn [streamChatResponse ok negb body_of chunks ending_of].
  pose proof (read_loop_no_release has cs e) as Hn.
  pose proof (read_loop_dispatch has cs e) as Hd.
  pose proof (dispatch_finals has (frames_of cs)) as Hf.
  destruct (read_loop has cs e) as [evs ex].
  destruct (dispatch has (frames_of cs)) as [cbs stopped].
  destruct Hd as [Hc Hx]. destruct Hf as (_ & Hf & _). cbn [fst] in Hn.
  destruct ex as [| |t].
  - exists evs, []. auto.
  - exists evs, []. auto.
  - exists evs, [OnError (caught t)].
    change (evs ++ [ReleaseLock; OnError (caught t)])
      with (evs ++ ReleaseLock :: [OnError (caught t)]).
    split; [reflexivity|]. split; [exact Hn|]. right.
    destruct stopped; [discriminate|].
    destruct e as [|t']; [discriminate|]. injection Hx as ->.
    exists t'. split; [reflexivity|]. split; [reflexivity|].
    rewrite <- filter_final_callbacks. unfold callbacks in *. rewrite Hc.
    now apply Hf.
Qed.

(** ** The panel while a response streams *)

Lemma startsWith_app (s r q : str) :
  startsWith s q = true -> startsWith (s ++ r) q = true.
Proof.
  revert s; induction q as [|y q IH]; intros s.
  - intros _. now destruct (s ++ r).
  - destruct s as [|x s]; simpl; [discriminate|].
    intros H. apply andb_true_iff in H as [-> H]. now apply IH.
Qed.

Lemma includes_app (s r q : str) :
  includes s q = true -> includes (s ++ r) q = true.
Proof.
  induction s as [|x s IH]; cbn [includes app].
  - rewrite orb_false_r. intros H. destruct q; [|discriminate].
    destruct r; reflexivity.
  - intros H. apply orb_true_iff in H as [H|H].
    + change (x :: s ++ r) with ((x :: s) ++ r).
      now rewrite (startsWith_app (x :: s) r q H).
    + rewrite (IH H). apply orb_true_r.
Qed.

Lemma update_message_compose (id : N) (f g : str -> str) (ms : list Message) :
  update_message id g (update_message id f ms)
  = update_message id (fun t => g (f t)) ms.
Proof.
  induction ms as [|m ms IH]; [reflexivity|]. simpl.
  destruct (msg_id m =? id) eqn:E; simpl; rewrite E; [reflexivity|].
  now rewrite IH.
Qed.

Lemma update_message_ext (id : N) (f g : str -> str) (ms : list Message) :
  (forall t, f t = g t) -> update_message id f ms = update_message id g ms.
Proof.
  intros H. induction ms as [|m ms IH]; [reflexivity|]. simpl.
  now rewrite H, IH.
Qed.

Lemma update_message_id (id : N) (ms : list Message) :
  update_message id (fun t => t) ms = ms.
Proof.
  induction ms as [|[i t s ts] ms IH]; [reflexivity|]. simpl.
  destruct (i =? id); [reflexivity|]. now rewrite IH.
Qed.

Lemma onText_fields (id : N) (t : str) (p : panel) :
  onText id t p
  = Panel (update_message id (fun u => u ++ t) (messages p))
          (isResponding p)
          (isGeneratingWorkflow p
           || includes (fullResponse p ++ t) (js "```json"))
          (fullResponse p ++ t)
          (workflow p)
          (calls p
           ++ (if negb (isGeneratingWorkflow p)
                  && includes (fullResponse p ++ t) (js "```json")
               then [ToastMessage (js "Editing Workflow")] else [])).
Proof.
  destruct p as [ms resp gen fr wf cs]. unfold onText.
  cbn [set_fullResponse fullResponse isGeneratingWorkflow messages
       isResponding workflow calls].
  destruct (includes (fr ++ t) (js "```json")), gen; cbn;
    rewrite ?app_nil_r; reflexivity.
Qed.

Lemma stream_texts_fields :
  forall (aiResponseId : N) (texts : list str) (p : panel),
    let p' := stream_texts aiResponseId texts p in
    fullResponse p' = fullResponse p ++ List.concat texts
    /\ messages p'
       = update_message aiResponseId (fun t => t ++ List.concat texts)
                        (messages p)
    /\ isResponding p' = isResponding p
    /\ workflow p' = workflow p
    /\ isGeneratingWorkflow p'
       = isGeneratingWorkflow p || editing_notice texts p
    /\ calls p'
       = calls p ++ (if editing_notice texts p
                     then [ToastMessage (js "Editing Workflow")] else []).
Proof.
  intros id texts. unfold stream_texts, editing_notice.
  induction texts as [|t ts IH]; intros p; cbn [fold_left List.concat].
  - cbn. rewrite andb_false_r. cbn [andb]. rewrite orb_false_r, !app_nil_r.
    split; [reflexivity|]. split; [|repeat split; reflexivity].
    rewrite <- (update_message_id id (messages p)) at 1.
    apply update_message_ext. intros u. now rewrite app_nil_r.
  - specialize (IH (onText id t p)). cbn zeta in IH.
    destruct IH as (F & M & R & W & G & C).
    rewrite F, M, R, W, G, C. clear F M R W G C.
    change (Nat.eqb (List.length (t :: ts)) 0) with false.
    cbn [negb]. rewrite andb_true_r.
    rewrite onText_fields.
    cbn [fullResponse isGeneratingWorkflow messages isResponding workflow
         calls].
    rewrite update_message_compose, <- !app_assoc.
    split; [reflexivity|].
    split; [apply update_message_ext; intros u; now rewrite app_assoc|].
    split; [reflexivity|]. split; [reflexivity|].
    assert (D : ts = [] \/ Nat.eqb (List.length ts) 0 = false)
      by (destruct ts; [now left|now right]).
    destruct (isGeneratingWorkflow p); cbn [negb andb orb app];
      [split; [reflexivity|now rewrite app_nil_r]|].
    destruct (includes (fullResponse p ++ t) (js "```json")) eqn:I.
    + pose proof (includes_app _ (List.concat ts) _ I) as I'.
      rewrite <- app_assoc in I'. rewrite I'. cbn [negb andb orb app].
      split; reflexivity.
    + cbn [negb andb orb app].
      destruct D as [E|E]; rewrite E;
        cbn [negb andb orb app List.concat List.length Nat.eqb];
        rewrite ?app_nil_r, ?I; cbn [app]; rewrite ?app_nil_r;
        split; reflexivity.
Qed.

(** X8. While a response streams, after any number of onText calls: the
    accumulated response is the texts joined in order; the first message with
    the placeholder's id got exactly those texts appended and no other
    message changed; the responding flag and the workflow are untouched; and
    the notice that a workflow is being edited is shown at most once, exactly
    when the flag was not yet set and the accumulated response contains the
    opening fence of a JSON block (however the fence was cut into pieces). *)
Theorem onText_accumulates :
  forall (aiResponseId : N) (texts : list str) (p : panel),
    let p' := stream_texts aiResponseId texts p in
    fullResponse p' = fullResponse p ++ List.concat texts
    /\ messages p'
       = update_message aiResponseId (fun t => t ++ List.concat texts)
                        (messages p)
    /\ isResponding p' = isResponding p
    /\ workflow p' = workflow p
    /\ isGeneratingWorkflow p'
       = isGeneratingWorkflow p || editing_notice texts p
    /\ calls p'
       = calls p ++ (if editing_notice texts p
                     then [ToastMessage (js "Editing Workflow")] else []).
Proof. exact stream_texts_fields. Qed.

Example onText_fence_in_pieces :
  let p' := stream_texts 2 fenced_texts fresh_panel in
  calls p' = [ToastMessage (js "Editing Workflow")]
  /\ isGeneratingWorkflow p' = true
  /\ messages p'
     = [Msg 1 (js "add a webhook node") FromUser 0;
        Msg 2 (List.concat fenced_texts) FromCopilot 1].
Proof. vm_compute. repeat split. Qed.

(** ** A turn of the conversation: what is sent *)

Lemma slice_0_neg1_snoc (A : Type) (l : list A) (x : A) :
  HandleSendMessage.slice_0_neg1 (l ++ [x]) = l.
Proof.
  unfold HandleSendMessage.slice_0_neg1.
  rewrite length_app, Nat.add_sub. apply firstn_length_app.
Qed.

(** X9. The history sent with a message is made of the messages that were
    in the panel before it, without the assistant messages whose text is
    blank, each with its role and its text unchanged: neither the message
    being sent nor the placeholder of the answer is part of it. (Should the
    message being sent itself be a blank assistant message, the cut falls
    one message earlier and the last earlier message is lost.) *)
Theorem history_is_earlier_messages :
  forall (message : Message) (workflowData : json) (aiResponseId now : N)
         (p : panel),
    let o := HandleSendMessage.prepare message workflowData aiResponseId now p in
    let earlier := filter HandleSendMessage.not_empty_ai (messages p) in
    (HandleSendMessage.not_empty_ai message = true ->
     HandleSendMessage.out_history o
     = map HandleSendMessage.api_message earlier)
    /\ (HandleSendMessage.not_empty_ai message = false ->
        HandleSendMessage.out_history o
        = map HandleSendMessage.api_message
              (HandleSendMessage.slice_0_neg1 earlier)).
Proof.
  intros message wf id now p. cbn zeta.
  unfold HandleSendMessage.prepare. cbn [HandleSendMessage.out_history].
  unfold HandleSendMessage.conversationHistory.
  rewrite !filter_app.
  change (filter HandleSendMessage.not_empty_ai [Msg id [] FromCopilot now])
    with (@nil Message).
  rewrite app_nil_r. cbn [filter].
  split; intros ->.
  - now rewrite slice_0_neg1_snoc.
  - now rewrite app_nil_r.
Qed.

Lemma history_is_earlier_messages_witness :
  HandleSendMessage.out_history
    (HandleSendMessage.prepare next_message JNull 5 4 earlier_panel)
  = [ChatMsg RUser (js "hi"); ChatMsg RAssistant (js "hello")].
Proof.
  exact (proj1 (history_is_earlier_messages next_message JNull 5 4
                  earlier_panel) eq_refl).
Defined.

Lemma message_object_pair (m : ChatMessage) :
  is_pair (ChatRequestBody.message_object m) m.
Proof.
  destruct m as [[|] c]; eexists; (split; [reflexivity|]); split; reflexivity.
Qed.

Lemma request_object_accepted (m : str) (h : list ChatMessage) :
  m <> [] ->
  CopilotChatRequestDto (Some (ChatRequestBody.request_object m h))
  = Some (ChatRequest m h).
Proof.
  intros Hm. unfold CopilotChatRequestDto, ChatRequestBody.request_object.
  change (obj_get (js "userMessage") ?o) with (Some (JString m)).
  change (obj_get (js "conversationHistory") ?o)
    with (Some (JArray (map ChatRequestBody.message_object h))).
  cbn [parse_string parse_history].
  rewrite (@parse_messages_pairs _ h).
  - destruct m; [contradiction|reflexivity].
  - induction h as [|x h IH]; constructor; [apply message_object_pair|exact IH].
Qed.

(** *** The request body read back *)

Lemma lex_run_app (st : lex_state) (a b : str) :
  lex_run st (a ++ b)
  = match lex_run st a with
    | Some (st', ts) =>
        match lex_run st' b with
        | Some (st'', ts') => Some (st'', ts ++ ts')
        | None => None
        end
    | None => None
    end.
Proof.
  revert st; induction a as [|c a IH]; intros st; cbn [app lex_run].
  - destruct (lex_run st b) as [[st' ts]|]; reflexivity.
  - destruct (step st c) as [[st' ts]|]; [|reflexivity].
    rewrite IH. destruct (lex_run st' a) as [[st'' ts']|]; [|reflexivity].
    destruct (lex_run st'' b) as [[st3 ts3]|]; [|reflexivity].
    now rewrite app_assoc.
Qed.

Lemma lexes_app (a b : str) (ts ts' : list token) :
  lexes a ts -> lexes b ts' -> lexes (a ++ b) (ts ++ ts').
Proof.
  unfold lexes. intros Ha Hb. now rewrite lex_run_app, Ha, Hb.
Qed.

Lemma lexes_quote (s : str) : lexes (quote s) [TString s].
Proof.
  unfold lexes, quote.
  rewrite (@lex_run_silent LStart (LString []) 34) by reflexivity.
  apply lex_run_quote_body.
Qed.

Lemma lexes_lex (a : str) (ts : list token) : lexes a ts -> lex a = Some ts.
Proof.
  unfold lexes, lex. intros H.
  rewrite <- (app_nil_r a), lex_from_app, H. cbn. now rewrite app_nil_r.
Qed.

Lemma serialize_message (d : nat) (m : ChatMessage) :
  serialize 0 d (ChatRequestBody.message_object m)
  = [123] ++ quote (js "role") ++ [58] ++ quote (role_name (cm_role m))
    ++ [44] ++ quote (js "content") ++ [58] ++ quote (cm_content m) ++ [125].
Proof.
  destruct m as [r c]. unfold ChatRequestBody.message_object.
  cbn [serialize map join fst snd Nat.eqb cm_role cm_content].
  rewrite <- !app_assoc. cbn [app].
  destruct r; reflexivity.
Qed.

Lemma lexes_message (d : nat) (m : ChatMessage) :
  lexes (serialize 0 d (ChatRequestBody.message_object m)) (message_tokens m).
Proof.
  rewrite serialize_message. unfold message_tokens.
  apply (@lexes_app [123] _ [TLBrace]); [reflexivity|].
  apply (@lexes_app _ _ [TString (js "role")]); [apply lexes_quote|].
  apply (@lexes_app [58] _ [TColon]); [reflexivity|].
  apply (@lexes_app _ _ [TString (role_name (cm_role m))]);
    [apply lexes_quote|].
  apply (@lexes_app [44] _ [TComma]); [reflexivity|].
  apply (@lexes_app _ _ [TString (js "content")]); [apply lexes_quote|].
  apply (@lexes_app [58] _ [TColon]); [reflexivity|].
  apply (@lexes_app _ [125] [TString (cm_content m)] [TRBrace]);
    [apply lexes_quote|reflexivity].
Qed.

Lemma lexes_elements (d : nat) (h : list ChatMessage) :
  lexes (join [44] (map (serialize 0 d)
                        (map ChatRequestBody.message_object h)))
        (elements_tokens h).
Proof.
  induction h as [|m h IH]; [reflexivity|].
  destruct h as [|m' h]; [apply lexes_message|].
  change (lexes (serialize 0 d (ChatRequestBody.message_object m) ++ [44]
                 ++ join [44] (map (serialize 0 d)
                                   (map ChatRequestBody.message_object
                                        (m' :: h))))
                (message_tokens m ++ [TComma] ++ elements_tokens (m' :: h))).
  apply lexes_app; [apply lexes_message|].
  apply lexes_app; [reflexivity|exact IH].
Qed.

Lemma serialize_request (m : str) (h : list ChatMessage) :
  ChatRequestBody.request_body m h
  = [123] ++ quote (js "userMessage") ++ [58] ++ quote m ++ [44]
    ++ quote (js "conversationHistory") ++ [58] ++ [91]
    ++ join [44] (map (serialize 0 2)
                      (map ChatRequestBody.message_object h))
    ++ [93; 125].
Proof.
  unfold ChatRequestBody.request_body, ChatRequestBody.request_object,
    JSON_stringify.
  cbn [serialize map join fst snd Nat.eqb].
  destruct (map (serialize 0 2) (map ChatRequestBody.message_object h))
    as [|x l] eqn:E.
  - cbn [join app]. rewrite <- !app_assoc. reflexivity.
  - rewrite <- !app_assoc. cbn [app]. rewrite <- ?app_assoc. reflexivity.
Qed.

Lemma lexes_request (m : str) (h : list ChatMessage) :
  lexes (ChatRequestBody.request_body m h) (request_tokens m h).
Proof.
  rewrite serialize_request. unfold request_tokens.
  apply (@lexes_app [123] _ [TLBrace]); [reflexivity|].
  apply (@lexes_app _ _ [TString (js "userMessage")]); [apply lexes_quote|].
  apply (@lexes_app [58] _ [TColon]); [reflexivity|].
  apply (@lexes_app _ _ [TString m]); [apply lexes_quote|].
  apply (@lexes_app [44] _ [TComma]); [reflexivity|].
  apply (@lexes_app _ _ [TString (js "conversationHistory")]);
    [apply lexes_quote|].
  apply (@lexes_app [58] _ [TColon]); [reflexivity|].
  apply (@lexes_app [91] _ [TLBracket]); [reflexivity|].
  apply lexes_app; [apply lexes_elements|reflexivity].
Qed.

Lemma parse_message_tokens (f : nat) (m : ChatMessage) (r : list token) :
  parse_value (4 + f) (message_tokens m ++ r)
  = POk (ChatRequestBody.message_object m, r).
Proof. destruct m as [[|] c]; reflexivity. Qed.

Lemma elements_tokens_cons (m : ChatMessage) (h : list ChatMessage) :
  elements_tokens (m :: h)
  = message_tokens m
    ++ match h with [] => [] | _ => TComma :: elements_tokens h end.
Proof. destruct h; cbn [elements_tokens]; now rewrite ?app_nil_r. Qed.

Lemma parse_elements_tokens (h : list ChatMessage) :
  forall (m : ChatMessage) (f : nat) (acc : list json) (r : list token),
    (List.length h <= f)%nat ->
    parse_elements (5 + f) (elements_tokens (m :: h) ++ TRBracket :: r) acc
    = POk (JArray (rev acc ++ map ChatRequestBody.message_object (m :: h)), r).
Proof.
  induction h as [|m' h IH]; intros m f acc r Hf;
    rewrite elements_tokens_cons, <- app_assoc;
    change (5 + f)%nat with (S (4 + f)); cbn [parse_elements];
    rewrite parse_message_tokens; cbn [app].
  - reflexivity.
  - destruct f as [|f]; [simpl in Hf; lia|].
    change (4 + S f)%nat with (5 + f)%nat.
    rewrite IH by (simpl in Hf; lia).
    cbn [rev map]. now rewrite <- app_assoc.
Qed.

Lemma elements_tokens_length (h : list ChatMessage) :
  (List.length h <= List.length (elements_tokens h))%nat.
Proof.
  induction h as [|m h IH]; [apply Nat.le_refl|].
  rewrite elements_tokens_cons, length_app.
  destruct h; simpl in *; lia.
Qed.

Lemma parse_request_tokens (m : str) (h : list ChatMessage) (F : nat) :
  (8 + List.length h <= F)%nat ->
  parse_value (S F) (request_tokens m h)
  = POk (ChatRequestBody.request_object m h, []).
Proof.
  intros HF. unfold request_tokens. destruct h as [|x h].
  - do 4 (destruct F as [|F]; [simpl in HF; lia|]). reflexivity.
  - assert (Hf : exists f, F = (3 + (5 + f))%nat /\ (List.length h <= f)%nat)
      by (exists (F - 8)%nat; simpl in HF; lia).
    destruct Hf as (f & -> & Hf).
    pose proof (@parse_elements_tokens h x f [] [TRBrace] Hf) as E.
    rewrite elements_tokens_cons in E |- *.
    unfold message_tokens at 1 in E. unfold message_tokens at 1.
    remember (5 + f)%nat as g eqn:Eg.
    remember (match h with
              | [] => []
              | _ :: _ => TComma :: elements_tokens h
              end) as rest eqn:Er.
    cbn [app] in E |- *.
    change (S (3 + g)) with (S (S (S (S g)))).
    cbn [parse_value parse_members].
    change (TRBracket :: [TRBrace]) with [TRBracket; TRBrace] in E.
    rewrite E. reflexivity.
Qed.

Lemma parse_request_body (m : str) (h : list ChatMessage) :
  JSON_parse (ChatRequestBody.request_body m h)
  = Some (ChatRequestBody.request_object m h).
Proof.
  unfold JSON_parse. rewrite (lexes_lex (lexes_request m h)).
  unfold parse_tokens. rewrite Nat.add_1_r, parse_request_tokens;
    [reflexivity|].
  unfold request_tokens. rewrite !length_app.
  pose proof (elements_tokens_length h). simpl. lia.
Qed.

(** X10. Whatever the panel holds and whatever is typed (quotes, line
    breaks, lone surrogates included): the body of the request the client
    writes, read back with JSON.parse, is accepted by the schema of the
    handler, and the payload is exactly the message with its workflow context
    and the history the panel computed. The panel never causes the invalid
    payload error. *)
Theorem client_request_accepted :
  forall (message : Message) (workflowData : json) (aiResponseId now : N)
         (p : panel),
    let o := HandleSendMessage.prepare message workflowData aiResponseId now p in
    CopilotChatRequestDto
      (JSON_parse (ChatRequestBody.request_body
                     (HandleSendMessage.out_message o)
                     (HandleSendMessage.out_history o)))
    = Some (ChatRequest (HandleSendMessage.out_message o)
                        (HandleSendMessage.out_history o)).
Proof.
  intros message wf id now p o.
  rewrite parse_request_body. apply request_object_accepted.
  subst o. unfold HandleSendMessage.prepare, HandleSendMessage.messageWithContext.
  cbn [HandleSendMessage.out_message]. discriminate.
Qed.

(** ** A turn of the conversation: from the provider to the panel *)

Lemma run_callbacks (ops : canvas_ops) (id : N) (trace : list event) :
  forall p,
    HandleSendMessage.run ops id trace p
    = HandleSendMessage.run ops id (callbacks trace) p.
Proof.
  induction trace as [|e trace IH]; intros p; [reflexivity|].
  destruct e as [c|er| |w|]; cbn [callbacks filter is_callback
                                  HandleSendMessage.run
                                  HandleSendMessage.callback];
    try apply IH.
  - destruct c as [[| | |t| |]|]; try reflexivity. apply IH.
Qed.

Lemma run_texts (ops : canvas_ops) (id : N) (ts : list str)
      (rest : list event) :
  forall p,
    HandleSendMessage.run ops id
      (map (fun t => OnText (Some (JString t))) ts ++ rest) p
    = HandleSendMessage.run ops id rest (stream_texts id ts p).
Proof.
  induction ts as [|t ts IH]; intros p; [reflexivity|].
  cbn [map app HandleSendMessage.run HandleSendMessage.callback].
  apply IH.
Qed.

Lemma update_message_fresh (id : N) (f : str -> str) (ms : list Message)
      (t : str) (s : sender) (ts : N) (rest : list Message) :
  Forall (fun m => msg_id m <> id) ms ->
  update_message id f (ms ++ Msg id t s ts :: rest)
  = ms ++ Msg id (f t) s ts :: rest.
Proof.
  induction 1 as [|m ms Hm _ IH]; cbn [app update_message msg_id msg_text
                                        msg_sender msg_timestamp].
  - now rewrite N.eqb_refl.
  - apply N.eqb_neq in Hm. now rewrite Hm, IH.
Qed.

Lemma importWorkflowFromAI_fields (ops : canvas_ops) (w : json) (p : panel) :
  let p' := importWorkflowFromAI ops w p in
  messages p' = messages p /\ isResponding p' = isResponding p
  /\ isGeneratingWorkflow p' = isGeneratingWorkflow p
  /\ fullResponse p' = fullResponse p.
Proof.
  unfold importWorkflowFromAI.
  destruct (reset_throws ops); [repeat split|].
  destruct (initialize_throws ops w); [repeat split|].
  destruct (get_prop w (js "name")) as [[name|]|]; [|repeat split..].
  destruct (truthy (Some name)); repeat split.
Qed.

Lemma onComplete_fields (ops : canvas_ops) (p : panel) :
  let p' := onComplete ops p in
  messages p' = messages p /\ isResponding p' = false
  /\ isGeneratingWorkflow p' = false
  /\ fullResponse p' = fullResponse p.
Proof.
  unfold onComplete.
  match goal with
  | |- context [extractWorkflowJson_call ?r ?q] =>
      destruct (extractWorkflowJson_call_spec r q) as (errs & -> & _)
  end.
  destruct (extractWorkflowJson _) as [w|].
  - match goal with
    | |- context [importWorkflowFromAI ops w ?q] =>
        destruct (importWorkflowFromAI_fields ops w q) as (M & R & G & F);
        set (r := importWorkflowFromAI ops w q) in *
    end.
    cbn zeta. cbn in M, R, G, F.
    destruct (isGeneratingWorkflow r) eqn:E; cbn; auto.
  - cbn zeta.
    match goal with
    | |- context [if isGeneratingWorkflow ?q then _ else _] =>
        destruct (isGeneratingWorkflow q) eqn:E; cbn; auto
    end.
Qed.

Lemma onError_fields (id : N) (p : panel) :
  let p' := onError id p in
  messages p' = update_message id (fun _ => error_text) (messages p)
  /\ isResponding p' = false /\ isGeneratingWorkflow p' = false
  /\ fullResponse p' = fullResponse p /\ workflow p' = workflow p
  /\ calls p' = calls p ++ [ConsoleError (js "Claude API error:")].
Proof.
  destruct p as [ms resp gen fr wf cs]. unfold onError.
  destruct gen; cbn; repeat split.
Qed.

Lemma messageWithContext_nonempty (w : json) (t : str) :
  HandleSendMessage.messageWithContext w t <> [].
Proof. discriminate. Qed.

(** X11. A whole turn, from the panel through the handler and back. When
    the server receives the request the panel wrote, the user has a usable
    key, no frame is cut between reads and the placeholder's id is new: the
    provider is asked with the history of the panel followed by the message
    in its workflow context, and when the turn is over the panel holds the
    earlier messages, the message sent, and the placeholder whose text is the
    provider's text deltas joined in order (when the provider stream was
    exhausted) or the apology (when it failed); both flags are down. *)
Theorem turn_shows_the_stream :
  forall (svc : credential_services) (anthropic : provider)
         (ops : canvas_ops) (message : Message) (workflowData : json)
         (aiResponseId now : N) (p : panel) (req : request) (apiKey : str)
         (status : N) (groups : list (list str)) (e : ending),
    let o := HandleSendMessage.prepare message workflowData aiResponseId now p in
    body req = JSON_parse (ChatRequestBody.request_body
                             (HandleSendMessage.out_message o)
                             (HandleSendMessage.out_history o)) ->
    fst (getAnthropicApiKey svc (user req) initial) = Ok apiKey ->
    List.concat groups
    = writes (res (snd (chatWithCopilot svc anthropic req initial))) ->
    Forall (fun m => msg_id m <> aiResponseId) (messages p ++ [message]) ->
    let s := anthropic apiKey
               (HandleSendMessage.out_history o
                ++ [ChatMsg RUser (HandleSendMessage.out_message o)]) in
    exists p',
      HandleSendMessage.handleSendMessage ops message workflowData
        aiResponseId now
        (FetchResolves
           (Response true status
              (Some (Body (map (@List.concat _) groups) e)))) p
      = Some p'
      /\ messages p'
         = messages p
           ++ [message; Msg aiResponseId (answer_text s) FromCopilot now]
      /\ isResponding p' = false
      /\ isGeneratingWorkflow p' = false.
Proof.
  intros svc anthropic ops message wf id now p req apiKey status groups e o
         Hb Hk Hg Hfresh s.
  assert (Hv : CopilotChatRequestDto (body req)
               = Some (ChatRequest (HandleSendMessage.out_message o)
                                   (HandleSendMessage.out_history o))).
  { rewrite Hb, parse_request_body. apply request_object_accepted.
    apply messageWithContext_nonempty. }
  rewrite (handler_writes svc anthropic req Hv Hk) in Hg.
  cbn [conversationHistory userMessage] in Hg. fold s in Hg.
  pose proof (@callbacks_of_frames true status groups e _ _
                (terminal_event_final (outcome_of s)) Hg) as Hc.
  unfold HandleSendMessage.handleSendMessage. fold o.
  rewrite run_callbacks, Hc, run_texts.
  destruct (stream_texts_fields id (text_deltas (events s))
              (HandleSendMessage.out_panel o)) as (_ & M & R & _ & _ & _).
  set (q := stream_texts id (text_deltas (events s))
              (HandleSendMessage.out_panel o)) in *.
  assert (Mq : messages q
               = messages p
                 ++ [message;
                     Msg id (List.concat (text_deltas (events s)))
                         FromCopilot now]).
  { rewrite M. subst o. cbn [HandleSendMessage.prepare
                               HandleSendMessage.out_panel messages].
    rewrite (@update_message_fresh id _ (messages p ++ [message]) []
               FromCopilot now [] Hfresh).
    now rewrite <- app_assoc. }
  unfold answer_text.
  destruct (outcome_of s) as [|t];
    cbn [terminal_event callback_of HandleSendMessage.run
         HandleSendMessage.callback].
  - eexists. split; [reflexivity|].
    destruct (onComplete_fields ops q) as (M' & R' & G' & _).
    rewrite M', Mq. auto.
  - eexists. split; [reflexivity|].
    destruct (onError_fields id q) as (M' & R' & G' & _).
    rewrite M', Mq. split; [|auto].
    change (messages p ++ [message; ?x])
      with (messages p ++ [message] ++ [x]).
    rewrite app_assoc.
    rewrite (@update_message_fresh id _ (messages p ++ [message]) _
               FromCopilot now [] Hfresh).
    now rewrite <- app_assoc.
Qed.

Lemma turn_shows_the_stream_witness :
  exists p',
    HandleSendMessage.handleSendMessage working_canvas next_message JNull 5 4
      (FetchResolves
         (Response true 200
            (Some (Body (map (@List.concat _) sample_groups) Done))))
      earlier_panel
    = Some p'
    /\ messages p'
       = messages earlier_panel
         ++ [next_message; Msg 5 error_text FromCopilot 4]
    /\ isResponding p' = false
    /\ isGeneratingWorkflow p' = false.
Proof.
  refine (@turn_shows_the_stream one_credential sample_provider working_canvas
            next_message JNull 5 4 earlier_panel turn_request
            (js "sk-ant-key") 200 sample_groups Done
            eq_refl eq_refl _ _).
  - vm_compute. reflexivity.
  - repeat constructor; discriminate.
Defined.

(** ** Completion: the workflow is replaced *)

Lemma extractWorkflowJson_sound (responseText : str) (w : json) :
  extractWorkflowJson responseText = Some w ->
  exists content,
    jsonString responseText = Some content
    /\ JSON_parse content = Some w /\ object_with_nodes_array w.
Proof.
  unfold extractWorkflowJson.
  destruct (jsonString responseText) as [content|]; [|discriminate].
  destruct (JSON_parse content) as [v|] eqn:E; [|discriminate].
  destruct (is_workflow v) eqn:W; [|discriminate].
  intros H. injection H as <-. exists content.
  split; [reflexivity|]. split; [exact E|]. now apply is_workflow_spec.
Qed.

Ltac panel_fields :=
  cbv beta iota zeta delta
      [emit set_responding set_workflow set_generating fullResponse messages
       isResponding isGeneratingWorkflow workflow calls].

Ltac panel_calls :=
  rewrite <- ?app_assoc; eexists; (split; [reflexivity|]).

Ltac in_calls :=
  cbn [In app filter replaces]; intuition (try discriminate; try reflexivity).

Lemma onComplete_imports :
  forall (ops : canvas_ops) (p : panel) (w : json),
    extractWorkflowJson (fullResponse p) = Some w ->
    let p' := onComplete ops p in
    (exists content,
        jsonString (fullResponse p) = Some content
        /\ JSON_parse content = Some w /\ object_with_nodes_array w)
    /\ (exists new,
           calls p' = calls p ++ new
           /\ import_outcome ops w new)
    /\ messages p' = messages p
    /\ isResponding p' = false
    /\ isGeneratingWorkflow p' = false.
Proof.
  intros ops p w H p'.
  split; [now apply extractWorkflowJson_sound|].
  split; [|destruct (onComplete_fields ops p) as (M & R & G & _); auto].
  subst p'. unfold import_outcome, success_notice, failure_notice.
  destruct p as [ms resp gen fr wf cs]. cbn [fullResponse] in H.
  unfold onComplete. panel_fields.
  match goal with
  | |- context [extractWorkflowJson_call ?r ?q] =>
      destruct (extractWorkflowJson_call_spec r q) as (errs & -> & He)
  end.
  rewrite H in He |- *. destruct He as [->|[_ He]]; [|discriminate He].
  panel_fields. rewrite app_nil_r.
  unfold importWorkflowFromAI.
  destruct (reset_throws ops).
  { destruct gen; panel_fields; panel_calls; in_calls. }
  destruct (initialize_throws ops w).
  { destruct gen; panel_fields; panel_calls; in_calls. }
  destruct (get_prop w (js "name")) as [[name|]|];
    [destruct (truthy (Some name))| |];
    destruct gen; panel_fields; panel_calls; in_calls.
Qed.

(** X12. When the response holds a workflow (its last closed block parses to
    an object whose nodes field is an array), completion replaces the
    canvas: [resetWorkspace] is called and then [initializeWorkspace] with
    exactly that workflow, once each and in this order, and the success
    notice is shown. If the reset throws, [initializeWorkspace] is not
    called; if either throws, the failure notice is shown instead of the
    success notice. Whatever happens, the messages are untouched and both
    flags are down afterwards. *)
Theorem completion_imports_workflow :
  forall (ops : canvas_ops) (p : panel) (w : json),
    extractWorkflowJson (fullResponse p) = Some w ->
    let p' := onComplete ops p in
    (exists content,
        jsonString (fullResponse p) = Some content
        /\ JSON_parse content = Some w /\ object_with_nodes_array w)
    /\ (exists new,
           calls p' = calls p ++ new
           /\ import_outcome ops w new)
    /\ messages p' = messages p
    /\ isResponding p' = false
    /\ isGeneratingWorkflow p' = false.
Proof. exact onComplete_imports. Qed.

Lemma completion_imports_workflow_witness :
  (exists new,
      calls (onComplete working_canvas (panel_after two_blocks)) = new
      /\ filter replaces new
         = [ResetWorkspace;
            InitializeWorkspace (JObject [(js "nodes", JArray [])])]
      /\ In success_notice new)
  /\ (exists new,
         calls (onComplete failing_canvas (panel_after two_blocks)) = new
         /\ In failure_notice new /\ ~ In success_notice new).
Proof.
  assert (E : extractWorkflowJson (fullResponse (panel_after two_blocks))
              = Some (JObject [(js "nodes", JArray [])]))
    by (vm_compute; reflexivity).
  destruct (@completion_imports_workflow working_canvas
              (panel_after two_blocks) _ E) as (_ & (new & C & H) & _).
  destruct (@completion_imports_workflow failing_canvas
              (panel_after two_blocks) _ E) as (_ & (new' & C' & H') & _).
  split.
  - exists new. split; [exact C|]. split; [exact (proj1 H)|].
    exact (proj1 (proj2 H)).
  - exists new'. split; [exact C'|]. exact (proj2 H').
Defined.

(** ** The server: the response, operation by operation *)

Lemma relay_exact (req : request) (evs : list stream_event) :
  forall st,
    relay req evs st
    = (Ok tt, State (res st ++ flat_map (delta_ops req) (text_deltas evs))
                    (logged st)).
Proof.
  induction evs as [|ev evs IH]; intros [r l]; cbn [relay text_deltas flat_map].
  - cbn. now rewrite app_nil_r.
  - destruct ev as [[t|]|]; cbn [text_deltas flat_map]; try apply IH.
    assert (D : delta_ops req t
                = Write (frame (EvText t))
                  :: (if has_flush req then [Flush] else []))
      by reflexivity.
    rewrite D. unfold bind, on_res. cbn [res logged].
    destruct (has_flush req); cbn [ret res logged]; rewrite IH;
      cbn [res logged]; rewrite <- !app_assoc; reflexivity.
Qed.

(** X13. For an accepted request with a usable key the handler returns, and
    the response got exactly: the SSE head; for each text delta of the
    provider, in order, its frame followed by a flush when the response can
    flush (and by nothing otherwise); the terminal frame; the end. Events of
    the provider that are not text deltas leave no trace. The log gets one
    entry when the provider stream failed and none when it was exhausted. *)
Theorem handler_trace_exact :
  forall (svc : credential_services) (anthropic : provider) (req : request)
         (payload : CopilotChatRequest) (apiKey : str),
    CopilotChatRequestDto (body req) = Some payload ->
    fst (getAnthropicApiKey svc (user req) initial) = Ok apiKey ->
    let s := anthropic apiKey (conversationHistory payload
                               ++ [ChatMsg RUser (userMessage payload)]) in
    chatWithCopilot svc anthropic req initial
    = (Ok tt,
       State (WriteHead 200 (sse_headers req)
              :: flat_map (delta_ops req) (text_deltas (events s))
              ++ [Write (frame (terminal_event (outcome_of s))); End])
             (streaming_log (outcome_of s))).
Proof.
  intros svc anthropic req payload apiKey Hv Hk s.
  pose proof (getAnthropicApiKey_state svc (user req) initial) as Hst.
  destruct (getAnthropicApiKey svc (user req) initial) as [r st0] eqn:Ek.
  simpl in Hk, Hst. subst r st0.
  unfold chatWithCopilot, catch, bind, of_option. rewrite Hv. cbn [ret].
  rewrite Ek. unfold on_res at 1. cbn [initial res logged app].
  unfold streaming, bind. fold s. rewrite relay_exact. cbn [res logged].
  destruct (outcome_of s) as [|t];
    cbn [on_res logger_error res logged terminal_event streaming_log app];
    rewrite <- !app_assoc; reflexivity.
Qed.

Lemma handler_trace_exact_witness :
  chatWithCopilot one_credential sample_provider sample_request initial
  = (Ok tt,
     State [WriteHead 200 (sse_headers sample_request);
            Write (frame (EvText (js "Sure"))); Flush;
            Write (frame (EvText (js ", done."))); Flush;
            Write (frame (EvError (js "overloaded"))); End]
           [js "Anthropic streaming error: overloaded"]).
Proof.
  exact (@handler_trace_exact one_credential sample_provider sample_request
           (ChatRequest (js "add a webhook node") []) (js "sk-ant-key")
           eq_refl eq_refl).
Defined.

(** ** The discussion: expanding and collapsing JSON blocks *)

Lemma of_uint_no_dash (u : Decimal.uint) : ~ In 45 (Js.of_uint u).
Proof.
  induction u; cbn [Js.of_uint In]; intros H;
    try (destruct H as [H|H]; [discriminate|tauto]); exact H.
Qed.

Lemma of_uint_inj (u v : Decimal.uint) :
  Js.of_uint u = Js.of_uint v -> u = v.
Proof.
  revert v; induction u; intros v; destruct v; cbn [Js.of_uint];
    intros H; try discriminate; try reflexivity;
    injection H as H; f_equal; now apply IHu.
Qed.

Lemma of_N_inj (n m : N) : Js.of_N n = Js.of_N m -> n = m.
Proof.
  unfold Js.of_N. intros H. apply of_uint_inj in H.
  rewrite <- (DecimalN.Unsigned.of_to n), <- (DecimalN.Unsigned.of_to m).
  now rewrite H.
Qed.

Lemma app_sep_inj (A : Type) (x : A) (a a' b b' : list A) :
  ~ In x b -> ~ In x b' -> a ++ x :: b = a' ++ x :: b' -> a = a' /\ b = b'.
Proof.
  intros Hb Hb'. revert a'; induction a as [|y a IH]; intros [|y' a'];
    cbn [app]; intros H.
  - injection H as ->. auto.
  - injection H as <- ->. elim Hb. apply in_or_app. right. now left.
  - injection H as -> <-. elim Hb'. apply in_or_app. right. now left.
  - injection H as -> H. destruct (IH _ H) as [-> ->]. auto.
Qed.

Lemma block_key_inj (id id' : str) (i i' : nat) :
  block_key id i = block_key id' i' -> id = id' /\ i = i'.
Proof.
  unfold block_key. cbn [app]. intros H.
  apply app_sep_inj in H as [-> H]; try apply of_uint_no_dash.
  split; [reflexivity|]. apply of_N_inj in H. now apply Nat2N.inj.
Qed.

(** X14. While the assistant is responding every JSON block shows expanded,
    whatever was toggled. Otherwise a toggle flips the block it names and
    leaves every other block, of this message or of any other, as it was:
    the keys built from a message id and a part index never collide. *)
Theorem toggle_flips_one_block :
  forall (c : component) (messageId : str) (partIndex : nat),
    let c' := toggleJsonExpansion messageId partIndex c in
    (responding c = true ->
     forall id i, isJsonExpanded c' id i = true)
    /\ (responding c = false ->
        isJsonExpanded c' messageId partIndex
        = negb (isJsonExpanded c messageId partIndex)
        /\ forall id i,
            (id, i) <> (messageId, partIndex) ->
            isJsonExpanded c' id i = isJsonExpanded c id i).
Proof.
  intros [m r] id0 i0 c'. subst c'.
  unfold toggleJsonExpansion, isJsonExpanded.
  cbn [responding expandedJsonBlocks lookup_key].
  split; intros ->; [reflexivity|]. split.
  - now rewrite Js_eqb_refl.
  - intros id i Hne. rewrite Js_eqb_neq; [reflexivity|].
    intros E. apply block_key_inj in E as [-> ->]. now apply Hne.
Qed.

Lemma toggle_flips_one_block_witness :
  isJsonExpanded (toggleJsonExpansion (js "m1") 0 sample_component)
                 (js "m1") 0 = false
  /\ isJsonExpanded (toggleJsonExpansion (js "m1") 1 sample_component)
                    (js "m1") 0 = true.
Proof.
  split.
  - exact (proj1 (proj2 (toggle_flips_one_block sample_component (js "m1") 0)
                    eq_refl)).
  - refine (proj2 (proj2 (toggle_flips_one_block sample_component (js "m1") 1)
                     eq_refl) (js "m1") 0%nat _).
    intros E. discriminate E.
Defined.

(** ** The discussion: the parts of a message *)

Lemma match_here_lits_inv (q : str) (p' : pattern) :
  forall s pos g r,
    match_here (lits q ++ p') s pos g = Some r -> startsWith s q = true.
Proof.
  induction q as [|c q IH]; intros s pos g r; [now destruct s|].
  destruct s as [|x s]; cbn [lits map app match_here startsWith];
    [discriminate|].
  destruct (x =? c); [|discriminate].
  intros H. apply (IH _ _ _ _ H).
Qed.

Lemma search_not_included (q : str) (p' : pattern) (text : str) :
  forall s pos,
    includes s q = false -> search (lits q ++ p') text s pos = None.
Proof.
  induction s as [|x s IH]; intros pos H; cbn [includes] in H;
    apply orb_false_iff in H as [H1 H2]; cbn [search].
  - destruct (match_here (lits q ++ p') [] pos (Groups 0 None))
      as [[e sp]|] eqn:E; [|reflexivity].
    apply match_here_lits_inv in E. congruence.
  - destruct (match_here (lits q ++ p') (x :: s) pos (Groups 0 None))
      as [[e sp]|] eqn:E.
    + apply match_here_lits_inv in E. congruence.
    + now apply IH.
Qed.

Lemma exec_loop_not_included (q : str) (p' : pattern) (text : str)
      (fuel : nat) :
  includes text q = false ->
  exec_loop (S fuel) (lits q ++ p') text 0 = Some [].
Proof.
  intros H. cbn [exec_loop]. unfold exec.
  change (Nat.ltb (List.length text) 0) with false. cbn [skipn].
  now rewrite search_not_included.
Qed.

(** X15. A message that does not contain the opening fence of a JSON block
    is shown as one text part: its text with the white space around it
    removed or, when nothing is left (the message is empty or blank), the
    text as it is. *)
Theorem plain_message_one_part :
  forall text : str,
    includes text fence = false ->
    parseMessageContent text
    = Some [Part PText (match trim text with [] => text | t => t end)].
Proof.
  intros text H. unfold parseMessageContent, completedJsonRegex,
    incompleteJsonRegex.
  change fenced_block
    with (lits fence ++ [AStar CSpace; AChar 10; AOpen; ALazy CAny; AClose;
                         AChar 10] ++ lits (js "```")).
  change fence_start with (lits fence ++ [AStar CSpace; AChar 10]).
  rewrite !exec_loop_not_included by exact H.
  cbn [map incomplete_of filter app sort_blocks fold_right blocks_loop].
  unfold slice_from. cbn [skipn].
  destruct text as [|c text]; [reflexivity|].
  change (Nat.ltb 0 (List.length (c :: text))) with true. cbn iota.
  destruct (trim (c :: text)); reflexivity.
Qed.

Lemma plain_message_one_part_witness :
  parseMessageContent (js "  No change needed. ")
  = Some [Part PText (js "No change needed.")].
Proof.
  exact (plain_message_one_part (js "  No change needed. ") eq_refl).
Defined.

(** *** The matcher, step by step *)

Ltac span_eq :=
  repeat match goal with
         | |- Some _ = Some _ => apply f_equal
         | |- (_, _) = (_, _) => apply f_equal2
         end;
  try reflexivity; try lia.

Lemma match_here_star_cons (k : class) (p' : pattern) (x : N) (s : str)
      (pos : nat) (g : groups) :
  match_here (AStar k :: p') (x :: s) pos g
  = if in_class k x
    then match match_here (AStar k :: p') s (S pos) g with
         | Some r => Some r
         | None => match_here p' (x :: s) pos g
         end
    else match_here p' (x :: s) pos g.
Proof. reflexivity. Qed.

Lemma match_here_star_nil (k : class) (p' : pattern) (pos : nat) (g : groups) :
  match_here (AStar k :: p') [] pos g = match_here p' [] pos g.
Proof. reflexivity. Qed.

Lemma match_here_lazy (k : class) (p' : pattern) (s : str) (pos : nat)
      (g : groups) :
  match_here (ALazy k :: p') s pos g
  = match match_here p' s pos g with
    | Some r => Some r
    | None =>
        match s with
        | x :: s' =>
            if in_class k x then match_here (ALazy k :: p') s' (S pos) g
            else None
        | [] => None
        end
    end.
Proof. destruct s; reflexivity. Qed.

Lemma match_here_open (p' : pattern) (s : str) (pos : nat) (g : groups) :
  match_here (AOpen :: p') s pos g
  = match_here p' s pos (Groups pos (g_span g)).
Proof. reflexivity. Qed.

Lemma match_here_lits (q : str) (p' : pattern) (s : str) :
  forall pos g,
    match_here (lits q ++ p') (q ++ s) pos g
    = match_here p' s (pos + List.length q) g.
Proof.
  induction q as [|c q IH]; intros pos g; cbn [lits map app match_here].
  - now rewrite Nat.add_0_r.
  - rewrite N.eqb_refl. change (map AChar q) with (lits q).
    rewrite IH. cbn [List.length]. now rewrite Nat.add_succ_r.
Qed.

(** After the fence and its line break, content that does not start with
    white space is where the greedy white space gives the line break back. *)
Lemma match_here_fence_break (p' : pattern) (s : str) (pos : nat) (g : groups) :
  no_leading_space s ->
  match_here (AStar CSpace :: AChar 10 :: p') (10 :: s) pos g
  = match_here p' s (S pos) g.
Proof.
  intros Hs. rewrite match_here_star_cons.
  change (in_class CSpace 10) with true. cbn iota.
  assert (E : match_here (AStar CSpace :: AChar 10 :: p') s (S pos) g = None).
  { destruct s as [|c s]; [reflexivity|].
    rewrite match_here_star_cons. cbn [in_class]. cbn in Hs. rewrite Hs.
    cbn [match_here].
    destruct (N.eqb_spec c 10) as [->|]; [discriminate Hs|reflexivity]. }
  rewrite E. cbn [match_here]. reflexivity.
Qed.

(** The lazy group runs to the first line break followed by the closing
    fence: over content without backticks, to its end. *)
Lemma match_here_lazy_body (body post : str) :
  ~ In 96 body ->
  forall pos g,
    match_here (ALazy CAny :: AClose :: AChar 10 :: lits closing)
               (body ++ 10 :: closing ++ post) pos g
    = Some ((pos + List.length body + 4)%nat,
            Some (g_open g, (pos + List.length body)%nat)).
Proof.
  induction body as [|x body IH]; intros Hb pos g; rewrite match_here_lazy.
  - cbn [app List.length match_here lits closing map].
    cbn. rewrite !Nat.add_0_r. span_eq.
  - assert (E : match_here (AClose :: AChar 10 :: lits closing)
                           ((x :: body) ++ 10 :: closing ++ post) pos g
                = None).
    { change (lits closing) with [AChar 96; AChar 96; AChar 96].
      cbn [app match_here]. destruct (x =? 10); [|reflexivity].
      destruct body as [|y body]; [reflexivity|].
      cbn [app match_here].
      destruct (N.eqb_spec y 96) as [->|]; [|reflexivity].
      elim Hb. right. now left. }
    rewrite E. cbn [app in_class].
    rewrite IH by (intros H; apply Hb; now right).
    cbn [List.length]. span_eq.
Qed.

Lemma match_here_closed (body post : str) (pos : nat) :
  no_leading_space body -> body <> [] -> ~ In 96 body ->
  match_here fenced_block (fence ++ 10 :: body ++ 10 :: closing ++ post) pos
             (Groups 0 None)
  = Some ((pos + 8 + List.length body + 4)%nat,
          Some ((pos + 8)%nat, (pos + 8 + List.length body)%nat)).
Proof.
  intros Hs Hne Hb.
  change fenced_block with (lits fence ++ after_fence_closed).
  rewrite match_here_lits. unfold after_fence_closed. cbn [app].
  rewrite match_here_fence_break.
  - rewrite match_here_open, match_here_lazy_body by exact Hb.
    cbn [g_open]. change (List.length fence) with 7%nat. span_eq.
  - destruct body; [contradiction|exact Hs].
Qed.

(** *** Searching a text whose backticks are known *)

Lemma search_here (p : pattern) (text s : str) (pos e : nat)
      (sp : option (nat * nat)) :
  match_here p s pos (Groups 0 None) = Some (e, sp) ->
  search p text s pos
  = Some (RMatch pos e (option_map (fun ab => slice text (fst ab) (snd ab)) sp)).
Proof. intros H. destruct s; cbn [search]; now rewrite H. Qed.

Lemma search_absent (c : N) (p' : pattern) (text : str) :
  forall s pos, ~ In c s -> search (AChar c :: p') text s pos = None.
Proof.
  induction s as [|x s IH]; intros pos Hs; cbn [search match_here];
    [reflexivity|].
  destruct (N.eqb_spec x c) as [->|]; [elim Hs; now left|].
  apply IH. intros H. apply Hs. now right.
Qed.

Lemma search_skip (c : N) (p' : pattern) (text pre s : str) :
  ~ In c pre ->
  forall pos,
    search (AChar c :: p') text (pre ++ s) pos
    = search (AChar c :: p') text s (pos + List.length pre).
Proof.
  induction pre as [|x pre IH]; intros Hp pos; cbn [app List.length].
  - now rewrite Nat.add_0_r.
  - cbn [search match_here].
    destruct (N.eqb_spec x c) as [->|]; [elim Hp; now left|].
    rewrite IH by (intros H; apply Hp; now right).
    now rewrite Nat.add_succ_r.
Qed.

Lemma search_head (c : N) (p' : pattern) (text : str) :
  forall s pos m,
    search (AChar c :: p') text s pos = Some m ->
    (pos <= m_index m)%nat /\ nth_error s (m_index m - pos) = Some c.
Proof.
  induction s as [|x s IH]; intros pos m; cbn [search match_here];
    [discriminate|].
  destruct (N.eqb_spec x c) as [->|].
  - destruct (match_here p' s (S pos) (Groups 0 None)) as [[e sp]|].
    + intros H. injection H as <-. cbn [m_index].
      rewrite Nat.sub_diag. split; [lia|reflexivity].
    + intros H. apply IH in H as [H1 H2]. split; [lia|].
      replace (m_index m - pos)%nat with (S (m_index m - S pos)) by lia.
      exact H2.
  - intros H. apply IH in H as [H1 H2]. split; [lia|].
    replace (m_index m - pos)%nat with (S (m_index m - S pos)) by lia.
    exact H2.
Qed.

Lemma exec_loop_heads (c : N) (p' : pattern) (text : str) :
  forall fuel lastIndex ms,
    exec_loop fuel (AChar c :: p') text lastIndex = Some ms ->
    Forall (fun m => nth_error text (m_index m) = Some c) ms.
Proof.
  induction fuel as [|fuel IH]; intros li ms; cbn [exec_loop];
    [discriminate|].
  unfold exec. destruct (Nat.ltb (List.length text) li);
    [intros H; injection H as <-; constructor|].
  destruct (search (AChar c :: p') text (skipn li text) li) as [m|] eqn:E;
    [|intros H; injection H as <-; constructor].
  destruct (exec_loop fuel (AChar c :: p') text (m_end m)) as [ms'|] eqn:E';
    [|discriminate].
  intros H. injection H as <-. constructor; [|now apply IH in E'].
  apply search_head in E as [E1 E2]. rewrite nth_error_skipn in E2.
  now replace (li + (m_index m - li))%nat with (m_index m) in E2 by lia.
Qed.

Lemma filter_none (A : Type) (f : A -> bool) (l : list A) :
  Forall (fun x => f x = false) l -> filter f l = [].
Proof.
  induction 1 as [|x l Hx _ IH]; [reflexivity|]. cbn [filter].
  now rewrite Hx.
Qed.

(** *** A closed block *)

Ltac lens :=
  repeat first [rewrite length_app | progress cbn [List.length]];
  change (List.length fence) with 7%nat;
  change (List.length closing) with 3%nat;
  try lia.

Lemma closed_text_length (pre body post : str) :
  List.length (closed_text pre body post)
  = (List.length pre + 8 + List.length body + 4 + List.length post)%nat.
Proof.
  unfold closed_text. lens.
Qed.

Lemma closed_text_split (pre body post : str) :
  closed_text pre body post
  = (pre ++ fence ++ [10]) ++ body ++ 10 :: closing ++ post
  /\ closed_text pre body post
     = (pre ++ fence ++ 10 :: body ++ 10 :: closing) ++ post.
Proof.
  unfold closed_text. split.
  - now rewrite <- !app_assoc.
  - rewrite <- !app_assoc. cbn [app]. do 3 f_equal.
    now rewrite <- app_assoc.
Qed.

Lemma exec_loop_closed (pre body post : str) :
  no_leading_space body -> body <> [] ->
  ~ In 96 pre -> ~ In 96 body -> ~ In 96 post ->
  exec_loop (S (List.length (closed_text pre body post))) fenced_block
            (closed_text pre body post) 0
  = Some [RMatch (List.length pre)
                 (List.length pre + 8 + List.length body + 4)
                 (Some body)].
Proof.
  intros Hs Hne Hpre Hbody Hpost.
  pose proof (closed_text_length pre body post) as L.
  destruct (closed_text_split pre body post) as [S1 S2].
  set (text := closed_text pre body post) in *.
  assert (E1 : search fenced_block text text 0
               = Some (RMatch (List.length pre)
                              (List.length pre + 8 + List.length body + 4)
                              (Some body))).
  { change fenced_block with (AChar 96 :: tl fenced_block).
    unfold text at 2. unfold closed_text.
    rewrite search_skip by exact Hpre.
    change (AChar 96 :: tl fenced_block) with fenced_block.
    rewrite (@search_here fenced_block text _ _ _ _
               (@match_here_closed body post (0 + List.length pre)
                  Hs Hne Hbody)).
    cbn [option_map fst snd Nat.add]. f_equal. f_equal.
    unfold slice. rewrite S1.
    replace (List.length pre + 8)%nat
      with (List.length (pre ++ fence ++ [10]))
      by lens.
    rewrite skipn_length_app.
    rewrite Nat.add_comm, Nat.add_sub.
    now rewrite firstn_length_app. }
  assert (E2 : search fenced_block text
                 (skipn (List.length pre + 8 + List.length body + 4) text)
                 (List.length pre + 8 + List.length body + 4)
               = None).
  { rewrite S2.
    replace (List.length pre + 8 + List.length body + 4)%nat
      with (List.length (pre ++ fence ++ 10 :: body ++ 10 :: closing))
      by lens.
    rewrite skipn_length_app.
    change fenced_block with (AChar 96 :: tl fenced_block).
    now apply search_absent. }
  destruct (List.length text) as [|n] eqn:Ln; [lia|].
  cbn [exec_loop]. unfold exec at 1.
  change (Nat.ltb (List.length text) 0) with false. cbn [skipn]. rewrite E1.
  cbn [m_end exec_loop]. unfold exec.
  replace (Nat.ltb (List.length text)
                   (List.length pre + 8 + List.length body + 4))
    with false by (symmetry; apply Nat.ltb_ge; lia).
  now rewrite E2.
Qed.

Lemma closed_backticks (pre body post : str) (i : nat) :
  ~ In 96 pre -> ~ In 96 body -> ~ In 96 post ->
  nth_error (closed_text pre body post) i = Some 96 ->
  (List.length pre <= i < List.length pre + 8 + List.length body + 4)%nat.
Proof.
  intros Hpre Hbody Hpost H.
  destruct (closed_text_split pre body post) as [_ S2].
  split.
  - destruct (Nat.le_gt_cases (List.length pre) i) as [|Hlt]; [assumption|].
    unfold closed_text in H. rewrite nth_error_app1 in H by exact Hlt.
    elim Hpre. eapply nth_error_In. exact H.
  - destruct (Nat.le_gt_cases (List.length pre + 8 + List.length body + 4) i)
      as [Hge|]; [|assumption].
    rewrite S2, nth_error_app2 in H.
    + elim Hpost. eapply nth_error_In. exact H.
    + lens.
Qed.

Lemma shows_json_part_of (body : str) :
  exists content, json_part_of body = Part PJson content /\ shows content body.
Proof.
  unfold json_part_of, shows.
  destruct (JSON_parse body) as [v|]; eexists; split; reflexivity || auto.
Qed.

Lemma closed_block_json_part :
  forall pre body post : str,
    no_leading_space body -> body <> [] ->
    ~ In 96 pre -> ~ In 96 body -> ~ In 96 post ->
    parseMessageContent (closed_text pre body post)
    = Some (text_part (trim pre) ++ json_part_of body
            :: text_part (trim post)).
Proof.
  intros pre body post Hs Hne Hpre Hbody Hpost.
  pose proof (closed_text_length pre body post) as L.
  destruct (closed_text_split pre body post) as [S1 S2].
  unfold parseMessageContent, completedJsonRegex, incompleteJsonRegex.
  rewrite exec_loop_closed by assumption.
  destruct (@exec_loop_total fence_start (closed_text pre body post)
              ltac:(cbn; lia) (S (List.length (closed_text pre body post))) 0
              ltac:(lia)) as [ims Ei].
  rewrite Ei.
  cbn [map]. unfold completed_of. cbn [m_index m_end m_group1].
  assert (Ef : incomplete_of (closed_text pre body post)
                 [Block (List.length pre)
                        (List.length pre + 8 + List.length body + 4)
                        (Completed body)] ims = []).
  { unfold incomplete_of. rewrite filter_none; [reflexivity|].
    change fence_start with (AChar 96 :: tl fence_start) in Ei.
    apply exec_loop_heads in Ei.
    eapply Forall_impl; [|exact Ei]. cbv beta. intros m Hm.
    apply closed_backticks in Hm; try assumption.
    apply negb_false_iff. cbn [isCompleted existsb b_start b_end].
    rewrite orb_false_r. apply andb_true_iff. split.
    - apply Nat.leb_le. lia.
    - apply Nat.ltb_lt. lia. }
  rewrite Ef. cbn [app sort_blocks fold_right insert_block blocks_loop
                   b_start b_end b_kind].
  assert (Eb : (if Nat.ltb 0 (List.length pre)
                then match trim (slice (closed_text pre body post) 0
                                       (List.length pre)) with
                     | [] => []
                     | _ :: _ =>
                         [Part PText
                            (trim (slice (closed_text pre body post) 0
                                         (List.length pre)))]
                     end
                else [])
               = text_part (trim pre)).
  { unfold slice. cbn [skipn]. rewrite Nat.sub_0_r.
    unfold closed_text. rewrite firstn_length_app.
    destruct pre; reflexivity. }
  rewrite Eb.
  assert (Ea : (if Nat.ltb (List.length pre + 8 + List.length body + 4)
                           (List.length (closed_text pre body post))
                then match trim (slice_from (closed_text pre body post)
                                   (List.length pre + 8 + List.length body
                                    + 4)) with
                     | [] => text_part (trim pre)
                                ++ [json_part (closed_text pre body post)
                                      (Block (List.length pre)
                                         (List.length pre + 8
                                          + List.length body + 4)
                                         (Completed body))]
                     | _ :: _ =>
                         (text_part (trim pre)
                            ++ [json_part (closed_text pre body post)
                                  (Block (List.length pre)
                                     (List.length pre + 8
                                      + List.length body + 4)
                                     (Completed body))])
                         ++ [Part PText
                               (trim (slice_from (closed_text pre body post)
                                        (List.length pre + 8
                                         + List.length body + 4)))]
                     end
                else text_part (trim pre)
                       ++ [json_part (closed_text pre body post)
                             (Block (List.length pre)
                                (List.length pre + 8 + List.length body + 4)
                                (Completed body))])
               = text_part (trim pre) ++ json_part_of body
                 :: text_part (trim post)).
  { change (json_part (closed_text pre body post)
              (Block (List.length pre)
                 (List.length pre + 8 + List.length body + 4)
                 (Completed body)))
      with (json_part_of body).
    assert (Sp : slice_from (closed_text pre body post)
                   (List.length pre + 8 + List.length body + 4) = post).
    { unfold slice_from. rewrite S2.
      replace (List.length pre + 8 + List.length body + 4)%nat
        with (List.length (pre ++ fence ++ 10 :: body ++ 10 :: closing))
        by lens.
      apply skipn_length_app. }
    rewrite Sp, L.
    destruct post as [|c post].
    - replace (Nat.ltb _ _) with false
        by (symmetry; apply Nat.ltb_ge; cbn [List.length]; lia).
      reflexivity.
    - replace (Nat.ltb _ _) with true
        by (symmetry; apply Nat.ltb_lt; cbn [List.length]; lia).
      destruct (trim (c :: post)); cbn [text_part];
        now rewrite <- ?app_assoc. }
  cbn [app] in Ea |- *. rewrite Ea.
  destruct (text_part (trim pre)); reflexivity.
Qed.

(** X16. A message made of a text, a block opened by the json fence and
    closed by three backticks on a line of their own, and a text after it
    (no other backticks, the content not starting with white space) is shown
    as: the text before, trimmed, if any is left; one JSON part; the text
    after, trimmed, if any is left. The JSON part holds the content of the
    block as it is when it does not parse, and its value pretty-printed with
    two spaces when it parses (stated for values whose numbers have at most
    15 significant digits and an exponent within 290 of zero: beyond those
    the language rounds, which is not modelled). *)
Theorem closed_block_parts :
  forall pre body post : str,
    no_leading_space body -> body <> [] ->
    ~ In 96 pre -> ~ In 96 body -> ~ In 96 post ->
    exists content,
      parseMessageContent (closed_text pre body post)
      = Some (text_part (trim pre) ++ Part PJson content
              :: text_part (trim post))
      /\ shows content body.
Proof.
  intros pre body post Hs Hne Hpre Hbody Hpost.
  destruct (shows_json_part_of body) as (content & E & H).
  exists content. split; [|exact H].
  rewrite <- E. now apply closed_block_json_part.
Qed.

Lemma closed_block_parts_witness :
  parseMessageContent broken_block
  = Some [Part PJson (js "{oops"); Part PText (js "done")]
  /\ exists content,
      parseMessageContent workflow_block
      = Some [Part PText (js "Done:"); Part PJson content]
      /\ content = js "{" ++ [10] ++ js "  " ++ [34] ++ js "nodes" ++ [34]
                   ++ js ": []" ++ [10] ++ js "}".
Proof.
  assert (N1 : ~ In 96 (js "{oops") /\ ~ In 96 (js " done"))
    by (split; vm_compute; intuition discriminate).
  assert (N2 : ~ In 96 (js "Done: ") /\ ~ In 96 nodes_block)
    by (split; vm_compute; intuition discriminate).
  destruct (@closed_block_parts [] (js "{oops") (js " done") eq_refl
              ltac:(discriminate) ltac:(intros []) (proj1 N1) (proj2 N1))
    as (c1 & E1 & H1).
  destruct (@closed_block_parts (js "Done: ") nodes_block [] eq_refl
              ltac:(discriminate) (proj1 N2) (proj2 N2) ltac:(intros []))
    as (c2 & E2 & H2).
  split.
  - assert (P : JSON_parse (js "{oops") = None) by (vm_compute; reflexivity).
    unfold shows in H1. rewrite P in H1. subst c1. exact E1.
  - exists c2. split; [exact E2|].
    assert (P : JSON_parse nodes_block
                = Some (JObject [(js "nodes", JArray [])]))
      by (vm_compute; reflexivity).
    unfold shows in H2. rewrite P in H2. rewrite (H2 eq_refl).
    vm_compute. reflexivity.
Defined.

(** *** A block that is still open *)

Lemma match_here_lits_split (q : str) (p' : pattern) :
  forall s pos g r,
    match_here (lits q ++ p') s pos g = Some r ->
    exists s1 pos', s = q ++ s1 /\ match_here p' s1 pos' g = Some r.
Proof.
  induction q as [|c q IH]; intros s pos g r; cbn [lits map app].
  - intros H. now exists s, pos.
  - cbn [match_here]. destruct s as [|x s]; [discriminate|].
    destruct (N.eqb_spec x c) as [->|]; [|discriminate].
    intros H. apply IH in H as (s1 & pos' & -> & H). now exists s1, pos'.
Qed.

Lemma match_here_star_split (k : class) (p' : pattern) :
  forall s pos g r,
    match_here (AStar k :: p') s pos g = Some r ->
    exists a s1 pos', s = a ++ s1 /\ match_here p' s1 pos' g = Some r.
Proof.
  induction s as [|x s IH]; intros pos g r.
  - rewrite match_here_star_nil. intros H. now exists [], [], pos.
  - rewrite match_here_star_cons.
    destruct (in_class k x);
      [|intros H; now exists [], (x :: s), pos].
    destruct (match_here (AStar k :: p') s (S pos) g) as [r'|] eqn:E;
      [|intros H; now exists [], (x :: s), pos].
    intros H. injection H as <-.
    apply IH in E as (a & s1 & pos' & -> & E).
    now exists (x :: a), s1, pos'.
Qed.

Lemma match_here_lazy_split (k : class) (p' : pattern) :
  forall s pos g r,
    match_here (ALazy k :: p') s pos g = Some r ->
    exists a s1 pos', s = a ++ s1 /\ match_here p' s1 pos' g = Some r.
Proof.
  induction s as [|x s IH]; intros pos g r; rewrite match_here_lazy.
  - destruct (match_here p' [] pos g) as [r'|] eqn:E; [|discriminate].
    intros H. injection H as <-. now exists [], [], pos.
  - destruct (match_here p' (x :: s) pos g) as [r'|] eqn:E.
    + intros H. injection H as <-. now exists [], (x :: s), pos.
    + destruct (in_class k x); [|discriminate].
      intros H. apply IH in H as (a & s1 & pos' & -> & H).
      now exists (x :: a), s1, pos'.
Qed.

(** A closed block needs a backtick after its opening fence. *)
Lemma match_here_closed_needs (s : str) (pos : nat) (g : groups)
      (r : nat * option (nat * nat)) :
  match_here fenced_block s pos g = Some r ->
  exists s1, s = fence ++ s1 /\ In 96 s1.
Proof.
  change fenced_block with (lits fence ++ after_fence_closed).
  intros H. apply match_here_lits_split in H as (s1 & pos1 & -> & H).
  exists s1. split; [reflexivity|].
  unfold after_fence_closed in H. cbn [app] in H.
  apply match_here_star_split in H as (a & s2 & pos2 & -> & H).
  apply in_or_app. right.
  cbn [match_here] in H. destruct s2 as [|x s2]; [discriminate|].
  destruct (x =? 10); [|discriminate]. right.
  change (match_here (ALazy CAny :: AClose :: AChar 10 :: lits closing)
                     s2 (S pos2) (Groups (S pos2) (g_span g)) = Some r) in H.
  apply match_here_lazy_split in H as (b & s3 & pos3 & -> & H).
  apply in_or_app. right.
  change (lits closing) with [AChar 96; AChar 96; AChar 96] in H.
  cbn [match_here] in H. destruct s3 as [|y s3]; [discriminate|].
  destruct (y =? 10); [|discriminate]. right.
  destruct s3 as [|z s3]; [discriminate|].
  destruct (N.eqb_spec z 96) as [->|]; [now left|discriminate].
Qed.

Lemma search_nowhere (p : pattern) (text : str) :
  forall s pos,
    (forall l s' pos', s = l ++ s' ->
                       match_here p s' pos' (Groups 0 None) = None) ->
    search p text s pos = None.
Proof.
  induction s as [|x s IH]; intros pos H; cbn [search].
  - now rewrite (H [] [] pos eq_refl).
  - rewrite (H [] (x :: s) pos eq_refl). apply IH.
    intros l s' pos' ->. now apply (H (x :: l)).
Qed.

Lemma count_absent (s : str) : ~ In 96 s -> count_occ N.eq_dec s 96 = 0%nat.
Proof. apply count_occ_not_In. Qed.

Lemma count_present (s : str) :
  In 96 s -> (1 <= count_occ N.eq_dec s 96%N)%nat.
Proof. intros H. apply (count_occ_In N.eq_dec) in H. lia. Qed.

Lemma open_text_length (pre body : str) :
  List.length (open_text pre body)
  = (List.length pre + 8 + List.length body)%nat.
Proof. unfold open_text. lens. Qed.

Lemma exec_loop_open_closed (pre body : str) :
  ~ In 96 pre -> ~ In 96 body ->
  exec_loop (S (List.length (open_text pre body))) fenced_block
            (open_text pre body) 0
  = Some [].
Proof.
  intros Hpre Hbody. cbn [exec_loop]. unfold exec.
  change (Nat.ltb (List.length (open_text pre body)) 0) with false.
  cbn [skipn]. rewrite search_nowhere; [reflexivity|].
  intros l s pos' E.
  destruct (match_here fenced_block s pos' (Groups 0 None)) as [r|] eqn:M;
    [exfalso|reflexivity].
  apply match_here_closed_needs in M as (s1 & -> & H1).
  apply (f_equal (fun t => count_occ N.eq_dec t 96)) in E.
  unfold open_text in E.
  change (10 :: body) with ([10] ++ body) in E.
  rewrite !count_occ_app in E.
  rewrite (@count_absent pre Hpre), (@count_absent body Hbody) in E.
  apply count_present in H1.
  change (count_occ N.eq_dec fence 96) with 3%nat in E.
  change (count_occ N.eq_dec [10] 96) with 0%nat in E. lia.
Qed.

Lemma exec_loop_open (pre body : str) :
  no_leading_space body -> ~ In 96 pre -> ~ In 96 body ->
  exec_loop (S (List.length (open_text pre body))) fence_start
            (open_text pre body) 0
  = Some [RMatch (List.length pre) (List.length pre + 8) None].
Proof.
  intros Hs Hpre Hbody.
  pose proof (open_text_length pre body) as L.
  set (text := open_text pre body) in *.
  assert (E1 : search fence_start text text 0
               = Some (RMatch (List.length pre) (List.length pre + 8) None)).
  { change fence_start with (AChar 96 :: tl fence_start).
    unfold text at 2. unfold open_text.
    rewrite search_skip by exact Hpre.
    change (AChar 96 :: tl fence_start) with (lits fence ++ after_fence_open).
    assert (M : match_here (lits fence ++ after_fence_open)
                           (fence ++ 10 :: body) (0 + List.length pre)
                           (Groups 0 None)
                = Some ((List.length pre + 8)%nat, None)).
    { rewrite match_here_lits. unfold after_fence_open.
      rewrite match_here_fence_break by exact Hs.
      cbn [match_here g_span]. change (List.length fence) with 7%nat.
      span_eq. }
    now rewrite (@search_here _ text _ _ _ _ M). }
  assert (E2 : search fence_start text (skipn (List.length pre + 8) text)
                      (List.length pre + 8) = None).
  { unfold text, open_text.
    change (pre ++ fence ++ 10 :: body) with (pre ++ fence ++ [10] ++ body).
    rewrite !app_assoc.
    replace (List.length pre + 8)%nat
      with (List.length ((pre ++ fence) ++ [10%N])) by lens.
    rewrite skipn_length_app.
    change fence_start with (AChar 96 :: tl fence_start).
    now apply search_absent. }
  destruct (List.length text) as [|n] eqn:Ln; [lia|].
  cbn [exec_loop]. unfold exec at 1.
  change (Nat.ltb (List.length text) 0) with false. cbn [skipn]. rewrite E1.
  cbn [m_end exec_loop]. unfold exec.
  replace (Nat.ltb (List.length text) (List.length pre + 8))
    with false by (symmetry; apply Nat.ltb_ge; lia).
  now rewrite E2.
Qed.

Lemma open_block_json_part :
  forall pre body : str,
    no_leading_space body -> ~ In 96 pre -> ~ In 96 body ->
    parseMessageContent (open_text pre body)
    = Some (text_part (trim pre) ++ [json_part_of body]).
Proof.
  intros pre body Hs Hpre Hbody.
  pose proof (open_text_length pre body) as L.
  unfold parseMessageContent, completedJsonRegex, incompleteJsonRegex.
  rewrite exec_loop_open_closed, exec_loop_open by assumption.
  cbn [map app]. unfold incomplete_of.
  cbn [filter isCompleted existsb negb map m_index m_end sort_blocks
       fold_right insert_block blocks_loop b_start b_end b_kind].
  assert (Eb : (if Nat.ltb 0 (List.length pre)
                then match trim (slice (open_text pre body) 0
                                       (List.length pre)) with
                     | [] => []
                     | _ :: _ =>
                         [Part PText
                            (trim (slice (open_text pre body) 0
                                         (List.length pre)))]
                     end
                else [])
               = text_part (trim pre)).
  { unfold slice. cbn [skipn]. rewrite Nat.sub_0_r.
    unfold open_text. rewrite firstn_length_app.
    destruct pre; reflexivity. }
  rewrite Eb.
  assert (Ej : json_part (open_text pre body)
                 (Block (List.length pre) (List.length (open_text pre body))
                        (Incomplete (List.length pre + 8)))
               = json_part_of body).
  { unfold json_part, json_part_of. cbn [b_kind].
    replace (slice_from (open_text pre body) (List.length pre + 8)) with body;
      [reflexivity|].
    unfold slice_from, open_text.
    change (pre ++ fence ++ 10 :: body) with (pre ++ fence ++ [10] ++ body).
    rewrite !app_assoc.
    replace (List.length pre + 8)%nat
      with (List.length ((pre ++ fence) ++ [10%N])) by lens.
    now rewrite skipn_length_app. }
  rewrite Ej, Nat.ltb_irrefl.
  destruct (text_part (trim pre)); reflexivity.
Qed.

(** X17. While a block is still being written, that is for a message made
    of a text and a block opened by the json fence that is not closed yet
    (no other backticks, the content not starting with white space), the
    parts are: the text before, trimmed, if any is left; and one JSON part
    for everything after the fence, as it is when it does not parse and
    pretty-printed if it happens to parse (stated for values whose numbers
    have at most 15 significant digits and an exponent within 290 of
    zero). *)
Theorem open_block_parts :
  forall pre body : str,
    no_leading_space body -> ~ In 96 pre -> ~ In 96 body ->
    exists content,
      parseMessageContent (open_text pre body)
      = Some (text_part (trim pre) ++ [Part PJson content])
      /\ shows content body.
Proof.
  intros pre body Hs Hpre Hbody.
  destruct (shows_json_part_of body) as (content & E & H).
  exists content. split; [|exact H].
  rewrite <- E. now apply open_block_json_part.
Qed.

Lemma open_block_parts_witness :
  parseMessageContent streaming_block
  = Some [Part PText (js "Here:"); Part PJson raw_a1].
Proof.
  assert (N1 : ~ In 96 (js "Here: ") /\ ~ In 96 raw_a1)
    by (split; vm_compute; intuition discriminate).
  destruct (@open_block_parts (js "Here: ") raw_a1 eq_refl
              (proj1 N1) (proj2 N1)) as (c & E & H).
  assert (P : JSON_parse raw_a1 = None) by (vm_compute; reflexivity).
  unfold shows in H. rewrite P in H. subst c. exact E.
Defined.

(** *** The block shown is the block imported *)

Lemma scan_absent (c : N) (p' : pattern) (text : str) :
  forall s pos lastIndex,
    ~ In c s -> scan (AChar c :: p') text s pos lastIndex = [].
Proof.
  induction s as [|x s IH]; intros pos li Hs; cbn [scan match_here].
  - now destruct (Nat.ltb pos li).
  - destruct (N.eqb_spec x c) as [->|]; [elim Hs; now left|].
    destruct (Nat.ltb pos li); apply IH; intros H; apply Hs; now right.
Qed.

Lemma scan_skip (c : N) (p' : pattern) (text pre s : str) :
  ~ In c pre ->
  forall pos lastIndex,
    scan (AChar c :: p') text (pre ++ s) pos lastIndex
    = scan (AChar c :: p') text s (pos + List.length pre) lastIndex.
Proof.
  induction pre as [|x pre IH]; intros Hp pos li; cbn [app List.length].
  - now rewrite Nat.add_0_r.
  - cbn [scan match_here].
    destruct (N.eqb_spec x c) as [->|]; [elim Hp; now left|].
    rewrite Nat.add_succ_r.
    destruct (Nat.ltb pos li); apply IH; intros H; apply Hp; now right.
Qed.

Lemma scan_below (p : pattern) (text a s : str) :
  forall pos lastIndex,
    (pos + List.length a <= lastIndex)%nat ->
    scan p text (a ++ s) pos lastIndex
    = scan p text s (pos + List.length a) lastIndex.
Proof.
  induction a as [|x a IH]; intros pos li H; cbn [app List.length] in *.
  - now rewrite Nat.add_0_r.
  - cbn [scan].
    replace (Nat.ltb pos li) with true by (symmetry; apply Nat.ltb_lt; lia).
    rewrite IH by lia. now rewrite Nat.add_succ_r.
Qed.

Lemma matchAll_closed (pre body post : str) :
  no_leading_space body -> body <> [] ->
  ~ In 96 pre -> ~ In 96 body -> ~ In 96 post ->
  matchAll fenced_block (closed_text pre body post)
  = [RMatch (List.length pre)
            (List.length pre + 8 + List.length body + 4)
            (Some body)].
Proof.
  intros Hs Hne Hpre Hbody Hpost.
  destruct (closed_text_split pre body post) as [S1 S2].
  unfold matchAll. set (text := closed_text pre body post) in *.
  change fenced_block with (AChar 96 :: tl fenced_block).
  unfold text at 2. unfold closed_text.
  rewrite scan_skip by exact Hpre.
  change (AChar 96 :: tl fenced_block) with fenced_block.
  change (fence ++ 10 :: body ++ 10 :: closing ++ post)
    with (96 :: (js "``json" ++ 10 :: body ++ 10 :: closing ++ post)).
  cbn [scan]. change (Nat.ltb (0 + List.length pre) 0) with false.
  change (96 :: (js "``json" ++ 10 :: body ++ 10 :: closing ++ post))
    with (fence ++ 10 :: body ++ 10 :: closing ++ post).
  rewrite (@match_here_closed body post (0 + List.length pre) Hs Hne Hbody).
  cbn [Nat.add option_map fst snd].
  replace (Nat.eqb (List.length pre + 8 + List.length body + 4)
                   (List.length pre))
    with false by (symmetry; apply Nat.eqb_neq; lia).
  f_equal.
  - f_equal. unfold slice. rewrite S1.
    replace (List.length pre + 8)%nat
      with (List.length (pre ++ fence ++ [10%N])) by lens.
    rewrite skipn_length_app, Nat.add_comm, Nat.add_sub.
    now rewrite firstn_length_app.
  - replace (js "``json" ++ 10 :: body ++ 10 :: closing ++ post)
      with ((js "``json" ++ 10 :: body ++ 10 :: closing) ++ post)
      by (rewrite <- !app_assoc; cbn [app]; now rewrite <- app_assoc).
    rewrite scan_below
      by (rewrite length_app; change (List.length (js "``json")) with 6%nat;
          lens).
    change fenced_block with (AChar 96 :: tl fenced_block).
    now apply scan_absent.
Qed.

(** X18. For a response with one closed block (as in X16) the panel and the
    discussion agree on the block: the discussion shows one JSON part for
    the content of the block, and that same content is what the panel hands
    to JSON.parse on completion. So when the content parses to an object
    whose nodes field is an array, the JSON part is that object
    pretty-printed (numbers as in X16), and completion calls
    [resetWorkspace] and, if that returns, [initializeWorkspace] with that
    same object. *)
Theorem shown_block_is_imported :
  forall pre body post : str,
    no_leading_space body -> body <> [] ->
    ~ In 96 pre -> ~ In 96 body -> ~ In 96 post ->
    (exists content,
        parseMessageContent (closed_text pre body post)
        = Some (text_part (trim pre) ++ Part PJson content
                :: text_part (trim post))
        /\ shows content body)
    /\ jsonString (closed_text pre body post) = Some body
    /\ extractWorkflowJson (closed_text pre body post) = candidate_result body
    /\ forall (ops : canvas_ops) (p : panel) (w : json),
        fullResponse p = closed_text pre body post ->
        JSON_parse body = Some w -> object_with_nodes_array w ->
        exists new,
          calls (onComplete ops p) = calls p ++ new
          /\ filter replaces new
             = if reset_throws ops then [ResetWorkspace]
               else [ResetWorkspace; InitializeWorkspace w].
Proof.
  intros pre body post Hs Hne Hpre Hbody Hpost.
  assert (J : jsonString (closed_text pre body post) = Some body).
  { unfold jsonString, jsonBlockRegex.
    now rewrite matchAll_closed by assumption. }
  assert (X : extractWorkflowJson (closed_text pre body post)
              = candidate_result body).
  { unfold extractWorkflowJson. now rewrite J. }
  split.
  { destruct (shows_json_part_of body) as (content & E & H).
    exists content. split; [|exact H].
    rewrite <- E. now apply closed_block_json_part. }
  split; [exact J|]. split; [exact X|].
  intros ops p w Hp Hw Ho.
  assert (E : extractWorkflowJson (fullResponse p) = Some w).
  { rewrite Hp, X. unfold candidate_result. rewrite Hw.
    apply is_workflow_spec in Ho. now rewrite Ho. }
  destruct (onComplete_imports ops p E) as (_ & (new & C & H) & _).
  exists new. split; [exact C|].
  unfold import_outcome in H.
  destruct (reset_throws ops); exact (proj1 H).
Qed.

Lemma shown_block_is_imported_witness :
  parseMessageContent workflow_block
  = Some [Part PText (js "Done:");
          Part PJson (js "{" ++ [10] ++ js "  " ++ [34] ++ js "nodes" ++ [34]
                      ++ js ": []" ++ [10] ++ js "}")]
  /\ jsonString workflow_block = Some nodes_block
  /\ extractWorkflowJson workflow_block
     = Some (JObject [(js "nodes", JArray [])]).
Proof.
  assert (H : ~ In 96 (js "Done: ") /\ ~ In 96 nodes_block)
    by (split; vm_compute; intuition discriminate).
  destruct (@shown_block_is_imported (js "Done: ") nodes_block []
              eq_refl ltac:(discriminate) (proj1 H) (proj2 H)
              ltac:(intros []))
    as ((c & E & S) & J & X & _).
  assert (P : JSON_parse nodes_block
              = Some (JObject [(js "nodes", JArray [])]))
    by (vm_compute; reflexivity).
  split; [|split; [exact J|]].
  - unfold shows in S. rewrite P in S. rewrite (S eq_refl) in E.
    etransitivity; [exact E|]. vm_compute. reflexivity.
  - transitivity (candidate_result nodes_block); [exact X|].
    vm_compute. reflexivity.
Defined.

(** ** Lines that are no frames *)

(** X19. A line is reported with console.warn exactly when it starts with
    the data marker and something is thrown while it is handled: what follows
    the marker does not parse, or parses to null, or is an error frame whose
    content no Error can be made of. Such a line is otherwise skipped and the
    reading goes on. Every other line that is no frame (no marker, a payload
    without a type, a type that is none of the three) is skipped without a
    trace. *)
Theorem warning_iff_malformed :
  forall (has_onComplete : bool) (line : str),
    (malformed line ->
     process_line has_onComplete line = ([ConsoleWarn line], Continue))
    /\ (~ malformed line ->
        forall w, ~ In (ConsoleWarn w) (fst (process_line has_onComplete line)))
    /\ (classify line = None -> ~ malformed line ->
        process_line has_onComplete line = ([], Continue)).
Proof.
  intros has line. unfold malformed, thrown_in, process_line, classify, marker.
  destruct (startsWith line (js "data: "));
    [|split; [intros [H _]; discriminate|];
      split; [intros _ w []|reflexivity]].
  destruct (JSON_parse (slice_from line 6)) as [[| | | | |o]|];
    try (split; [reflexivity|];
         split; [intros H; elim H; auto|intros _ H; elim H; auto]);
    try (split; [intros [_ H]; discriminate|]; cbn;
         split; [intros _ w []|reflexivity]).
  cbn [get_prop].
  destruct (obj_get (js "type") o) as [[| | |t| |]|]; cbn [is_string];
    try (split; [intros [_ H]; discriminate|];
         split; [intros _ w []|reflexivity]).
  destruct (Js.eqb t (js "text")) eqn:Et;
    [apply Js_eqb_eq in Et; subst t;
     split; [intros [_ H]; discriminate|];
     split; [intros _ w [H|[]]; discriminate|discriminate]|].
  destruct (Js.eqb t (js "error")); cbn [andb].
  - destruct (new_Error_throws (obj_get (js "content") o)).
    + split; [reflexivity|].
      split; [intros H; elim H; auto|intros _ H; elim H; auto].
    + split; [intros [_ H]; discriminate|].
      split; [intros _ w [H|[]]; discriminate|discriminate].
  - split; [intros [_ H]; discriminate|].
    destruct (Js.eqb t (js "complete"));
      [|split; [intros _ w []|reflexivity]].
    split; [|discriminate].
    intros _ w. destruct has; [intros [H|[]]; discriminate|intros []].
Qed.

Lemma warning_iff_malformed_witness :
  process_line true (js "data: {oops")
  = ([ConsoleWarn (js "data: {oops")], Continue)
  /\ process_line true (js "data: null")
     = ([ConsoleWarn (js "data: null")], Continue)
  /\ process_line true poisoned_error = ([ConsoleWarn poisoned_error], Continue).
Proof.
  split; [|split].
  - apply (proj1 (warning_iff_malformed true (js "data: {oops"))).
    split; reflexivity.
  - apply (proj1 (warning_iff_malformed true (js "data: null"))).
    split; reflexivity.
  - apply (proj1 (warning_iff_malformed true poisoned_error)).
    split; reflexivity.
Defined.

(** ** A turn of the conversation: when things go wrong *)

Lemma prepared_messages (message : Message) (wf : json) (id now : N)
      (p : panel) (f : str -> str) :
  Forall (fun m => msg_id m <> id) (messages p ++ [message]) ->
  update_message id f
    (messages (HandleSendMessage.out_panel
                 (HandleSendMessage.prepare message wf id now p)))
  = messages p ++ [message; Msg id (f []) FromCopilot now].
Proof.
  intros Hfresh.
  cbn [HandleSendMessage.prepare HandleSendMessage.out_panel messages].
  rewrite (@update_message_fresh id f (messages p ++ [message]) []
             FromCopilot now [] Hfresh).
  now rewrite <- app_assoc.
Qed.

(** X20. When the request fails before a reader is obtained (the fetch is
    rejected, the status is not ok as for the handler's 400, 403 and 404, or
    there is no body), the turn ends with the apology in the placeholder, the
    earlier messages and the message sent as they were, both flags down, the
    workflow untouched and nothing called but the console. *)
Theorem turn_fails_before_stream :
  forall (ops : canvas_ops) (message : Message) (workflowData : json)
         (aiResponseId now : N) (f : fetch_result) (p : panel),
    reader_of f = None ->
    Forall (fun m => msg_id m <> aiResponseId) (messages p ++ [message]) ->
    exists p',
      HandleSendMessage.handleSendMessage ops message workflowData
        aiResponseId now f p = Some p'
      /\ turn_ends p p' message aiResponseId now error_text
      /\ isResponding p' = false
      /\ isGeneratingWorkflow p' = false
      /\ calls p' = calls p ++ [ConsoleError (js "Claude API error:")].
Proof.
  intros ops message wf id now f p Hf Hfresh.
  unfold HandleSendMessage.handleSendMessage.
  assert (Ht : exists err, streamChatResponse true f = [OnError err]).
  { destruct f as [t|[[|] st [b|]]]; try discriminate Hf;
      eexists; reflexivity. }
  destruct Ht as (err & ->).
  cbn [HandleSendMessage.run HandleSendMessage.callback].
  eexists. split; [reflexivity|].
  destruct (onError_fields id
              (HandleSendMessage.out_panel
                 (HandleSendMessage.prepare message wf id now p)))
    as (M & R & G & _ & W & C).
  rewrite R, G, C. unfold turn_ends. rewrite M, W.
  rewrite (prepared_messages message wf now p (fun _ => error_text) Hfresh).
  repeat split.
Qed.

Lemma turn_fails_before_stream_witness :
  exists p',
    HandleSendMessage.handleSendMessage working_canvas next_message JNull 5 4
      rejected_fetch earlier_panel = Some p'
    /\ turn_ends earlier_panel p' next_message 5 4 error_text
    /\ isResponding p' = false
    /\ isGeneratingWorkflow p' = false
    /\ calls p' = calls earlier_panel ++ [ConsoleError (js "Claude API error:")].
Proof.
  apply turn_fails_before_stream; [reflexivity|].
  repeat constructor; discriminate.
Defined.

Lemma dispatch_texts (has : bool) (ts : list str) :
  dispatch has (map kind_of (map EvText ts))
  = (map (fun t => OnText (Some (JString t))) ts, false).
Proof.
  induction ts as [|t ts IH]; [reflexivity|].
  cbn [map kind_of dispatch]. now rewrite IH.
Qed.

Lemma callbacks_of_texts (has : bool) (status : N)
      (groups : list (list str)) (e : ending) (ts : list str) :
  List.concat groups = map frame (map EvText ts) ->
  callbacks (streamChatResponse has
               (FetchResolves
                  (Response true status
                     (Some (Body (map (@List.concat _) groups) e)))))
  = map (fun t => OnText (Some (JString t))) ts ++ stream_end e.
Proof.
  intros Hg. apply concat_map_groups in Hg as (ls & -> & Hl).
  now rewrite callbacks_of_body, frames_of_groups, Hl, dispatch_texts.
Qed.

(** X21. When the body carries text frames only and then stops (the
    connection is cut before the terminal frame): if the body just ends, no
    terminal callback is ever called, the placeholder keeps the texts
    received and the panel stays in the responding state; if the read fails,
    onError runs, the texts received are replaced by the apology and the
    responding state ends. *)
Theorem cut_stream_leaves_turn_open :
  forall (ops : canvas_ops) (message : Message) (workflowData : json)
         (aiResponseId now : N) (status : N) (groups : list (list str))
         (texts : list str) (e : ending) (p : panel),
    List.concat groups = map frame (map EvText texts) ->
    Forall (fun m => msg_id m <> aiResponseId) (messages p ++ [message]) ->
    exists p',
      HandleSendMessage.handleSendMessage ops message workflowData
        aiResponseId now
        (FetchResolves
           (Response true status
              (Some (Body (map (@List.concat _) groups) e)))) p
      = Some p'
      /\ match e with
         | Done =>
             turn_ends p p' message aiResponseId now (List.concat texts)
             /\ isResponding p' = true
         | ReadFails _ =>
             turn_ends p p' message aiResponseId now error_text
             /\ isResponding p' = false
         end.
Proof.
  intros ops message wf id now status groups texts e p Hg Hfresh.
  unfold HandleSendMessage.handleSendMessage.
  rewrite run_callbacks, (@callbacks_of_texts true status groups e texts Hg),
    run_texts.
  destruct (stream_texts_fields id texts
              (HandleSendMessage.out_panel
                 (HandleSendMessage.prepare message wf id now p)))
    as (_ & M & R & W & _ & _).
  set (q := stream_texts id texts _) in *.
  rewrite (prepared_messages message wf now p _ Hfresh) in M.
  cbn [app] in M.
  destruct e as [|t]; cbn [stream_end HandleSendMessage.run
                           HandleSendMessage.callback].
  - exists q. split; [reflexivity|]. unfold turn_ends.
    rewrite M, R, W. repeat split.
  - eexists. split; [reflexivity|].
    destruct (onError_fields id q) as (M' & R' & _ & _ & W' & _).
    unfold turn_ends. rewrite M', R', W', W, M.
    change (messages p ++ [message; ?x])
      with (messages p ++ [message] ++ [x]).
    rewrite app_assoc.
    rewrite (@update_message_fresh id _ (messages p ++ [message]) _
               FromCopilot now [] Hfresh).
    rewrite <- app_assoc. repeat split.
Qed.

Lemma cut_stream_leaves_turn_open_witness :
  exists p',
    HandleSendMessage.handleSendMessage working_canvas next_message JNull 5 4
      (FetchResolves
         (Response true 200
            (Some (Body (map (@List.concat _) cut_groups) Done))))
      earlier_panel
    = Some p'
    /\ turn_ends earlier_panel p' next_message 5 4 (js "Sure, do")
    /\ isResponding p' = true.
Proof.
  refine (@cut_stream_leaves_turn_open working_canvas next_message JNull 5 4
            200 cut_groups [js "Sure"; js ", do"] Done earlier_panel
            eq_refl _).
  repeat constructor; discriminate.
Defined.

(** ** The two enumerations of the closed blocks *)

Lemma scan_search_some (p : pattern) (text : str) :
  forall s pos lastIndex m,
    (lastIndex <= pos)%nat ->
    search p text s pos = Some m ->
    (m_index m < m_end m)%nat ->
    scan p text s pos lastIndex
    = m :: scan p text (skipn (S (m_index m - pos)) s) (S (m_index m))
                (m_end m).
Proof.
  induction s as [|x s IH]; intros pos li m Hli Hs Hm.
  - cbn [search] in Hs.
    destruct (match_here p [] pos (Groups 0 None)) as [[e sp]|] eqn:E;
      [|discriminate].
    injection Hs as <-. cbn [m_index m_end] in Hm.
    apply match_here_bounds in E. cbn [List.length] in E. lia.
  - cbn [search] in Hs. cbn [scan].
    replace (Nat.ltb pos li) with false by (symmetry; apply Nat.ltb_ge; lia).
    destruct (match_here p (x :: s) pos (Groups 0 None)) as [[e sp]|] eqn:E.
    + injection Hs as <-. cbn [m_index m_end] in *.
      rewrite Nat.sub_diag. cbn [skipn].
      replace (Nat.eqb e pos) with false
        by (symmetry; apply Nat.eqb_neq; lia).
      reflexivity.
    + pose proof (search_bounds p text s (S pos) Hs) as [B _].
      rewrite (IH (S pos) li m) by (assumption || lia).
      replace (m_index m - pos)%nat with (S (m_index m - S pos)) by lia.
      reflexivity.
Qed.

Lemma skipn_between (text : str) (pos li : nat) :
  (pos <= li <= List.length text)%nat ->
  exists a, skipn pos text = a ++ skipn li text
            /\ List.length a = (li - pos)%nat.
Proof.
  intros H. exists (firstn (li - pos) (skipn pos text)). split.
  - rewrite <- (firstn_skipn (li - pos) (skipn pos text)) at 1.
    rewrite skipn_skipn. now replace (li - pos + pos)%nat with li by lia.
  - rewrite length_firstn, length_skipn. lia.
Qed.

Lemma exec_loop_scan (p : pattern) (text : str) :
  (1 <= min_len p)%nat ->
  forall fuel pos lastIndex,
    (pos <= lastIndex <= List.length text)%nat ->
    (List.length text - lastIndex < fuel)%nat ->
    exec_loop fuel p text lastIndex
    = Some (scan p text (skipn pos text) pos lastIndex).
Proof.
  intros Hp. induction fuel as [|fuel IH]; intros pos li Hli Hf; [lia|].
  destruct (skipn_between text Hli) as (a & Ea & La).
  rewrite Ea, scan_below by lia.
  replace (pos + List.length a)%nat with li by lia.
  cbn [exec_loop].
  destruct (exec p text li) as [[m|] li'] eqn:E.
  - destruct (exec_bounds p text li E) as (-> & B1 & B2 & B3).
    unfold exec in E.
    replace (Nat.ltb (List.length text) li) with false in E
      by (symmetry; apply Nat.ltb_ge; lia).
    destruct (search p text (skipn li text) li) as [m'|] eqn:Hs;
      [|discriminate].
    injection E as ->.
    rewrite (@scan_search_some p text (skipn li text) li li m
               (Nat.le_refl li) Hs) by lia.
    rewrite skipn_skipn.
    replace (S (m_index m - li) + li)%nat with (S (m_index m)) by lia.
    rewrite (IH (S (m_index m)) (m_end m)) by lia.
    reflexivity.
  - unfold exec in E.
    replace (Nat.ltb (List.length text) li) with false in E
      by (symmetry; apply Nat.ltb_ge; lia).
    destruct (search p text (skipn li text) li) as [m'|] eqn:Hs;
      [discriminate|].
    now rewrite search_none_scan.
Qed.

(** X22. On every text the discussion and the panel find the same closed
    blocks, in the same order: the exec loop of parseMessageContent ends and
    collects exactly the matches that matchAll gives extractWorkflowJson. *)
Theorem same_closed_blocks :
  forall text : str,
    exec_loop (S (List.length text)) completedJsonRegex text 0
    = Some (matchAll jsonBlockRegex text).
Proof.
  intros text. unfold completedJsonRegex, jsonBlockRegex, matchAll.
  rewrite (@exec_loop_scan fenced_block text ltac:(cbn; lia)
             (S (List.length text)) 0 0) by lia.
  reflexivity.
Qed.

(** ** The discussion: no blank text parts *)

Lemma trimStart_no_lead (s : str) : no_leading_space (trimStart s).
Proof.
  induction s as [|c s IH]; [exact I|]. cbn [trimStart].
  destruct (is_white_space c) eqn:E; [exact IH|exact E].
Qed.

Lemma no_lead_fix (s : str) : no_leading_space s -> trimStart s = s.
Proof. destruct s as [|c s]; [reflexivity|]. cbn. now intros ->. Qed.

Lemma trimStart_snoc (c : N) (l : str) :
  is_white_space c = false -> exists l', trimStart (l ++ [c]) = l' ++ [c].
Proof.
  intros Hc. induction l as [|x l IH]; cbn [app trimStart].
  - rewrite Hc. now exists [].
  - destruct (is_white_space x); [exact IH|]. now exists (x :: l).
Qed.

Lemma no_lead_trimEnd (t : str) :
  no_leading_space t -> no_leading_space (trimEnd t).
Proof.
  destruct t as [|c r]; [intros _; exact I|]. cbn [no_leading_space].
  intros Hc. unfold trimEnd. cbn [rev].
  destruct (@trimStart_snoc c (rev r) Hc) as (l' & ->).
  rewrite rev_app_distr. exact Hc.
Qed.

Lemma trim_idem (s : str) : trim (trim s) = trim s.
Proof.
  unfold trim.
  rewrite (@no_lead_fix _ (@no_lead_trimEnd _ (trimStart_no_lead s))).
  unfold trimEnd. rewrite rev_involutive.
  now rewrite (@no_lead_fix _ (trimStart_no_lead _)).
Qed.

Lemma clean_trimmed (s : str) :
  trim s <> [] -> clean_text (Part PText (trim s)).
Proof. intros H _. cbn [p_content]. split; [exact H|apply trim_idem]. Qed.

Lemma clean_json_part (text : str) (b : block) : clean_text (json_part text b).
Proof.
  unfold json_part, clean_text.
  destruct (JSON_parse _); cbn [p_type]; discriminate.
Qed.

Lemma blocks_loop_clean (text : str) (blocks : list block) :
  forall lastIndex,
    Forall clean_text (fst (blocks_loop text blocks lastIndex)).
Proof.
  induction blocks as [|b rest IH]; intros li; cbn [blocks_loop];
    [constructor|].
  specialize (IH (b_end b)).
  destruct (blocks_loop text rest (b_end b)) as [parts li']. cbn [fst] in *.
  apply Forall_app. split.
  - destruct (Nat.ltb li (b_start b)); [|constructor].
    destruct (trim (slice text li (b_start b))) eqn:E; [constructor|].
    constructor; [|constructor]. rewrite <- E. apply clean_trimmed.
    rewrite E. discriminate.
  - constructor; [apply clean_json_part|exact IH].
Qed.

(** X23. Whatever the text, the parts are never empty, and every text part
    is clean: it is not empty and has no white space around it. The one
    exception is a message that is blank altogether, which is shown as a
    single text part holding the text as it is. *)
Theorem text_parts_are_clean :
  forall text : str,
  exists parts,
    parseMessageContent text = Some parts
    /\ parts <> []
    /\ (Forall clean_text parts
        \/ (parts = [Part PText text] /\ trim text = [])).
Proof.
  intros text. unfold parseMessageContent.
  destruct (@exec_loop_total completedJsonRegex text ltac:(cbn; lia)
              (S (List.length text)) 0 ltac:(lia)) as [cms ->].
  destruct (@exec_loop_total incompleteJsonRegex text ltac:(cbn; lia)
              (S (List.length text)) 0 ltac:(lia)) as [ims ->].
  set (blocks := sort_blocks _).
  pose proof (blocks_loop_clean text blocks 0) as Hc.
  assert (Hj : blocks <> [] -> fst (blocks_loop text blocks 0) <> []).
  { destruct blocks as [|b rest]; [congruence|]. intros _ E.
    pose proof (blocks_loop_json text b rest 0) as X.
    rewrite E in X. inversion X. }
  assert (H0 : blocks = [] -> blocks_loop text blocks 0 = ([], 0%nat))
    by (now intros ->).
  destruct (blocks_loop text blocks 0) as [parts li]. cbn [fst] in *.
  destruct parts as [|q parts].
  - assert (Eb : blocks = []).
    { destruct blocks; [reflexivity|]. elim Hj; [discriminate|reflexivity]. }
    specialize (H0 Eb). injection H0 as ->.
    unfold slice_from. cbn [skipn].
    destruct text as [|c text]; cbn [List.length Nat.ltb Nat.leb].
    + eexists. split; [reflexivity|]. split; [discriminate|]. right. auto.
    + destruct (trim (c :: text)) eqn:E.
      * eexists. split; [reflexivity|]. split; [discriminate|]. right. auto.
      * eexists. split; [reflexivity|]. split; [discriminate|]. left.
        constructor; [|constructor]. rewrite <- E. apply clean_trimmed.
        rewrite E. discriminate.
  - destruct (Nat.ltb li (List.length text)).
    + destruct (trim (slice_from text li)) as [|x t] eqn:E.
      * eexists. split; [reflexivity|]. split; [discriminate|]. now left.
      * eexists. split; [reflexivity|]. split; [discriminate|]. left.
        change (q :: parts ++ [Part PText (x :: t)])
          with ((q :: parts) ++ [Part PText (x :: t)]).
        apply Forall_app. split; [exact Hc|].
        constructor; [|constructor]. rewrite <- E. apply clean_trimmed.
        rewrite E. discriminate.
    + eexists. split; [reflexivity|]. split; [discriminate|]. now left.
Qed.

(** ** The workflow context *)

Lemma obj_get_replace_same (k : str) (v : json) (o : list (str * json)) :
  obj_get k o <> None -> obj_get k (obj_replace k v o) = Some v.
Proof.
  induction o as [|[k' v'] o IH]; cbn [obj_get obj_replace]; [congruence|].
  destruct (Js.eqb k k') eqn:E; cbn [obj_get]; rewrite E; [reflexivity|].
  exact IH.
Qed.

Lemma obj_get_insert_same (k : str) (v : json) (o : list (str * json)) :
  obj_get k o = None -> obj_get k (obj_insert k v o) = Some v.
Proof.
  induction o as [|[k' v'] o IH]; cbn [obj_get obj_insert].
  - now rewrite Js_eqb_refl.
  - destruct (Js.eqb k k') eqn:E; [discriminate|]. intros H.
    destruct (array_index k) as [i|];
      [destruct (array_index k') as [i'|]; [destruct (i <? i')|]|];
      cbn [obj_get]; rewrite ?Js_eqb_refl, ?E; auto.
Qed.

Lemma obj_get_set_same (k : str) (v : json) (o : list (str * json)) :
  obj_get k (obj_set k v o) = Some v.
Proof.
  unfold obj_set. destruct (obj_get k o) eqn:E.
  - apply obj_get_replace_same. congruence.
  - now apply obj_get_insert_same.
Qed.

Lemma obj_get_set_other (k k' : str) (v : json) (o : list (str * json)) :
  k' <> k -> obj_get k' (obj_set k v o) = obj_get k' o.
Proof.
  intros Hk. apply Js_eqb_neq in Hk as Hk'. unfold obj_set.
  destruct (obj_get k o) as [x|].
  - induction o as [|[k1 v1] o IH]; cbn [obj_get obj_replace]; [reflexivity|].
    destruct (Js.eqb k k1) eqn:E; cbn [obj_get].
    + apply Js_eqb_eq in E. subst k1. now rewrite Hk'.
    + destruct (Js.eqb k' k1); [reflexivity|exact IH].
  - induction o as [|[k1 v1] o IH]; cbn [obj_get obj_insert].
    + now rewrite Hk'.
    + destruct (array_index k) as [i|];
        [destruct (array_index k1) as [i'|]; [destruct (i <? i')|]|];
        cbn [obj_get]; rewrite ?Hk'; try reflexivity;
        destruct (Js.eqb k' k1); auto.
Qed.

Lemma obj_get_without_tags (k : str) (o : list (str * json)) :
  obj_get k (WorkflowContext.without_tags o)
  = if Js.eqb k (js "tags") then None else obj_get k o.
Proof.
  unfold WorkflowContext.without_tags.
  induction o as [|[k1 v1] o IH]; cbn [filter obj_get fst];
    [now destruct (Js.eqb k (js "tags"))|].
  destruct (Js.eqb k1 (js "tags")) eqn:E1; cbn [negb obj_get].
  - apply Js_eqb_eq in E1. subst k1. rewrite IH.
    now destruct (Js.eqb k (js "tags")).
  - rewrite IH. destruct (Js.eqb k k1) eqn:E; [|reflexivity].
    apply Js_eqb_eq in E. subst k1. now rewrite E1.
Qed.

(** X24. The workflow data put in front of the model never has a tags
    property; its meta property is an object whose instanceId is that of the
    instance and whose other properties are those of the component's meta;
    every other property is that of the workflow data. *)
Theorem workflow_context_fields :
  forall (workflowData : list (str * json)) (props_meta : jsval)
         (instanceId : json),
    let export :=
      WorkflowContext.getCurrentWorkflowData workflowData props_meta
                                             instanceId in
    obj_get (js "tags") export = None
    /\ (exists m,
           obj_get (js "meta") export = Some (JObject m)
           /\ obj_get (js "instanceId") m = Some instanceId
           /\ forall k, k <> js "instanceId" ->
                        obj_get k m = obj_get k (meta_fields props_meta))
    /\ forall k, k <> js "tags" -> k <> js "meta" ->
                 obj_get k export = obj_get k workflowData.
Proof.
  intros wd pm iid export. subst export.
  unfold WorkflowContext.getCurrentWorkflowData.
  split; [|split].
  - rewrite obj_get_set_other by discriminate.
    now rewrite obj_get_without_tags.
  - eexists. split; [apply obj_get_set_same|].
    fold (meta_fields pm). split; [apply obj_get_set_same|].
    intros k Hk. now apply obj_get_set_other.
  - intros k H1 H2. rewrite obj_get_set_other by exact H2.
    rewrite obj_get_without_tags. now rewrite (Js_eqb_neq H1).
Qed.

Lemma workflow_context_fields_witness :
  obj_get (js "tags")
          (WorkflowContext.getCurrentWorkflowData sample_workflow None
             (JString (js "instance-1")))
  = None
  /\ obj_get (js "name")
             (WorkflowContext.getCurrentWorkflowData sample_workflow None
                (JString (js "instance-1")))
     = Some (JString (js "My workflow")).
Proof.
  destruct (workflow_context_fields sample_workflow None
              (JString (js "instance-1"))) as (T & _ & O).
  split; [exact T|].
  exact (O (js "name") ltac:(discriminate) ltac:(discriminate)).
Defined.

(** ** The first turn *)

(** X25. In a panel as it is created, whose only message is the greeting,
    the history sent with the first message of the user is that greeting as
    an assistant message: the list of messages the handler passes to the
    provider then starts with an assistant message, followed by the message
    of the user in its workflow context. *)
Theorem first_turn_history :
  forall (message : Message) (workflowData : json) (id0 now0 id now : N),
    msg_sender message = FromUser ->
    let o := HandleSendMessage.prepare message workflowData id now
               (new_panel id0 now0) in
    HandleSendMessage.out_history o
    ++ [ChatMsg RUser (HandleSendMessage.out_message o)]
    = [ChatMsg RAssistant HandleSendMessage.greeting;
       ChatMsg RUser (HandleSendMessage.messageWithContext workflowData
                        (msg_text message))].
Proof.
  intros [i t s ts] wf id0 now0 id now Hs. cbn [msg_sender] in Hs. subst s.
  cbn zeta. unfold HandleSendMessage.prepare.
  cbn [HandleSendMessage.out_history HandleSendMessage.out_message].
  unfold HandleSendMessage.conversationHistory, new_panel,
    HandleSendMessage.initial_messages.
  cbn [messages app filter].
  change (HandleSendMessage.not_empty_ai
            (Msg id0 HandleSendMessage.greeting FromCopilot now0)) with true.
  change (HandleSendMessage.not_empty_ai (Msg i t FromUser ts)) with true.
  change (HandleSendMessage.not_empty_ai (Msg id [] FromCopilot now))
    with false.
  cbn iota. reflexivity.
Qed.

Lemma first_turn_history_witness :
  HandleSendMessage.out_history
    (HandleSendMessage.prepare next_message JNull 5 4 (new_panel 1 0))
  ++ [ChatMsg RUser
        (HandleSendMessage.out_message
           (HandleSendMessage.prepare next_message JNull 5 4 (new_panel 1 0)))]
  = [ChatMsg RAssistant HandleSendMessage.greeting;
     ChatMsg RUser (HandleSendMessage.messageWithContext JNull (js "and now?"))].
Proof.
  exact (first_turn_history next_message JNull 1 0 5 4 eq_refl).
Defined.

(* ================================================================== *)
(** * The bytes of the stream *)

(** ** The decoder on what the encoder writes *)

Ltac dlia := zify; Z.to_euclidean_division_equations; lia.

Ltac cmp1 :=
  match goal with
  | |- context [?a <? ?b] => destruct (N.ltb_spec a b)
  | |- context [?a <=? ?b] => destruct (N.leb_spec a b)
  | |- context [?a =? ?b] => destruct (N.eqb_spec a b)
  end; cbn [andb orb negb]; try (exfalso; dlia).

Ltac cmp := repeat cmp1.

Lemma not_surrogate (c : N) :
  is_high_surrogate c = false -> is_low_surrogate c = false ->
  c < 55296 \/ 57343 < c.
Proof.
  unfold is_high_surrogate, is_low_surrogate.
  destruct (N.leb_spec 55296 c), (N.leb_spec c 56319), (N.leb_spec 56320 c),
    (N.leb_spec c 57343); cbn; intros; try discriminate; lia.
Qed.

Lemma surrogate_ranges (c d : N) :
  is_high_surrogate c = true -> is_low_surrogate d = true ->
  55296 <= c <= 56319 /\ 56320 <= d <= 57343.
Proof.
  unfold is_high_surrogate, is_low_surrogate. intros Hc Hd.
  apply andb_true_iff in Hc as [H1 H2]. apply andb_true_iff in Hd as [H3 H4].
  apply N.leb_le in H1, H2, H3, H4. lia.
Qed.

Lemma lead_ascii (b : N) : b < 128 -> lead b = Emit b.
Proof. intros H. unfold lead. cmp. reflexivity. Qed.

Lemma lead_continuation (b : N) : continuation b -> lead b = Invalid.
Proof. unfold continuation. intros H. unfold lead. cmp. reflexivity. Qed.

Lemma decode_from_ascii (b : N) (r : list N) :
  b < 128 -> decode_from None (b :: r) = b :: decode_from None r.
Proof. intros H. cbn [decode_from]. now rewrite lead_ascii. Qed.

Lemma decode_from_continuation (y r : list N) :
  Forall continuation y ->
  decode_from None (y ++ r)
  = repeat 65533 (List.length y) ++ decode_from None r.
Proof.
  induction 1 as [|b y Hb _ IH]; [reflexivity|].
  cbn [app decode_from List.length repeat].
  now rewrite (lead_continuation Hb), IH.
Qed.

(** An open sequence ends with an error at a byte below 128, which is then
    read on its own. *)
Lemma decode_from_pending_ascii (p : pending) (b : N) (r : list N) :
  b < 128 -> 128 <= lower p ->
  decode_from (Some p) (b :: r) = 65533 :: b :: decode_from None r.
Proof.
  intros Hb Hl. cbn [decode_from]. rewrite (lead_ascii Hb).
  destruct (N.leb_spec (lower p) b); [lia|]. reflexivity.
Qed.

Lemma lead_ok (b : N) (p : pending) : lead b = Wait p -> 128 <= lower p.
Proof.
  unfold lead.
  destruct (b <? 128); [discriminate|].
  destruct ((194 <=? b) && (b <=? 223));
    [intros H; injection H as <-; simpl; lia|].
  destruct ((224 <=? b) && (b <=? 239));
    [intros H; injection H as <-; simpl; destruct (b =? 224); lia|].
  destruct ((240 <=? b) && (b <=? 244));
    [intros H; injection H as <-; simpl; destruct (b =? 240); lia|].
  discriminate.
Qed.

(** A byte below 128 starts afresh, whatever was open before it. *)
Lemma decode_from_app_ascii (a : N) (Y : list N) :
  a < 128 ->
  forall X st,
    ok_state st ->
    decode_from st (X ++ a :: Y)
    = decode_from st X ++ decode_from None (a :: Y).
Proof.
  intros Ha. induction X as [|b X IH]; intros st Hst.
  - destruct st as [p|]; [|reflexivity].
    cbn [app]. rewrite decode_from_pending_ascii by assumption.
    rewrite decode_from_ascii by assumption. reflexivity.
  - assert (F : match lead b with
                | Emit c => c :: decode_from None (X ++ a :: Y)
                | Wait p => decode_from (Some p) (X ++ a :: Y)
                | Invalid => 65533 :: decode_from None (X ++ a :: Y)
                end
                = match lead b with
                  | Emit c => c :: decode_from None X
                  | Wait p => decode_from (Some p) X
                  | Invalid => 65533 :: decode_from None X
                  end ++ decode_from None (a :: Y)).
    { destruct (lead b) as [c|p|] eqn:E.
      - now rewrite (IH None I).
      - apply (IH (Some p)). exact (lead_ok _ E).
      - now rewrite (IH None I). }
    cbn [app decode_from]. destruct st as [p|]; [|exact F].
    destruct ((lower p <=? b) && (b <=? upper p)).
    + destruct (needed p) as [|[|n]].
      * now rewrite (IH None I).
      * now rewrite (IH None I).
      * apply (IH (Some _)). simpl. lia.
    + cbn [app]. now rewrite F.
Qed.

Lemma decode_raw_app_ascii (X : list N) (a : N) (Y : list N) :
  a < 128 -> decode_raw (X ++ a :: Y) = decode_raw X ++ a :: decode_raw Y.
Proof.
  intros Ha. unfold decode_raw.
  rewrite (decode_from_app_ascii Y Ha X None I), flat_map_app.
  rewrite decode_from_ascii by assumption. cbn [flat_map]. unfold units_of.
  destruct (N.ltb_spec a 65536); [reflexivity|lia].
Qed.

(** *** One character *)

Lemma lead_two (b : N) :
  194 <= b <= 223 -> lead b = Wait (Pending (b mod 32) 1 128 191).
Proof. intros H. unfold lead. cmp. reflexivity. Qed.

Lemma lead_three (b : N) :
  224 <= b <= 239 ->
  lead b = Wait (Pending (b mod 16) 2 (if b =? 224 then 160 else 128)
                         (if b =? 237 then 159 else 191)).
Proof.
  intros H. unfold lead.
  destruct (N.ltb_spec b 128); [lia|].
  destruct (N.leb_spec 194 b); [|lia].
  destruct (N.leb_spec b 223); [lia|].
  destruct (N.leb_spec 224 b); [|lia].
  destruct (N.leb_spec b 239); [|lia]. reflexivity.
Qed.

Lemma lead_four (b : N) :
  240 <= b <= 244 ->
  lead b = Wait (Pending (b mod 8) 3 (if b =? 240 then 144 else 128)
                         (if b =? 244 then 143 else 191)).
Proof.
  intros H. unfold lead.
  destruct (N.ltb_spec b 128); [lia|].
  destruct (N.leb_spec 194 b); [|lia].
  destruct (N.leb_spec b 223); [lia|].
  destruct (N.leb_spec 224 b); [|lia].
  destruct (N.leb_spec b 239); [lia|].
  destruct (N.leb_spec 240 b); [|lia].
  destruct (N.leb_spec b 244); [|lia]. reflexivity.
Qed.

Lemma decode_from_lead (b : N) (p : pending) (r : list N) :
  lead b = Wait p -> decode_from None (b :: r) = decode_from (Some p) r.
Proof. intros H. cbn [decode_from]. now rewrite H. Qed.

Lemma decode_from_next (p : pending) (b : N) (r : list N) :
  lower p <= b <= upper p ->
  decode_from (Some p) (b :: r)
  = match needed p with
    | S (S n) =>
        decode_from (Some (Pending (cp p * 64 + b mod 64) (S n) 128 191)) r
    | _ => cp p * 64 + b mod 64 :: decode_from None r
    end.
Proof.
  intros [H1 H2]. cbn [decode_from].
  destruct (N.leb_spec (lower p) b); [|lia].
  destruct (N.leb_spec b (upper p)); [|lia]. reflexivity.
Qed.

(** The bytes of a unit that is no surrogate decode to that unit. *)
Lemma decode_from_unit (c : N) (r : list N) :
  c < 65536 -> is_high_surrogate c = false -> is_low_surrogate c = false ->
  decode_from None (encode_unit c ++ r) = c :: decode_from None r.
Proof.
  intros Hc Hh Hl. pose proof (not_surrogate c Hh Hl) as Hs.
  unfold encode_unit.
  destruct (N.ltb_spec c 128); [now apply decode_from_ascii|].
  destruct (N.ltb_spec c 2048); cbn [app].
  - rewrite (@decode_from_lead _ _ _ (@lead_two (192 + c / 64) ltac:(dlia))).
    rewrite decode_from_next by (cbn [lower upper]; dlia).
    cbn [needed cp]. f_equal. dlia.
  - rewrite (@decode_from_lead _ _ _ (@lead_three (224 + c / 4096) ltac:(dlia))).
    rewrite decode_from_next
      by (cbn [lower upper];
          destruct (N.eqb_spec (224 + c / 4096) 224);
          destruct (N.eqb_spec (224 + c / 4096) 237); dlia).
    cbn [needed cp].
    rewrite decode_from_next by (cbn [lower upper]; dlia).
    cbn [needed cp]. f_equal. dlia.
Qed.

(** The four bytes of a surrogate pair decode to its code point. *)
Lemma decode_from_pair (c d : N) (r : list N) :
  is_high_surrogate c = true -> is_low_surrogate d = true ->
  decode_from None (encode_pair c d ++ r)
  = 65536 + (c - 55296) * 1024 + (d - 56320) :: decode_from None r.
Proof.
  intros Hc Hd. pose proof (surrogate_ranges c d Hc Hd) as Hr.
  unfold encode_pair.
  set (x := 65536 + (c - 55296) * 1024 + (d - 56320)).
  assert (Hx : 65536 <= x < 1114112) by (subst x; lia).
  clearbody x. cbv zeta. cbn [app].
  rewrite (@decode_from_lead _ _ _ (@lead_four (240 + x / 262144) ltac:(dlia))).
  rewrite decode_from_next
    by (cbn [lower upper];
        destruct (N.eqb_spec (240 + x / 262144) 240);
        destruct (N.eqb_spec (240 + x / 262144) 244); dlia).
  cbn [needed cp].
  rewrite decode_from_next by (cbn [lower upper]; dlia).
  cbn [needed cp].
  rewrite decode_from_next by (cbn [lower upper]; dlia).
  cbn [needed cp]. f_equal. dlia.
Qed.

Lemma units_of_pair (c d : N) :
  is_high_surrogate c = true -> is_low_surrogate d = true ->
  units_of (65536 + (c - 55296) * 1024 + (d - 56320)) = [c; d].
Proof.
  intros Hc Hd. pose proof (surrogate_ranges c d Hc Hd) as Hr.
  unfold units_of.
  destruct (N.ltb_spec (65536 + (c - 55296) * 1024 + (d - 56320)) 65536);
    [lia|].
  f_equal; [|f_equal]; dlia.
Qed.

Lemma decode_raw_unit (c : N) (r : list N) :
  c < 65536 -> is_high_surrogate c = false -> is_low_surrogate c = false ->
  decode_raw (encode_unit c ++ r) = c :: decode_raw r.
Proof.
  intros Hc Hh Hl. unfold decode_raw. rewrite decode_from_unit by assumption.
  cbn [flat_map]. unfold units_of.
  destruct (N.ltb_spec c 65536); [reflexivity|lia].
Qed.

Lemma decode_raw_pair (c d : N) (r : list N) :
  is_high_surrogate c = true -> is_low_surrogate d = true ->
  decode_raw (encode_pair c d ++ r) = c :: d :: decode_raw r.
Proof.
  intros Hc Hd. unfold decode_raw. rewrite decode_from_pair by assumption.
  cbn [flat_map]. now rewrite units_of_pair.
Qed.

(** *** A character cut in two *)

Lemma cut_one (A : Type) (b0 : A) (x y : list A) :
  [b0] = x ++ y -> x <> [] -> y <> [] -> False.
Proof.
  intros H Hx Hy. destruct x as [|a [|b x]]; [contradiction| |discriminate H].
  injection H as _ H. now subst y.
Qed.

Lemma cut_two (A : Type) (b0 b1 : A) (x y : list A) :
  [b0; b1] = x ++ y -> x <> [] -> y <> [] -> x = [b0] /\ y = [b1].
Proof.
  intros H Hx Hy.
  destruct x as [|a [|b [|b' x]]]; [contradiction| | |discriminate H].
  - injection H as <- <-. now split.
  - injection H as _ _ H. now subst y.
Qed.

Lemma cut_three (A : Type) (b0 b1 b2 : A) (x y : list A) :
  [b0; b1; b2] = x ++ y -> x <> [] -> y <> [] ->
  (x = [b0] /\ y = [b1; b2]) \/ (x = [b0; b1] /\ y = [b2]).
Proof.
  intros H Hx Hy.
  destruct x as [|a [|b [|b' [|b'' x]]]];
    [contradiction| | | |discriminate H].
  - injection H as <- <-. left. now split.
  - injection H as <- <- <-. right. now split.
  - injection H as _ _ _ H. now subst y.
Qed.

Lemma cut_four (A : Type) (b0 b1 b2 b3 : A) (x y : list A) :
  [b0; b1; b2; b3] = x ++ y -> x <> [] -> y <> [] ->
  (x = [b0] /\ y = [b1; b2; b3]) \/ (x = [b0; b1] /\ y = [b2; b3])
  \/ (x = [b0; b1; b2] /\ y = [b3]).
Proof.
  intros H Hx Hy.
  destruct x as [|a [|b [|b' [|b'' [|b3' x]]]]];
    [contradiction| | | | |discriminate H].
  - injection H as <- <-. left. now split.
  - injection H as <- <- <-. right. left. now split.
  - injection H as <- <- <- <-. right. right. now split.
  - injection H as _ _ _ _ H. now subst y.
Qed.

Lemma continuation_low (v : N) : continuation (128 + v mod 64).
Proof. unfold continuation. dlia. Qed.

Ltac conts :=
  repeat (apply Forall_cons; [apply continuation_low|]); apply Forall_nil.

(** The first bytes of a unit, without the last ones, decode to U+FFFD; the
    bytes left continue a sequence. *)
Lemma truncated_unit (c : N) (x y : list N) :
  c < 65536 -> is_high_surrogate c = false -> is_low_surrogate c = false ->
  encode_unit c = x ++ y -> x <> [] -> y <> [] ->
  128 <= c /\ decode_from None x = [65533] /\ Forall continuation y.
Proof.
  intros Hc Hh Hl H Hx Hy. pose proof (not_surrogate c Hh Hl) as Hs.
  unfold encode_unit in H.
  destruct (N.ltb_spec c 128); [elim (cut_one H Hx Hy)|].
  split; [assumption|].
  destruct (N.ltb_spec c 2048).
  - destruct (cut_two H Hx Hy) as [-> ->]. split; [|conts].
    now rewrite (@decode_from_lead _ _ _
                   (@lead_two (192 + c / 64) ltac:(dlia))).
  - assert (L := @lead_three (224 + c / 4096) ltac:(dlia)).
    destruct (cut_three H Hx Hy) as [[-> ->]|[-> ->]]; (split; [|conts]).
    + now rewrite (@decode_from_lead _ _ _ L).
    + rewrite (@decode_from_lead _ _ _ L).
      rewrite decode_from_next
        by (cbn [lower upper];
            destruct (N.eqb_spec (224 + c / 4096) 224);
            destruct (N.eqb_spec (224 + c / 4096) 237); dlia).
      reflexivity.
Qed.

Lemma truncated_pair (c d : N) (x y : list N) :
  is_high_surrogate c = true -> is_low_surrogate d = true ->
  encode_pair c d = x ++ y -> x <> [] -> y <> [] ->
  decode_from None x = [65533] /\ Forall continuation y.
Proof.
  intros Hc Hd H Hx Hy. pose proof (surrogate_ranges c d Hc Hd) as Hr.
  unfold encode_pair in H.
  set (v := 65536 + (c - 55296) * 1024 + (d - 56320)) in H.
  assert (Hv : 65536 <= v < 1114112) by (subst v; lia).
  clearbody v. cbv zeta in H.
  assert (L := @lead_four (240 + v / 262144) ltac:(dlia)).
  assert (B : lower (Pending ((240 + v / 262144) mod 8) 3
                       (if 240 + v / 262144 =? 240 then 144 else 128)
                       (if 240 + v / 262144 =? 244 then 143 else 191))
              <= 128 + (v / 4096) mod 64
              <= upper (Pending ((240 + v / 262144) mod 8) 3
                          (if 240 + v / 262144 =? 240 then 144 else 128)
                          (if 240 + v / 262144 =? 244 then 143 else 191))).
  { cbn [lower upper].
    destruct (N.eqb_spec (240 + v / 262144) 240);
      destruct (N.eqb_spec (240 + v / 262144) 244); dlia. }
  destruct (cut_four H Hx Hy) as [[-> ->]|[[-> ->]|[-> ->]]];
    (split; [|conts]).
  - now rewrite (@decode_from_lead _ _ _ L).
  - rewrite (@decode_from_lead _ _ _ L), (@decode_from_next _ _ _ B). reflexivity.
  - rewrite (@decode_from_lead _ _ _ L), (@decode_from_next _ _ _ B).
    cbn [needed cp].
    rewrite decode_from_next by (cbn [lower upper]; dlia). reflexivity.
Qed.

(** *** Strings *)

Lemma encode_unit_cons (c : N) (s : str) :
  is_high_surrogate c = false -> is_low_surrogate c = false ->
  encode (c :: s) = encode_unit c ++ encode s.
Proof. intros Hh Hl. cbn [encode]. now rewrite Hh, Hl. Qed.

Lemma encode_pair_cons (c d : N) (s : str) :
  is_high_surrogate c = true -> is_low_surrogate d = true ->
  encode (c :: d :: s) = encode_pair c d ++ encode s.
Proof. intros Hc Hd. cbn [encode]. now rewrite Hc, Hd. Qed.

(** What is written is read back, for a well-formed string. *)
Lemma decode_raw_encode (s : str) : well_formed s -> decode_raw (encode s) = s.
Proof.
  induction 1 as [|c s Hc Hh Hl _ IH|c d s Hc Hd _ IH]; [reflexivity| |].
  - rewrite encode_unit_cons, decode_raw_unit, IH by assumption. reflexivity.
  - rewrite encode_pair_cons, decode_raw_pair, IH by assumption. reflexivity.
Qed.

Lemma decode_raw_replaced (n : nat) (r : list N) :
  flat_map units_of (repeat 65533 n ++ r)
  = repeat 65533 n ++ flat_map units_of r.
Proof. induction n as [|n IH]; [reflexivity|]. cbn. now rewrite IH. Qed.

(** The bytes left of a character that was cut, and what follows them. *)
Lemma decode_raw_rest (y : list N) (s : str) :
  Forall continuation y -> y <> [] -> well_formed s ->
  exists tail,
    decode_raw (y ++ encode s) = 65533 :: tail /\ incl tail (65533 :: s).
Proof.
  intros Hy Hne Hs. unfold decode_raw.
  rewrite decode_from_continuation, decode_raw_replaced by assumption.
  fold (decode_raw (encode s)). rewrite decode_raw_encode by assumption.
  destruct y as [|b y]; [contradiction|]. cbn [List.length repeat app].
  eexists. split; [reflexivity|].
  intros v Hv. apply in_app_or in Hv as [Hv|Hv].
  - apply repeat_spec in Hv. subst v. now left.
  - now right.
Qed.

(** The two sides of a cut in the bytes of a well-formed string: the cut
    is between two characters and each side decodes to its part of the
    string; or it is inside a character, which is no ASCII character, and
    then the first side decodes to what precedes the character and one
    U+FFFD, the second to a text that starts with U+FFFD. *)
Lemma encode_cut (L : str) :
  well_formed L ->
  forall b1 b2,
    encode L = b1 ++ b2 ->
    (exists p1 p2,
        L = p1 ++ p2 /\ b1 = encode p1 /\ b2 = encode p2
        /\ decode_raw b1 = p1 /\ decode_raw b2 = p2)
    \/ (exists p1 u rest tail,
           L = p1 ++ u :: rest /\ 128 <= u
           /\ decode_raw b1 = p1 ++ [65533]
           /\ decode_raw b2 = 65533 :: tail
           /\ incl tail (65533 :: rest)).
Proof.
  induction 1 as [|c s Hc Hh Hl Hs IH|c d s Hc Hd Hs IH]; intros b1 b2 H.
  - left. exists [], []. cbn [encode] in H.
    symmetry in H. apply app_eq_nil in H as [-> ->]. auto.
  - rewrite encode_unit_cons in H by assumption.
    apply app_eq_app in H as (l & [[E ->]|[-> E]]).
    + destruct b1 as [|a b1].
      { left. exists [], (c :: s). cbn [app] in E. subst l.
        rewrite <- encode_unit_cons by assumption.
        rewrite decode_raw_encode by (now apply wf_unit). auto. }
      destruct l as [|a' l].
      { left. exists [c], s. rewrite app_nil_r in E. rewrite <- E.
        cbn [app]. repeat split.
        - rewrite encode_unit_cons by assumption. cbn [encode].
          now rewrite app_nil_r.
        - rewrite <- (app_nil_r (encode_unit c)).
          now rewrite decode_raw_unit.
        - now apply decode_raw_encode. }
      right.
      destruct (@truncated_unit c (a :: b1) (a' :: l) Hc Hh Hl E
                  ltac:(discriminate) ltac:(discriminate)) as (Hu & Hx & Hy).
      destruct (@decode_raw_rest (a' :: l) s Hy ltac:(discriminate) Hs)
        as (tail & Et & Ht).
      exists [], c, s, tail. repeat split; auto.
      unfold decode_raw. now rewrite Hx.
    + destruct (IH l b2 E)
        as [(p1 & p2 & -> & -> & -> & D1 & D2)
           |(p1 & u & rest & tail & -> & Hu & D1 & D2 & Ht)].
      * left. exists (c :: p1), p2. repeat split; auto.
        -- now rewrite encode_unit_cons.
        -- rewrite decode_raw_unit by assumption. now rewrite D1.
      * right. exists (c :: p1), u, rest, tail. repeat split; auto.
        rewrite decode_raw_unit by assumption. now rewrite D1.
  - rewrite encode_pair_cons in H by assumption.
    pose proof (surrogate_ranges c d Hc Hd) as Hr.
    apply app_eq_app in H as (l & [[E ->]|[-> E]]).
    + destruct b1 as [|a b1].
      { left. exists [], (c :: d :: s). cbn [app] in E. subst l.
        rewrite <- encode_pair_cons by assumption.
        rewrite decode_raw_encode by (now apply wf_pair). auto. }
      destruct l as [|a' l].
      { left. exists [c; d], s. rewrite app_nil_r in E. rewrite <- E.
        cbn [app]. repeat split.
        - rewrite encode_pair_cons by assumption. cbn [encode].
          now rewrite app_nil_r.
        - rewrite <- (app_nil_r (encode_pair c d)).
          now rewrite decode_raw_pair.
        - now apply decode_raw_encode. }
      right.
      destruct (@truncated_pair c d (a :: b1) (a' :: l) Hc Hd E
                  ltac:(discriminate) ltac:(discriminate)) as (Hx & Hy).
      destruct (@decode_raw_rest (a' :: l) s Hy ltac:(discriminate) Hs)
        as (tail & Et & Ht).
      exists [], c, (d :: s), tail. repeat split; auto; try lia.
      * unfold decode_raw. now rewrite Hx.
      * intros v Hv. apply Ht in Hv. destruct Hv as [Hv|Hv];
          [now left|right; now right].
    + destruct (IH l b2 E)
        as [(p1 & p2 & -> & -> & -> & D1 & D2)
           |(p1 & u & rest & tail & -> & Hu & D1 & D2 & Ht)].
      * left. exists (c :: d :: p1), p2. repeat split; auto.
        -- now rewrite encode_pair_cons.
        -- rewrite decode_raw_pair by assumption. now rewrite D1.
      * right. exists (c :: d :: p1), u, rest, tail. repeat split; auto.
        rewrite decode_raw_pair by assumption. now rewrite D1.
Qed.

(** ** The frame lines are well-formed strings *)

Lemma well_formed_app (a b : str) :
  well_formed a -> well_formed b -> well_formed (a ++ b).
Proof.
  induction 1 as [|c s Hc Hh Hl _ IH|c d s Hc Hd _ IH]; intros Hb;
    [assumption| |]; cbn [app].
  - apply wf_unit; auto.
  - apply wf_pair; auto.
Qed.

Lemma ascii_well_formed (s : str) :
  forallb (fun u => u <? 128) s = true -> well_formed s.
Proof.
  induction s as [|c s IH]; [constructor|].
  cbn [forallb]. intros H. apply andb_true_iff in H as [Hc Hs].
  apply N.ltb_lt in Hc. apply wf_unit; auto; try lia.
  - unfold is_high_surrogate. destruct (N.leb_spec 55296 c); [lia|reflexivity].
  - unfold is_low_surrogate. destruct (N.leb_spec 56320 c); [lia|reflexivity].
Qed.

Lemma hex_digit_ascii (v : N) : (hex_digit (v mod 16) <? 128) = true.
Proof. unfold hex_digit. apply N.ltb_lt. destruct (v mod 16 <? 10); dlia. Qed.

Lemma quote_unit_well_formed (c : N) :
  code_units (quote_unit c) = true -> well_formed (quote_unit c).
Proof.
  unfold quote_unit.
  repeat match goal with
         | |- context [if ?a =? ?b then _ else _] =>
             destruct (a =? b);
             [intros _; apply ascii_well_formed; reflexivity|]
         end.
  destruct (c <? 32) eqn:E1; cbn [orb].
  { intros _. apply ascii_well_formed. unfold unicode_escape.
    cbn [forallb]. now rewrite !hex_digit_ascii. }
  destruct (is_high_surrogate c) eqn:E2; cbn [orb].
  { intros _. apply ascii_well_formed. unfold unicode_escape.
    cbn [forallb]. now rewrite !hex_digit_ascii. }
  destruct (is_low_surrogate c) eqn:E3.
  { intros _. apply ascii_well_formed. unfold unicode_escape.
    cbn [forallb]. now rewrite !hex_digit_ascii. }
  cbn [code_units forallb]. intros H. apply andb_true_iff in H as [H _].
  apply N.ltb_lt in H. apply wf_unit; auto. constructor.
Qed.

Lemma code_units_app (a b : str) :
  code_units (a ++ b) = code_units a && code_units b.
Proof. apply forallb_app. Qed.

Lemma escaped_well_formed (Q : str) :
  escaped Q -> code_units Q = true -> well_formed Q.
Proof.
  induction 1 as [|c rest _ IH|c d rest Hc Hd _ IH]; intros H.
  - constructor.
  - rewrite code_units_app in H. apply andb_true_iff in H as [H1 H2].
    apply well_formed_app; [now apply quote_unit_well_formed|now apply IH].
  - cbn [code_units forallb] in H.
    apply andb_true_iff in H as [_ H]. apply andb_true_iff in H as [_ H].
    apply wf_pair; auto.
Qed.

Lemma framed_well_formed (P Q : str) :
  forallb (fun u => u <? 128) P = true -> escaped Q ->
  code_units (P ++ Q ++ [34; 125]) = true ->
  well_formed (P ++ Q ++ [34; 125]).
Proof.
  intros HP HQ H. rewrite !code_units_app in H.
  apply andb_true_iff in H as [_ H]. apply andb_true_iff in H as [H _].
  apply well_formed_app; [now apply ascii_well_formed|].
  apply well_formed_app; [now apply escaped_well_formed|].
  now apply ascii_well_formed.
Qed.

Lemma frame_line_well_formed (e : StreamEvent) :
  code_units (frame_line e) = true -> well_formed (frame_line e).
Proof.
  destruct e as [c| |c].
  - rewrite frame_line_text. apply framed_well_formed;
      [reflexivity|apply quote_body_escaped].
  - intros _. apply ascii_well_formed. reflexivity.
  - rewrite frame_line_error. apply framed_well_formed;
      [reflexivity|apply quote_body_escaped].
Qed.

(** ** A frame line cut in two, byte by byte *)

Lemma frame_line_head (e : StreamEvent) : exists r, frame_line e = 100 :: r.
Proof. destruct e; eexists; reflexivity. Qed.

Lemma frame_line_last (e : StreamEvent) (l : str) (x : N) :
  frame_line e = l ++ [x] -> x = 125.
Proof.
  destruct e as [c| |c].
  - rewrite frame_line_text.
    change [34; 125] with ([34] ++ [125]). rewrite !app_assoc.
    intros H. apply app_inj_tail in H as [_ H]. now symmetry.
  - change (frame_line EvComplete)
      with (removelast (frame_line EvComplete) ++ [125]).
    intros H. apply app_inj_tail in H as [_ H]. now symmetry.
  - rewrite frame_line_error.
    change [34; 125] with ([34] ++ [125]). rewrite !app_assoc.
    intros H. apply app_inj_tail in H as [_ H]. now symmetry.
Qed.

(** A content cut before a character that is no ASCII character: the
    string is still open after what precedes it and a U+FFFD. *)
Lemma cut_char_open (P : str) (toks : list token) (Q p1 rest : str) (u : N) :
  forallb (fun u => u <? 128) P = true ->
  startsWith P marker = true ->
  lex_run LStart (skipn 6 P) = Some (LString [], toks) ->
  escaped Q ->
  P ++ Q ++ [34; 125] = p1 ++ u :: rest -> 128 <= u ->
  JSON_parse (slice_from (p1 ++ [65533]) 6) = None.
Proof.
  intros P_ascii P_marker P_lexes HQ Hsplit Hu.
  assert (Hin : ~ In u P).
  { intros K. rewrite forallb_forall in P_ascii. apply P_ascii in K.
    apply N.ltb_lt in K. lia. }
  assert (Hp : exists l l2, p1 = P ++ l /\ Q = l ++ l2).
  { apply app_eq_app in Hsplit as (l & [[EP Hl]|[-> Hl]]).
    - destruct l as [|a l].
      + rewrite app_nil_r in EP. subst p1. exists [], Q. now rewrite app_nil_r.
      + exfalso. injection Hl as <- _. apply Hin. rewrite EP.
        apply in_or_app. right. now left.
    - apply app_eq_app in Hl as (l2 & [[EQ _]|[_ Hl]]).
      + now exists l, l2.
      + exfalso.
        destruct l2 as [|a [|b [|c l2]]]; cbn [app] in Hl;
          try discriminate Hl; injection Hl; intros; subst; lia. }
  destruct Hp as (l & l2 & -> & ->).
  apply startsWith_spec in P_marker as (Hd & EP).
  assert (Hs : slice_from ((P ++ l) ++ [65533]) 6
               = skipn 6 P ++ l ++ [65533]).
  { unfold slice_from. rewrite EP, <- !app_assoc. reflexivity. }
  rewrite Hs. unfold JSON_parse, lex. rewrite lex_from_app, P_lexes.
  assert (Ho := escaped_open HQ). rewrite open_after_app in Ho.
  destruct (open_after MStr l) as [m|] eqn:El; [|discriminate].
  assert (Ho' : exists m', open_after MStr (l ++ [65533]) = Some m').
  { rewrite open_after_app, El.
    destruct m as [| |[|[|k]]]; eexists; reflexivity. }
  destruct Ho' as (m' & Ho').
  now rewrite (@lex_open (l ++ [65533]) (LString []) MStr m').
Qed.

Lemma frame_line_cut_char (e : StreamEvent) (p1 rest : str) (u : N) :
  frame_line e = p1 ++ u :: rest -> 128 <= u ->
  JSON_parse (slice_from (p1 ++ [65533]) 6) = None.
Proof.
  destruct e as [c| |c].
  - rewrite frame_line_text. intros H Hu.
    apply (@cut_char_open text_prefix text_tokens (quote_body c) p1 rest u);
      auto using quote_body_escaped.
  - intros H Hu. exfalso.
    assert (K : In u (frame_line EvComplete))
      by (rewrite H; apply in_or_app; right; now left).
    assert (A : forallb (fun u => u <? 128) (frame_line EvComplete) = true)
      by reflexivity.
    rewrite forallb_forall in A. apply A in K. apply N.ltb_lt in K. lia.
  - rewrite frame_line_error. intros H Hu.
    apply (@cut_char_open error_prefix error_tokens (quote_body c) p1 rest u);
      auto using quote_body_escaped.
Qed.

Lemma encode_nil (s : str) : encode s = [] -> s = [].
Proof.
  destruct s as [|c s]; [reflexivity|]. cbn [encode].
  unfold encode_pair, encode_unit, replacement.
  destruct (is_high_surrogate c).
  - destruct s as [|d s]; [discriminate|].
    destruct (is_low_surrogate d); discriminate.
  - destruct (is_low_surrogate c); [discriminate|].
    destruct (c <? 128); [discriminate|].
    destruct (c <? 2048); discriminate.
Qed.

(** The two sides of a frame line cut anywhere in its bytes: each decodes
    to a line the consumer skips, and to a text without a line break; the
    first starts as the line does. *)
Lemma frame_bytes_skipped (e : StreamEvent) (b1 b2 : list N) :
  code_units (frame_line e) = true ->
  encode (frame_line e) = b1 ++ b2 -> b1 <> [] -> b2 <> [] ->
  skipped (TextDecoder_decode b1) /\ skipped (TextDecoder_decode b2)
  /\ ~ In 10 (TextDecoder_decode b1) /\ ~ In 10 (TextDecoder_decode b2)
  /\ (exists r, decode_raw b1 = 100 :: r)
  /\ (exists x r, decode_raw b2 = x :: r).
Proof.
  intros Hu H H1 H2.
  pose proof (@frame_line_no_newline e) as Hn.
  destruct (frame_line_head e) as (r0 & Hd).
  destruct (encode_cut (frame_line_well_formed e Hu) b1 b2 H)
    as [(p1 & p2 & EL & -> & -> & D1 & D2)
       |(p1 & u & rest & tail & EL & Hge & D1 & D2 & Ht)].
  - assert (N1 : p1 <> []) by (intros ->; now apply H1).
    assert (N2 : p2 <> []) by (intros ->; now apply H2).
    assert (Hh : exists r, p1 = 100 :: r).
    { destruct p1 as [|x p1]; [contradiction|]. rewrite Hd in EL.
      injection EL as <- _. now exists p1. }
    destruct (@frame_pieces_skipped e p1 p2 EL N1 N2) as [S1 S2].
    unfold TextDecoder_decode. rewrite D1, D2.
    destruct Hh as (r & Hr).
    assert (B1 : strip_bom p1 = p1) by (now rewrite Hr).
    rewrite B1.
    assert (I1 : ~ In 10 p1).
    { intros K. apply Hn. rewrite EL. apply in_or_app. now left. }
    assert (I2 : ~ In 10 p2).
    { intros K. apply Hn. rewrite EL. apply in_or_app. now right. }
    assert (X2 : exists x r, p2 = x :: r).
    { destruct p2 as [|x p2]; [contradiction|]. now exists x, p2. }
    destruct p2 as [|x p2]; [contradiction|].
    destruct (N.eq_dec x 65279) as [->|Hx].
    + cbn [strip_bom].
      assert (N3 : p2 <> []).
      { intros ->. pose proof (@frame_line_last e p1 65279 EL). lia. }
      assert (EL' : frame_line e = (p1 ++ [65279]) ++ p2)
        by (now rewrite <- app_assoc).
      assert (N4 : p1 ++ [65279] <> []).
      { intros K. apply app_eq_nil in K as [_ K]. discriminate K. }
      destruct (@frame_pieces_skipped e (p1 ++ [65279]) p2 EL' N4 N3)
        as [_ S3].
      repeat split; auto.
      * intros K. apply I2. now right.
      * now exists r.
    + assert (B2 : strip_bom (x :: p2) = x :: p2).
      { unfold strip_bom. apply N.eqb_neq in Hx. now rewrite Hx. }
      rewrite B2. repeat split; auto. now exists r.
  - assert (Hh : exists r, p1 = 100 :: r).
    { destruct p1 as [|x p1].
      - exfalso. rewrite Hd in EL. injection EL as <- _. lia.
      - rewrite Hd in EL. injection EL as <- _. now exists p1. }
    destruct Hh as (r & Hr).
    unfold TextDecoder_decode. rewrite D1, D2.
    assert (B1 : strip_bom (p1 ++ [65533]) = p1 ++ [65533])
      by (now rewrite Hr).
    rewrite B1. cbn [strip_bom].
    assert (I1 : ~ In 10 (p1 ++ [65533])).
    { intros K. apply in_app_or in K as [K|[K|[]]]; [|discriminate K].
      apply Hn. rewrite EL. apply in_or_app. now left. }
    assert (I2 : ~ In 10 (65533 :: tail)).
    { intros [K|K]; [discriminate K|]. apply Ht in K as [K|K];
        [discriminate K|].
      apply Hn. rewrite EL. apply in_or_app. right. now right. }
    repeat split; auto.
    + right. exact (@frame_line_cut_char e p1 rest u EL Hge).
    + now left.
    + exists (r ++ [65533]). now rewrite Hr.
    + now exists 65533, tail.
Qed.

(** ** Reads that cut a frame *)

Lemma strip_bom_app (s t : str) :
  s <> [] -> strip_bom (s ++ t) = strip_bom s ++ t.
Proof.
  destruct s as [|c s]; [contradiction|]. intros _. cbn [app strip_bom].
  destruct (c =? 65279); reflexivity.
Qed.

Lemma strip_bom_line (s : str) : exists a, strip_bom (s ++ [10]) = a ++ [10].
Proof.
  destruct s as [|c s]; [now exists []|]. cbn [app strip_bom].
  destruct (c =? 65279); [now exists s|now exists (c :: s)].
Qed.

(** A read that ends with a line break and goes on with the first bytes of
    a frame line. *)
Lemma decode_before_cut (A b1 : list N) (r : str) :
  A = [] \/ (exists A', A = A' ++ [10]) ->
  decode_raw b1 = 100 :: r ->
  TextDecoder_decode (A ++ b1) = TextDecoder_decode A ++ TextDecoder_decode b1
  /\ (TextDecoder_decode A = []
      \/ exists a, TextDecoder_decode A = a ++ [10]).
Proof.
  intros [->|(A' & ->)] Hr; unfold TextDecoder_decode.
  - split; [reflexivity|now left].
  - rewrite <- app_assoc. cbn [app].
    rewrite !decode_raw_app_ascii by lia.
    change (decode_raw []) with (@nil N).
    rewrite Hr. cbn [strip_bom]. 
    change (100 =? 65279) with false. cbn iota.
    change (decode_raw A' ++ 10 :: 100 :: r)
      with (decode_raw A' ++ [10] ++ 100 :: r).
    rewrite app_assoc, strip_bom_app
      by (intros K; apply app_eq_nil in K as [_ K]; discriminate K).
    split; [reflexivity|]. right. apply strip_bom_line.
Qed.

(** A read that starts with the last bytes of a frame line, the line break
    after it and more. *)
Lemma decode_after_cut (b2 B : list N) (x : N) (r : str) :
  decode_raw b2 = x :: r ->
  TextDecoder_decode (b2 ++ 10 :: B)
  = TextDecoder_decode b2 ++ 10 :: decode_raw B
  /\ TextDecoder_decode (10 :: B) = 10 :: decode_raw B.
Proof.
  intros Hr. unfold TextDecoder_decode. split.
  - rewrite decode_raw_app_ascii by lia.
    apply strip_bom_app. rewrite Hr. discriminate.
  - change (10 :: B) with ([] ++ 10 :: B).
    rewrite decode_raw_app_ascii by lia. reflexivity.
Qed.

Lemma frames_of_leading_break (a b : str) :
  frames_of [a; 10 :: b] = frames_of [a; b].
Proof.
  unfold frames_of. cbn [flat_map].
  change (10 :: b) with ([] ++ 10 :: b). rewrite split_app_sep.
  reflexivity.
Qed.

Lemma callbacks_of_reads (has : bool) (st : N) (reads : list (list N))
      (e : ending) :
  callbacks (streamChatResponse has
               (FetchResolves
                  (Response true st (Some (body_of_reads reads e)))))
  = let (cbs, stopped) :=
      dispatch has
        (flat_map (fun value =>
                     frames_of_lines (split 10 (TextDecoder_decode value)))
                  reads) in
    if stopped then cbs else cbs ++ stream_end e.
Proof.
  unfold body_of_reads. rewrite callbacks_of_body. unfold frames_of.
  now rewrite flat_map_concat_map, map_map, <- flat_map_concat_map.
Qed.

Lemma skipped_process_line (has : bool) (p : str) :
  skipped p ->
  process_line has p = ([], Continue)
  \/ process_line has p = ([ConsoleWarn p], Continue).
Proof.
  intros [Hp|Hp]; unfold process_line; fold marker.
  - rewrite Hp. now left.
  - rewrite Hp. destruct (startsWith p marker); [now right|now left].
Qed.

(** C10. The consumer keeps nothing from one read to the next: each read
    is decoded by itself and its lines are handled by themselves, so the
    callbacks are those of the frames found in the lines of each read, read
    by read. So when the line of a relay frame is cut in two by the boundary
    between two reads, wherever the cut falls in the bytes of the line (also
    inside the bytes of one character, which the decoder then replaces by
    U+FFFD on both sides), each piece is a line the consumer skips: it does
    not start with the marker, or what follows the marker does not parse
    (and is reported with a warning). The callbacks invoked are those of the
    same stream without that frame. The same holds for a cut of the decoded
    line between any two of its code units. *)
Theorem split_frame_is_dropped :
  forall (e : StreamEvent) (b1 b2 : list N),
    code_units (frame_line e) = true ->
    encode (frame_line e) = b1 ++ b2 -> b1 <> [] -> b2 <> [] ->
    skipped (TextDecoder_decode b1) /\ skipped (TextDecoder_decode b2)
    /\ (forall has,
           process_line has (TextDecoder_decode b1) = ([], Continue)
           \/ process_line has (TextDecoder_decode b1)
              = ([ConsoleWarn (TextDecoder_decode b1)], Continue))
    /\ (forall has,
           process_line has (TextDecoder_decode b2) = ([], Continue)
           \/ process_line has (TextDecoder_decode b2)
              = ([ConsoleWarn (TextDecoder_decode b2)], Continue))
    /\ (forall has st reads e',
           callbacks (streamChatResponse has
                        (FetchResolves
                           (Response true st (Some (body_of_reads reads e')))))
           = let (cbs, stopped) :=
               dispatch has
                 (flat_map (fun value =>
                              frames_of_lines
                                (split 10 (TextDecoder_decode value)))
                           reads) in
             if stopped then cbs else cbs ++ stream_end e')
    /\ (forall has st pre post A B e',
           A = [] \/ (exists A', A = A' ++ [10]) ->
           callbacks (streamChatResponse has
                        (FetchResolves
                           (Response true st
                              (Some (body_of_reads
                                       (pre ++ [A ++ b1; b2 ++ 10 :: B] ++ post)
                                       e')))))
           = callbacks (streamChatResponse has
                          (FetchResolves
                             (Response true st
                                (Some (body_of_reads
                                         (pre ++ [A; 10 :: B] ++ post) e'))))))
    /\ (forall p1 p2,
           frame_line e = p1 ++ p2 -> p1 <> [] -> p2 <> [] ->
           skipped p1 /\ skipped p2).
Proof.
  intros e b1 b2 Hu Hsplit H1 H2.
  destruct (@frame_bytes_skipped e b1 b2 Hu Hsplit H1 H2)
    as (S1 & S2 & N1 & N2 & (r1 & R1) & (x & r2 & R2)).
  split; [exact S1|]. split; [exact S2|].
  split; [intros has; now apply skipped_process_line|].
  split; [intros has; now apply skipped_process_line|].
  split; [intros has st reads e'; apply callbacks_of_reads|].
  split; [|intros p1 p2; apply frame_pieces_skipped].
  intros has st pre post A B e' HA.
  destruct (@decode_before_cut A b1 r1 HA R1) as [D1 Ha].
  destruct (@decode_after_cut b2 B x r2 R2) as [D2 D3].
  unfold body_of_reads. rewrite !callbacks_of_body.
  rewrite !map_app. cbn [map]. rewrite !frames_of_app.
  rewrite D1, D2, D3, frames_of_leading_break.
  pose proof (@frames_of_cut (TextDecoder_decode A) (decode_raw B)
                (TextDecoder_decode b1) (TextDecoder_decode b2)
                Ha N1 N2 S1 S2) as K.
  unfold str in K |- *. now rewrite K.
Qed.

Lemma split_frame_is_dropped_witness :
  skipped (TextDecoder_decode accent_head)
  /\ skipped (TextDecoder_decode accent_tail)
  /\ callbacks (streamChatResponse true
                  (FetchResolves
                     (Response true 200
                        (Some (body_of_reads
                                 [encode (frame (EvText (js "a")))
                                  ++ accent_head;
                                  accent_tail ++ 10 :: 10
                                  :: encode (frame EvComplete)]
                                 Done)))))
     = [OnText (Some (JString (js "a"))); OnComplete].
Proof.
  destruct (@split_frame_is_dropped (EvText [104; 233; 108; 108; 111])
              accent_head accent_tail eq_refl eq_refl
              ltac:(discriminate) ltac:(discriminate))
    as (S1 & S2 & _ & _ & _ & H & _).
  split; [exact S1|]. split; [exact S2|].
  specialize (H true 200 [] [] (encode (frame (EvText (js "a"))))
                (10 :: encode (frame EvComplete)) Done
                (or_intror (ex_intro _ (encode (frame_line (EvText (js "a")))
                                        ++ [10]) eq_refl))).
  etransitivity; [exact H|]. vm_compute. reflexivity.
Defined.
